(** * Acts::FullBilloirVertexFitter::fit, a shallow embedding

    Source: Core/include/Acts/Vertexing/FullBilloirVertexFitter.ipp.

    The fitter is written over the scalar type [double] and Eigen's
    fixed-size matrices.  The embedding keeps the scalar abstract (class
    [Scalar]): every statement about the control flow of [fit] holds for
    any interpretation of the arithmetic, IEEE doubles included.  Three
    interpretations are given below the model: [Dbl], rationals extended
    with the special values of a double (exact on finite values: rounding,
    overflow and signed zeros are left out), which runs; [RealScalar],
    the real numbers, for the trigonometry of the angle normalisation; and
    [F64], the binary64 numbers of the machine with their rounding and
    overflow, which runs as well. *)

From Stdlib Require Import ZArith QArith Qabs Qreduction List Bool Lia Lra.
From Stdlib Require Import Reals.
From Stdlib Require Ascii String.
From Stdlib Require PrimFloat FloatOps.
Import ListNotations.

Set Implicit Arguments.

(** ** Scalars: the operations of [double] that the source uses *)

Class Scalar (T : Type) : Type := {
  ofZ     : Z -> T;            (* a literal such as 0., 1. or 2 *)
  add     : T -> T -> T;
  sub     : T -> T -> T;
  mul     : T -> T -> T;
  div     : T -> T -> T;
  opp     : T -> T;
  fabs    : T -> T;            (* std::abs *)
  fmod    : T -> T -> T;       (* std::fmod *)
  ltb     : T -> T -> bool;    (* a < b *)
  neqb    : T -> T -> bool;    (* a != b *)
  M_PI    : T;
  DBL_MAX : T                  (* std::numeric_limits<double>::max() *)
}.

(** ** Dense matrices: a matrix is the list of its rows, a vector a column *)

Section Matrices.
Context {T : Type} `{Scalar T}.

Definition Matrix : Type := list (list T).

Definition zero : T := ofZ 0.
Definition one  : T := ofZ 1.
Definition gtb (a b : T) : bool := ltb b a.

Definition get (M : Matrix) (i j : nat) : T := nth j (nth i M []) zero.

Definition mk (rows cols : nat) (f : nat -> nat -> T) : Matrix :=
  map (fun i => map (fun j => f i j) (seq 0 cols)) (seq 0 rows).

Definition nrows (M : Matrix) : nat := length M.
Definition ncols (M : Matrix) : nat := length (hd [] M).

Definition mzero (rows cols : nat) : Matrix := mk rows cols (fun _ _ => zero).

Definition vec (l : list T) : Matrix := map (fun x => [x]) l.
Definition vget (v : Matrix) (i : nat) : T := get v i 0.

Definition transpose (M : Matrix) : Matrix :=
  mk (ncols M) (nrows M) (fun i j => get M j i).

Definition dot (r c : list T) : T :=
  fold_left (fun acc p => add acc (mul (fst p) (snd p))) (combine r c) zero.

Definition col (M : Matrix) (j : nat) : list T :=
  map (fun r => nth j r zero) M.

Definition mmul (A B : Matrix) : Matrix :=
  map (fun r => map (fun j => dot r (col B j)) (seq 0 (ncols B))) A.

Definition zipRows (f : T -> T -> T) (A B : Matrix) : Matrix :=
  map (fun rr => map (fun p => f (fst p) (snd p)) (combine (fst rr) (snd rr)))
      (combine A B).

Definition madd : Matrix -> Matrix -> Matrix := zipRows add.
Definition msub : Matrix -> Matrix -> Matrix := zipRows sub.
Definition mneg (A : Matrix) : Matrix := map (map opp) A.

Definition trace (M : Matrix) : T :=
  fold_left (fun acc i => add acc (get M i i)) (seq 0 (nrows M)) zero.

(** [M(i,j) = x] *)
Definition setEntry (M : Matrix) (i j : nat) (x : T) : Matrix :=
  mk (nrows M) (ncols M)
     (fun i' j' => if (i' =? i)%nat && (j' =? j)%nat then x else get M i' j').

(** [M.block<3,3>(i0,j0) = B] *)
Definition setBlock33 (M : Matrix) (i0 j0 : nat) (B : Matrix) : Matrix :=
  mk (nrows M) (ncols M)
     (fun i j =>
        if (i0 <=? i)%nat && (i <? i0 + 3)%nat && (j0 <=? j)%nat && (j <? j0 + 3)%nat
        then get B (i - i0) (j - j0) else get M i j).

(** Eigen's inverse of a fixed-size 3x3 matrix: the cofactors over the
    determinant, the determinant expanded along the first column
    (Eigen/src/LU/InverseImpl.h, [compute_inverse<MatrixType, ResultType, 3>]). *)
Definition cofactor_3x3 (m : Matrix) (i j : nat) : T :=
  let i1 := ((i + 1) mod 3)%nat in let i2 := ((i + 2) mod 3)%nat in
  let j1 := ((j + 1) mod 3)%nat in let j2 := ((j + 2) mod 3)%nat in
  sub (mul (get m i1 j1) (get m i2 j2)) (mul (get m i1 j2) (get m i2 j1)).

Definition determinant3 (m : Matrix) : T :=
  add (add (mul (cofactor_3x3 m 0 0) (get m 0 0))
           (mul (cofactor_3x3 m 1 0) (get m 1 0)))
      (mul (cofactor_3x3 m 2 0) (get m 2 0)).

Definition eigenInverse3 (m : Matrix) : Matrix :=
  let invdet := div one (determinant3 m) in
  mk 3 3 (fun r c => mul (cofactor_3x3 m c r) invdet).

End Matrices.

(** ** Machine integers of the source *)

(** [unsigned int]: values modulo 2^32. *)
Definition to_uint32 (z : Z) : Z := (z mod 2 ^ 32)%Z.
(** [int]: the two's complement reading of the low 32 bits. *)
Definition to_int32 (z : Z) : Z := ((z + 2 ^ 31) mod 2 ^ 32 - 2 ^ 31)%Z.

(** [ParID_t]: positions of the five bound track parameters. *)
Definition eLOC_D0 : nat := 0.
Definition eLOC_Z0 : nat := 1.
Definition ePHI    : nat := 2.
Definition eTHETA  : nat := 3.
Definition eQOP    : nat := 4.

(** ** Data of the fitter *)

Section Data.
Context {T : Type} `{Scalar T}.
Variables InputTrack TrackParams : Type.

(** [Acts::LinearizedTrack], what the linearization factory returns. *)
Record LinearizedTrack : Type := {
  parametersAtPCA  : Matrix (T:=T);   (* 5 *)
  covarianceAtPCA  : Matrix (T:=T);   (* 5x5 *)
  positionJacobian : Matrix (T:=T);   (* 5x3 *)
  momentumJacobian : Matrix (T:=T)    (* 5x3 *)
}.

(** [Acts::LinearizedTrack*].  The only address the source ever takes is
    that of the variable [linTrack] declared in the body of the loop over
    the tracks; every round of that loop uses the same automatic storage. *)
Inductive LinTrackPtr : Type := AddrLinTrack.

(** The storage behind [AddrLinTrack]: empty until the first track has
    been linearized, afterwards the linearization written last. *)
Definition Frame : Type := option LinearizedTrack.

Definition deref (frame : Frame) (p : LinTrackPtr) : LinearizedTrack :=
  match p, frame with
  | AddrLinTrack, Some l => l
  | AddrLinTrack, None => Build_LinearizedTrack [] [] [] []
  end.

(** [struct BilloirTrack] *)
Record BilloirTrack : Type := {
  originalTrack : InputTrack;
  linTrack      : LinTrackPtr;
  bt_chi2       : T;
  DiMat         : Matrix (T:=T);
  EiMat         : Matrix (T:=T);
  GiMat         : Matrix (T:=T);
  BiMat         : Matrix (T:=T);
  CiInv         : Matrix (T:=T);
  UiVec         : Matrix (T:=T);
  BCiMat        : Matrix (T:=T);
  deltaQ        : Matrix (T:=T)
}.

(** [struct BilloirVertex] *)
Record BilloirVertex : Type := {
  Amat   : Matrix (T:=T);
  Tvec   : Matrix (T:=T);
  BCBmat : Matrix (T:=T);
  BCUvec : Matrix (T:=T)
}.

(** [BoundParameters(cov, parameters, surface)]; the only surface built
    here is a perigee surface, given by its centre. *)
Record BoundParameters : Type := {
  bp_covariance : option (Matrix (T:=T));   (* unique_ptr to the 5x5 covariance *)
  bp_parameters : Matrix (T:=T);   (* 5 *)
  bp_perigee    : Matrix (T:=T)    (* centre of the PerigeeSurface *)
}.

(** [TrackAtVertex(chi2perTrack, paramsAtVertex, originalParams)] *)
Record TrackAtVertex : Type := {
  chi2Track        : T;
  fittedParams     : BoundParameters;
  originalParams   : InputTrack
}.

(** [Acts::Vertex<InputTrack>] *)
Record Vertex : Type := {
  position       : Matrix (T:=T);
  covariance     : Matrix (T:=T);
  fitQuality     : T * Z;            (* (chi2, ndf) *)
  tracksAtVertex : list TrackAtVertex
}.

(** What [fit] is configured with and what it calls.  The linearization
    factory, the parameter extraction and Eigen's [inverse()] are not
    part of this file of the source: they are taken as they come. *)
Record Setup : Type := {
  maxIterations     : Z;                                    (* m_cfg.maxIterations, an int *)
  extractParameters : InputTrack -> TrackParams;
  parameters        : TrackParams -> Matrix (T:=T);
  linearizeTrack    : TrackParams -> Matrix (T:=T) -> LinearizedTrack;
  inverse5          : Matrix (T:=T) -> Matrix (T:=T);      (* 5x5 [.inverse()] *)
  inverse3          : Matrix (T:=T) -> Matrix (T:=T);      (* 3x3 [.inverse()] *)
  defaultFitQuality : T * Z
}.

(** Modelled from the spec: the class [Vertex] is declared outside the
    files at hand.  Its default constructor gives the vertex at the origin
    with zero covariance and no tracks ("the zero-track default"); the
    fit quality of a vertex that was never fitted is left to [Setup]. *)
Definition Vertex_default (cfg : Setup) : Vertex :=
  {| position := vec [zero; zero; zero];
     covariance := mzero 3 3;
     fitQuality := defaultFitQuality cfg;
     tracksAtVertex := [] |}.

(** Modelled from the spec: [Vertex(const Vector3D& position)] sets the
    position and leaves the other members as the default constructor
    does. *)
Definition Vertex_at (cfg : Setup) (pos : Matrix (T:=T)) : Vertex :=
  {| position := pos;
     covariance := covariance (Vertex_default cfg);
     fitQuality := fitQuality (Vertex_default cfg);
     tracksAtVertex := tracksAtVertex (Vertex_default cfg) |}.

End Data.

(** ** The fitter *)

Section Fitter.
Context {T : Type} `{Scalar T}.
Variables InputTrack TrackParams : Type.
Variable cfg : Setup (T:=T) InputTrack TrackParams.

Local Abbreviation Mat := (Matrix (T:=T)).
Local Abbreviation LinTrack := (LinearizedTrack (T:=T)).
Local Abbreviation BTrack := (BilloirTrack (T:=T) InputTrack).
Local Abbreviation Vtx := (Vertex (T:=T) InputTrack).

Definition twoPi : T := mul (ofZ 2) M_PI.

(** Lines 229-251: "correct for 2PI / PI periodicity", on the updated
    azimuth [phi] and polar angle [theta]; returns [(tmpPhi, tmpTht)]. *)
Definition normalizeAngles (phi theta : T) : T * T :=
  let tmpPhi := fmod phi twoPi in
  let tmpPhi := if gtb tmpPhi M_PI then sub tmpPhi twoPi else tmpPhi in
  let tmpPhi :=
    if ltb tmpPhi (opp M_PI) && gtb tmpPhi (mul (ofZ (-2)) M_PI)
    then add tmpPhi twoPi else tmpPhi in
  let tmpTht := fmod theta twoPi in
  let '(tmpPhi, tmpTht) :=
    if ltb tmpTht (opp M_PI) then (tmpPhi, fabs (add tmpTht twoPi))
    else if ltb tmpTht (ofZ 0) then
      let tmpTht := mul tmpTht (ofZ (-1)) in
      let tmpPhi := add tmpPhi M_PI in
      (if gtb tmpPhi M_PI then sub tmpPhi twoPi else tmpPhi, tmpTht)
    else (tmpPhi, tmpTht) in
  if gtb tmpTht M_PI then
    let tmpTht := sub twoPi tmpTht in
    let tmpPhi := add tmpPhi M_PI in
    (if gtb tmpPhi M_PI then sub tmpPhi twoPi else tmpPhi, tmpTht)
  else (tmpPhi, tmpTht).

(** Lines 224-254: the update of one running momentum by [deltaP]. *)
Definition updateMomentum (momentum deltaP : Mat) : Mat :=
  let m0 := add (vget momentum 0) (vget deltaP 0) in
  let m1 := add (vget momentum 1) (vget deltaP 1) in
  let m2 := add (vget momentum 2) (vget deltaP 2) in
  let '(tmpPhi, tmpTht) := normalizeAngles m0 m1 in
  vec [tmpPhi; tmpTht; m2].

(** Lines 75-86. [size] is [paramVector.size()]. *)
Definition nTracksOf (size : Z) : Z := to_uint32 size.

Definition isConstraintFitOf (constraint : Vtx) : bool :=
  neqb (trace (covariance constraint)) (ofZ 0).

Definition ndfOf (size : Z) (isConstraintFit : bool) : Z :=
  let nTracks := nTracksOf size in
  let ndf := to_int32 (to_uint32 (2 * nTracks - 3)) in
  let ndf := if (nTracks <? 2)%Z then 1%Z else ndf in
  if isConstraintFit then to_int32 (ndf + 3) else ndf.

(** *** The loop over the tracks (lines 109-181) *)

Record TrackLoop : Type := {
  tl_trackMomenta  : list Mat;
  tl_billoirTracks : list BTrack;
  tl_billoirVertex : BilloirVertex (T:=T);
  tl_iTrack        : nat;
  tl_frame         : Frame (T:=T);                  (* storage of [linTrack] *)
  tl_calls         : list (TrackParams * Mat)       (* calls of linearizeTrack so far *)
}.

Definition BilloirVertex_init : BilloirVertex (T:=T) :=
  {| Amat := mzero 3 3; Tvec := mzero 3 1; BCBmat := mzero 3 3; BCUvec := mzero 3 1 |}.

Definition trackStep (nIter : Z) (linPoint : Mat)
           (s : TrackLoop) (trackContainer : InputTrack) : TrackLoop :=
  let trackParams := extractParameters cfg trackContainer in
  let trackMomenta :=
    if (nIter =? 0)%Z then
      let phi   := vget (parameters cfg trackParams) ePHI in
      let theta := vget (parameters cfg trackParams) eTHETA in
      let qop   := vget (parameters cfg trackParams) eQOP in
      tl_trackMomenta s ++ [vec [phi; theta; qop]]
    else tl_trackMomenta s in
  let linTrack := linearizeTrack cfg trackParams linPoint in
  let d0     := vget (parametersAtPCA linTrack) eLOC_D0 in
  let z0     := vget (parametersAtPCA linTrack) eLOC_Z0 in
  let phi    := vget (parametersAtPCA linTrack) ePHI in
  let theta  := vget (parametersAtPCA linTrack) eTHETA in
  let qOverP := vget (parametersAtPCA linTrack) eQOP in
  let iTrack := tl_iTrack s in
  let fPhi   := vget (nth iTrack trackMomenta []) 0 in
  let fTheta := vget (nth iTrack trackMomenta []) 1 in
  let fQOvP  := vget (nth iTrack trackMomenta []) 2 in
  let deltaQ := vec [d0; z0; sub phi fPhi; sub theta fTheta; sub qOverP fQOvP] in
  let Dmat := positionJacobian linTrack in
  let Emat := momentumJacobian linTrack in
  let DtWmat := mmul (transpose Dmat) (inverse5 cfg (covarianceAtPCA linTrack)) in
  let EtWmat := mmul (transpose Emat) (inverse5 cfg (covarianceAtPCA linTrack)) in
  let Gi  := mmul EtWmat Emat in
  let Bi  := mmul DtWmat Emat in
  let Ui  := mmul EtWmat deltaQ in
  let Ci  := inverse3 cfg (mmul EtWmat Emat) in
  let bv  := tl_billoirVertex s in
  let Tvec' := madd (Tvec bv) (mmul DtWmat deltaQ) in
  let Amat' := madd (Amat bv) (mmul DtWmat Dmat) in
  let BCi := mmul Bi Ci in
  let BCUvec' := madd (BCUvec bv) (mmul BCi Ui) in
  let BCBmat' := madd (BCBmat bv) (mmul BCi (transpose Bi)) in
  let currentBilloirTrack :=
    {| originalTrack := trackContainer;
       linTrack := AddrLinTrack;
       bt_chi2 := zero;               (* not set before the momentum loop *)
       DiMat := Dmat; EiMat := Emat; GiMat := Gi; BiMat := Bi;
       CiInv := Ci; UiVec := Ui; BCiMat := BCi; deltaQ := deltaQ |} in
  {| tl_trackMomenta := trackMomenta;
     tl_billoirTracks := tl_billoirTracks s ++ [currentBilloirTrack];
     tl_billoirVertex :=
       {| Amat := Amat'; Tvec := Tvec'; BCBmat := BCBmat'; BCUvec := BCUvec' |};
     tl_iTrack := S iTrack;
     tl_frame := Some linTrack;
     tl_calls := tl_calls s ++ [(trackParams, linPoint)] |}.

(** What the loop records for a track: the Jacobians of its linearization
    and the products built from them. *)
Definition cachedFrom (lp : Matrix) (b : BTrack) : Prop :=
  let lt := linearizeTrack cfg (extractParameters cfg (originalTrack b)) lp in
  let W := inverse5 cfg (covarianceAtPCA lt) in
  linTrack b = AddrLinTrack
  /\ DiMat b = positionJacobian lt
  /\ EiMat b = momentumJacobian lt
  /\ GiMat b = mmul (mmul (transpose (EiMat b)) W) (EiMat b)
  /\ BiMat b = mmul (mmul (transpose (DiMat b)) W) (EiMat b)
  /\ UiVec b = mmul (mmul (transpose (EiMat b)) W) (deltaQ b)
  /\ CiInv b = inverse3 cfg (GiMat b)
  /\ BCiMat b = mmul (BiMat b) (CiInv b)
  /\ vget (deltaQ b) eLOC_D0 = vget (parametersAtPCA lt) eLOC_D0
  /\ vget (deltaQ b) eLOC_Z0 = vget (parametersAtPCA lt) eLOC_Z0.

(** *** The loop over the Billoir tracks (lines 216-307) *)

(** [v[i] = x] on a [std::vector]; the position is in range wherever the
    source writes as long as there are fewer than 2^31 tracks: then
    [nTracks], which sizes the vectors, is the number of tracks and the
    int [iTrack] does not overflow.  From 2^31 tracks on the source is
    undefined, and nothing is modelled for it: a write out of range is
    dropped here, and [iTrack] is a natural number. *)
Fixpoint setNth {A : Type} (i : nat) (x : A) (l : list A) : list A :=
  match l, i with
  | [], _ => []
  | _ :: r, O => x :: r
  | y :: r, S i' => y :: setNth i' x r
  end.

(** Lines 259-268. *)
Definition transMatOf (bTrack : BTrack) : Mat :=
  let transMat := mzero 5 6 in
  let transMat := setEntry transMat 0 0 (get (DiMat bTrack) 0 0) in
  let transMat := setEntry transMat 0 1 (get (DiMat bTrack) 0 1) in
  let transMat := setEntry transMat 1 0 (get (DiMat bTrack) 1 0) in
  let transMat := setEntry transMat 1 1 (get (DiMat bTrack) 1 1) in
  let transMat := setEntry transMat 1 2 (ofZ 1) in
  let transMat := setEntry transMat 2 3 (ofZ 1) in
  let transMat := setEntry transMat 3 4 (ofZ 1) in
  let transMat := setEntry transMat 4 5 (ofZ 1) in
  transMat.

(** The positions of [transMat] that hold the constant 1: (1,2), (2,3),
    (3,4) and (4,5). *)
Definition fixedOne (i j : nat) : bool := (1 <=? i)%nat && (j =? i + 1)%nat.

(** Lines 272-285: cov(V,V), cov(V,P) and cov(P,P). *)
Definition VVmatOf (covDeltaVmat : Mat) : Mat := covDeltaVmat.
Definition VPmatOf (covDeltaVmat : Mat) (bTrack : BTrack) : Mat :=
  mmul (mmul (mneg covDeltaVmat) (GiMat bTrack)) (CiInv bTrack).
Definition PPmatOf (covDeltaVmat : Mat) (bTrack : BTrack) : Mat :=
  madd (CiInv bTrack)
       (mmul (mmul (transpose (BCiMat bTrack)) covDeltaVmat) (BCiMat bTrack)).

(** Lines 287-292. *)
Definition covMatOf (covDeltaVmat : Mat) (bTrack : BTrack) : Mat :=
  let covMat := mzero 6 6 in
  let covMat := setBlock33 covMat 0 3 (VPmatOf covDeltaVmat bTrack) in
  let covMat := setBlock33 covMat 3 0 (transpose (VPmatOf covDeltaVmat bTrack)) in
  let covMat := setBlock33 covMat 0 0 (VVmatOf covDeltaVmat) in
  let covMat := setBlock33 covMat 3 3 (PPmatOf covDeltaVmat bTrack) in
  covMat.

(** Lines 295-296. *)
Definition covDeltaPOf (covDeltaVmat : Mat) (bTrack : BTrack) : Mat :=
  mmul (mmul (transMatOf bTrack) (covMatOf covDeltaVmat bTrack))
       (transpose (transMatOf bTrack)).

(** Line 221-222. *)
Definition deltaPOf (deltaV : Mat) (bTrack : BTrack) : Mat :=
  mmul (CiInv bTrack)
       (msub (UiVec bTrack) (mmul (transpose (BiMat bTrack)) deltaV)).

(** Lines 298-303; [W] is the weight matrix the expression is given. *)
Definition chi2Form (W : Mat) (deltaV deltaP : Mat) (bTrack : BTrack) : T :=
  let r := msub (msub (deltaQ bTrack) (mmul (DiMat bTrack) deltaV))
                (mmul (EiMat bTrack) deltaP) in
  vget (mmul (mmul (transpose r) W) r) 0.

(** [bTrack.chi2 = c] *)
Definition setChi2 (bTrack : BTrack) (c : T) : BTrack :=
  {| originalTrack := originalTrack bTrack; linTrack := linTrack bTrack;
     bt_chi2 := c;
     DiMat := DiMat bTrack; EiMat := EiMat bTrack; GiMat := GiMat bTrack;
     BiMat := BiMat bTrack; CiInv := CiInv bTrack; UiVec := UiVec bTrack;
     BCiMat := BCiMat bTrack; deltaQ := deltaQ bTrack |}.

(** Lines 298-303 as written: the weight matrix is read through the
    pointer [bTrack.linTrack]. *)
Definition trackChi2 (frame : Frame (T:=T)) (deltaV : Mat) (bTrack : BTrack) : T :=
  chi2Form (inverse5 cfg (covarianceAtPCA (deref frame (linTrack bTrack))))
           deltaV (deltaPOf deltaV bTrack) bTrack.

Record MomentumLoop : Type := {
  ml_trackMomenta  : list Mat;
  ml_billoirTracks : list BTrack;          (* the tracks visited, chi2 set *)
  ml_covDeltaPmat  : list (option Mat);    (* vector of unique_ptr *)
  ml_newChi2       : T;
  ml_iTrack        : nat
}.

Definition momentumStep (frame : Frame (T:=T)) (covDeltaVmat deltaV : Mat)
           (s : MomentumLoop) (bTrack : BTrack) : MomentumLoop :=
  let iTrack := ml_iTrack s in
  let deltaP := deltaPOf deltaV bTrack in
  let trackMomenta :=
    setNth iTrack (updateMomentum (nth iTrack (ml_trackMomenta s) []) deltaP)
           (ml_trackMomenta s) in
  let covDeltaPmat :=
    setNth iTrack (Some (covDeltaPOf covDeltaVmat bTrack)) (ml_covDeltaPmat s) in
  let chi2 := trackChi2 frame deltaV bTrack in
  {| ml_trackMomenta := trackMomenta;
     ml_billoirTracks := ml_billoirTracks s ++ [setChi2 bTrack chi2];
     ml_covDeltaPmat := covDeltaPmat;
     ml_newChi2 := add (ml_newChi2 s) chi2;
     ml_iTrack := S iTrack |}.

(** *** One iteration (lines 101-356) *)

(** The variables of [fit] that live across iterations. *)
Record FitState : Type := {
  chi2          : T;
  trackMomenta  : list Mat;
  linPoint      : Mat;
  fittedVertex  : Vtx;
  nIter         : Z;
  linCalls      : list (TrackParams * Mat)
}.

(** What one round of the loop computes before line 322. *)
Record Iteration : Type := {
  it_billoirTracks : list BTrack;
  it_trackMomenta  : list Mat;
  it_covDeltaPmat  : list (option Mat);
  it_covDeltaVmat  : Mat;
  it_deltaV        : Mat;
  it_newChi2       : T;
  it_frame         : Frame (T:=T);
  it_calls         : list (TrackParams * Mat)
}.

Section Call.
Variable paramVector : list InputTrack.
Variable constraint : Vtx.

Definition nTracks : Z := nTracksOf (Z.of_nat (length paramVector)).
Definition isConstraintFit : bool := isConstraintFitOf constraint.
Definition ndf : Z := ndfOf (Z.of_nat (length paramVector)) isConstraintFit.

(** [constraint.position() - linPoint], component by component
    (lines 195-200 and 315-317). *)
Definition constraintOffset (linPoint : Mat) : Mat :=
  vec [sub (vget (position constraint) 0) (vget linPoint 0);
       sub (vget (position constraint) 1) (vget linPoint 1);
       sub (vget (position constraint) 2) (vget linPoint 2)].

(** Lines 185-205. *)
Definition VdelOf (linPoint : Mat) (bv : BilloirVertex (T:=T)) : Mat :=
  let Vdel := msub (Tvec bv) (BCUvec bv) in
  if isConstraintFit
  then madd Vdel (mmul (inverse3 cfg (covariance constraint)) (constraintOffset linPoint))
  else Vdel.

Definition VwgtMatOf (bv : BilloirVertex (T:=T)) : Mat :=
  let VwgtMat := msub (Amat bv) (BCBmat bv) in
  if isConstraintFit
  then madd VwgtMat (inverse3 cfg (covariance constraint))
  else VwgtMat.

(** Lines 309-320: the term of the constraint in the chi-square. *)
Definition constraintChi2 (linPoint deltaV : Mat) : T :=
  let off := constraintOffset linPoint in
  let deltaTrk := vec [sub (vget deltaV 0) (vget off 0);
                       sub (vget deltaV 1) (vget off 1);
                       sub (vget deltaV 2) (vget off 2)] in
  vget (mmul (mmul (transpose deltaTrk) (inverse3 cfg (covariance constraint)))
             deltaTrk) 0.

(** Lines 102-181: the loop over the tracks, in the state [st]. *)
Definition trackLoopOf (st : FitState) : TrackLoop :=
  fold_left (trackStep (nIter st) (linPoint st)) paramVector
    {| tl_trackMomenta := trackMomenta st;
       tl_billoirTracks := [];
       tl_billoirVertex := BilloirVertex_init;
       tl_iTrack := 0;
       tl_frame := None;
       tl_calls := linCalls st |}.

(** Lines 207-211. *)
Definition covDeltaVmatOf (st : FitState) : Mat :=
  inverse3 cfg (VwgtMatOf (tl_billoirVertex (trackLoopOf st))).

Definition deltaVOf (st : FitState) : Mat :=
  mmul (covDeltaVmatOf st) (VdelOf (linPoint st) (tl_billoirVertex (trackLoopOf st))).

(** Lines 216-307: the loop over the Billoir tracks. *)
Definition momentumLoopOf (st : FitState) : MomentumLoop :=
  fold_left (momentumStep (tl_frame (trackLoopOf st)) (covDeltaVmatOf st) (deltaVOf st))
    (tl_billoirTracks (trackLoopOf st))
    {| ml_trackMomenta := tl_trackMomenta (trackLoopOf st);
       ml_billoirTracks := [];
       ml_covDeltaPmat := repeat None (Z.to_nat nTracks);
       ml_newChi2 := ofZ 0;
       ml_iTrack := 0 |}.

Definition runIteration (st : FitState) : Iteration :=
  let ml := momentumLoopOf st in
  let newChi2 :=
    if isConstraintFit
    then add (ml_newChi2 ml) (constraintChi2 (linPoint st) (deltaVOf st))
    else ml_newChi2 ml in
  {| it_billoirTracks := ml_billoirTracks ml;
     it_trackMomenta := ml_trackMomenta ml;
     it_covDeltaPmat := ml_covDeltaPmat ml;
     it_covDeltaVmat := covDeltaVmatOf st;
     it_deltaV := deltaVOf st;
     it_newChi2 := newChi2;
     it_frame := tl_frame (trackLoopOf st);
     it_calls := tl_calls (trackLoopOf st) |}.

(** Lines 341-350: the refitted track of the Billoir track at [iTrack]. *)
Definition refitTrack (vertexPos : Mat) (it : Iteration) (iTrack : nat)
           (bTrack : BTrack) : TrackAtVertex (T:=T) InputTrack :=
  let momentum := nth iTrack (it_trackMomenta it) [] in
  let paramVec := vec [ofZ 0; ofZ 0; vget momentum 0; vget momentum 1; vget momentum 2] in
  let refittedParams :=
    {| bp_covariance := nth iTrack (it_covDeltaPmat it) None;
       bp_parameters := paramVec;
       bp_perigee := vertexPos |} in
  {| chi2Track := bt_chi2 bTrack;
     fittedParams := refittedParams;
     originalParams := originalTrack bTrack |}.

(** Lines 339-353: one round of the loop that fills [tracksAtVertex]. *)
Definition refitStep (vertexPos : Mat) (it : Iteration)
           (acc : list (TrackAtVertex (T:=T) InputTrack) * nat) (bTrack : BTrack)
  : list (TrackAtVertex (T:=T) InputTrack) * nat :=
  let '(tracksAtVertex, iTrack) := acc in
  (tracksAtVertex ++ [refitTrack vertexPos it iTrack bTrack], S iTrack).

(** Lines 327-354: the vertex written when the chi-square improved. *)
Definition materialize (vertexPos : Mat) (it : Iteration) : Vtx :=
  {| position := vertexPos;
     covariance := it_covDeltaVmat it;
     fitQuality := (it_newChi2 it, ndf);
     tracksAtVertex :=
       fst (fold_left (refitStep vertexPos it) (it_billoirTracks it) ([], 0%nat)) |}.

(** Lines 322-356. *)
Definition commit (st : FitState) (it : Iteration) : FitState :=
  let linPoint' := madd (linPoint st) (it_deltaV it) in
  let improved := ltb (it_newChi2 it) (chi2 st) in
  {| chi2 := if improved then it_newChi2 it else chi2 st;
     trackMomenta := it_trackMomenta it;
     linPoint := linPoint';
     fittedVertex := if improved then materialize linPoint' it else fittedVertex st;
     nIter := (nIter st + 1)%Z;
     linCalls := it_calls it |}.

Definition iterationBody (st : FitState) : FitState := commit st (runIteration st).

(** Lines 67-99. *)
Definition initState : FitState :=
  {| chi2 := DBL_MAX;
     trackMomenta := [];
     linPoint := position constraint;
     fittedVertex := Vertex_default cfg;
     nIter := 0;
     linCalls := [] |}.

(** The state after [k] rounds of the loop. *)
Definition stateAfter (k : nat) : FitState := Nat.iter k iterationBody initState.

(** [for (int nIter = 0; nIter < m_cfg.maxIterations; ++nIter)]: the bound
    is constant and the body does not assign [nIter]. *)
Definition fitLoop : FitState := stateAfter (Z.to_nat (maxIterations cfg)).

(** What a call leaves behind: the vertex returned, the calls made to the
    linearization factory, and the number of rounds of the loop. *)
Record Run : Type := {
  run_vertex : Vtx;
  run_calls  : list (TrackParams * Mat);
  run_rounds : Z
}.

Definition fitRun : Run :=
  if (nTracks =? 0)%Z
  then {| run_vertex := Vertex_at cfg (vec [ofZ 0; ofZ 0; ofZ 0]);
          run_calls := [];
          run_rounds := 0 |}
  else {| run_vertex := fittedVertex fitLoop;
          run_calls := linCalls fitLoop;
          run_rounds := nIter fitLoop |}.

Definition fit : Vtx := run_vertex fitRun.

(** [fit] is declared to return [Vertex<InputTrack>] by value.  None of its
    statements throws or returns early with an error, and nothing is tested
    after a call of [inverse()]: a call that returns, returns a vertex. *)
Inductive FitError : Type := SingularMatrix | LinearizationFailure.

Definition fitResult : FitError + Vtx := inr fit.

(** *** Observations on a run *)

(** The total chi-square computed in round [j] (rounds count from 0). *)
Definition newChi2At (j : nat) : T := it_newChi2 (runIteration (stateAfter j)).

(** The test of line 324 in round [j]. *)
Definition improvedAt (j : nat) : bool := ltb (newChi2At j) (chi2 (stateAfter j)).

(** The last round among the first [k] in which the test succeeded. *)
Fixpoint bestRound (k : nat) : option nat :=
  match k with
  | O => None
  | S k' => if improvedAt k' then Some k' else bestRound k'
  end.

(** The Billoir tracks of a round, before their chi-square is set. *)
Definition linearized (st : FitState) : list BTrack :=
  tl_billoirTracks (trackLoopOf st).

(** The vertex written in round [j]. *)
Definition vertexOfRound (j : nat) : Vtx :=
  materialize (linPoint (stateAfter (S j))) (runIteration (stateAfter j)).

End Call.
End Fitter.

(** ** Interpretation 1: doubles with exact finite arithmetic

    A finite value is a rational; the three special values behave as IEEE
    754 has them (division by zero, invalid operations, unordered
    comparisons).  Rounding, overflow and the sign of zero are left out. *)

Module Dbl.

Inductive dbl : Type :=
| Fin (q : Q)
| PInf
| NInf
| NaN.

Definition Qsgn (q : Q) : Z := Z.sgn (Qnum q).
Definition Qltb (a b : Q) : bool := (Qnum a * QDen b <? Qnum b * QDen a)%Z.
Definition Qtrunc (q : Q) : Z := Z.quot (Qnum q) (QDen q).

Definition inf_of_sign (s : Z) : dbl :=
  match s with Z0 => NaN | Zpos _ => PInf | Zneg _ => NInf end.

Definition sign (x : dbl) : Z :=
  match x with Fin q => Qsgn q | PInf => 1 | NInf => (-1) | NaN => 0 end.

Definition dadd (x y : dbl) : dbl :=
  match x, y with
  | NaN, _ | _, NaN => NaN
  | Fin a, Fin b => Fin (Qred (a + b))
  | PInf, NInf | NInf, PInf => NaN
  | PInf, _ | _, PInf => PInf
  | NInf, _ | _, NInf => NInf
  end.

Definition dopp (x : dbl) : dbl :=
  match x with Fin a => Fin (Qred (- a)) | PInf => NInf | NInf => PInf | NaN => NaN end.

Definition dsub (x y : dbl) : dbl := dadd x (dopp y).

Definition dmul (x y : dbl) : dbl :=
  match x, y with
  | NaN, _ | _, NaN => NaN
  | Fin a, Fin b => Fin (Qred (a * b))
  | _, _ => inf_of_sign (sign x * sign y)
  end.

Definition ddiv (x y : dbl) : dbl :=
  match x, y with
  | NaN, _ | _, NaN => NaN
  | Fin a, Fin b => if Qsgn b =? 0 then inf_of_sign (Qsgn a) else Fin (Qred (a / b))
  | Fin _, _ => Fin 0
  | _, Fin b => inf_of_sign (sign x * (if Qsgn b =? 0 then 1 else Qsgn b))
  | _, _ => NaN
  end%Z.

Definition dabs (x : dbl) : dbl :=
  match x with Fin a => Fin (Qred (Qabs a)) | PInf | NInf => PInf | NaN => NaN end.

Definition dfmod (x y : dbl) : dbl :=
  match x, y with
  | Fin a, Fin b =>
      if (Qsgn b =? 0)%Z then NaN
      else Fin (Qred (a - inject_Z (Qtrunc (a / b)) * b))
  | Fin a, (PInf | NInf) => Fin a
  | _, _ => NaN
  end.

Definition dltb (x y : dbl) : bool :=
  match x, y with
  | NaN, _ | _, NaN => false
  | Fin a, Fin b => Qltb a b
  | NInf, (Fin _ | PInf) => true
  | Fin _, PInf => true
  | _, _ => false
  end.

Definition dneqb (x y : dbl) : bool :=
  match x, y with
  | Fin a, Fin b => negb (Qeq_bool a b)
  | PInf, PInf | NInf, NInf => false
  | _, _ => true
  end.

(** M_PI = 3.14159265358979323846 read as a double: 884279719003555 / 2^48. *)
Definition dM_PI : dbl := Fin (884279719003555 # 281474976710656).

(** The largest finite double, (2^53 - 1) * 2^971. *)
Definition dDBL_MAX : dbl := Fin (inject_Z ((2 ^ 53 - 1) * 2 ^ 971)).

#[export] Instance dbl_Scalar : Scalar dbl := {
  ofZ z := Fin (inject_Z z);
  add := dadd; sub := dsub; mul := dmul; div := ddiv; opp := dopp;
  fabs := dabs; fmod := dfmod; ltb := dltb; neqb := dneqb;
  M_PI := dM_PI; DBL_MAX := dDBL_MAX
}.

Definition isFinite (x : dbl) : bool :=
  match x with Fin _ => true | _ => false end.

End Dbl.

(** ** Interpretation 2: the real numbers *)

Module RealScalar.

Definition Rltb (a b : R) : bool := if Rlt_dec a b then true else false.
Definition Rneqb (a b : R) : bool := if Req_dec_T a b then false else true.

(** Rounding towards zero. *)
Definition Rtrunc (x : R) : Z :=
  if Rle_dec 0 x then Int_part x else (- Int_part (- x))%Z.

Definition Rfmod (x y : R) : R := (x - IZR (Rtrunc (x / y)) * y)%R.

#[export] Instance R_Scalar : Scalar R := {
  ofZ := IZR;
  add := Rplus; sub := Rminus; mul := Rmult; div := Rdiv; opp := Ropp;
  fabs := Rabs; fmod := Rfmod; ltb := Rltb; neqb := Rneqb;
  M_PI := PI; DBL_MAX := IZR ((2 ^ 53 - 1) * 2 ^ 971)
}.


(** The unit direction of a momentum given by azimuth and polar angle. *)
Definition direction (phi theta : R) : R * R * R :=
  ((sin theta * cos phi)%R, (sin theta * sin phi)%R, cos theta).

(** The momentum vector given by azimuth, polar angle and charge over
    momentum: the direction scaled by [1/|q/p|]. *)
Definition momentumVector (phi theta qop : R) : R * R * R :=
  let p := (1 / Rabs qop)%R in
  ((p * (sin theta * cos phi))%R, (p * (sin theta * sin phi))%R, (p * cos theta)%R).

End RealScalar.

(** ** Concrete calls, in the interpretation [Dbl]

    The tracks are given by their linearization at the origin.  The
    linearization factory of the examples moves the reference point of a
    track that is exactly linear, and the 5x5 inverse is that of a diagonal
    matrix (all the 5x5 covariances below are diagonal). *)

Module Examples.
Import Dbl.

Definition q (z : Z) : dbl := Fin (inject_Z z).

Definition Track : Type := LinearizedTrack (T:=dbl).

Definition diag (l : list dbl) : Matrix :=
  mk (length l) (length l) (fun i j => if (i =? j)%nat then nth i l (q 0) else q 0).

Definition diagInverse (m : Matrix (T:=dbl)) : Matrix :=
  mk (nrows m) (nrows m)
     (fun i j => if (i =? j)%nat then div (q 1) (get m i i) else q 0).

Definition linearFactory (t : Track) (linPoint : Matrix) : Track :=
  {| parametersAtPCA := msub (parametersAtPCA t) (mmul (positionJacobian t) linPoint);
     covarianceAtPCA := covarianceAtPCA t;
     positionJacobian := positionJacobian t;
     momentumJacobian := momentumJacobian t |}.

Definition setup (maxIter : Z) : Setup Track Track :=
  {| maxIterations := maxIter;
     extractParameters := fun t => t;
     parameters := fun t => parametersAtPCA t;
     linearizeTrack := linearFactory;
     inverse5 := diagInverse;
     inverse3 := eigenInverse3;
     defaultFitQuality := (q 0, 0%Z) |}.

(** Momentum Jacobian: azimuth, polar angle and q/p pass through. *)
Definition Emom : Matrix := map (map q) [[0;0;0];[0;0;0];[1;0;0];[0;1;0];[0;0;1]]%Z.
(** The same without any dependence on q/p: [Et*W*E] is singular. *)
Definition Esing : Matrix := map (map q) [[0;0;0];[0;0;0];[1;0;0];[0;1;0];[0;0;0]]%Z.
(** Position Jacobians: d0 along x or along y, z0 along z. *)
Definition Dx : Matrix := map (map q) [[1;0;0];[0;0;1];[0;0;0];[0;0;0];[0;0;0]]%Z.
Definition Dy : Matrix := map (map q) [[0;1;0];[0;0;1];[0;0;0];[0;0;0];[0;0;0]]%Z.

Definition trackA : Track :=
  {| parametersAtPCA := vec (map q [2;1;0;1;1]%Z);
     covarianceAtPCA := diag (map q [1;1;1;1;1]%Z);
     positionJacobian := Dx;
     momentumJacobian := Emom |}.

Definition trackB : Track :=
  {| parametersAtPCA := vec (map q [3;-1;1;1;1]%Z);
     covarianceAtPCA := diag [q 1; Fin (1 # 3); q 1; q 1; q 1];
     positionJacobian := Dy;
     momentumJacobian := Emom |}.

(** No constraint given: the default vertex (zero covariance). *)
Definition noConstraint : Vertex Track := Vertex_default (setup 0).



(** A track whose momentum Jacobian loses q/p; two copies of it are two
    identical trajectories. *)
Definition trackS : Track :=
  {| parametersAtPCA := vec (map q [2;1;0;1;1]%Z);
     covarianceAtPCA := diag (map q [1;1;1;1;1]%Z);
     positionJacobian := Dx;
     momentumJacobian := Esing |}.

(** A factory that is not linear: the z0 of a track with nonzero z0 at the
    origin depends on the height of the reference point through a table. *)
Definition kink (z : dbl) : dbl :=
  if dltb z (q 1) then q 2 else if dltb z (q 2) then q 3 else if dltb z (q 3) then q 1 else q 2.

Definition kinkFactory (t : Track) (linPoint : Matrix) : Track :=
  if dneqb (vget (parametersAtPCA t) eLOC_Z0) (q 0)
  then {| parametersAtPCA :=
            vec [vget (parametersAtPCA t) eLOC_D0; kink (vget linPoint 2);
                 vget (parametersAtPCA t) ePHI; vget (parametersAtPCA t) eTHETA;
                 vget (parametersAtPCA t) eQOP];
          covarianceAtPCA := covarianceAtPCA t;
          positionJacobian := positionJacobian t;
          momentumJacobian := momentumJacobian t |}
  else t.

Definition setupKink (maxIter : Z) : Setup Track Track :=
  {| maxIterations := maxIter;
     extractParameters := fun t => t;
     parameters := fun t => parametersAtPCA t;
     linearizeTrack := kinkFactory;
     inverse5 := diagInverse;
     inverse3 := eigenInverse3;
     defaultFitQuality := (q 0, 0%Z) |}.

Definition trackE : Track :=
  {| parametersAtPCA := vec (map q [0;2;0;1;1]%Z);
     covarianceAtPCA := diag (map q [1;1;1;1;1]%Z);
     positionJacobian := Dx;
     momentumJacobian := Emom |}.

Definition trackF : Track :=
  {| parametersAtPCA := vec (map q [0;0;0;1;1]%Z);
     covarianceAtPCA := diag (map q [1;1;1;1;1]%Z);
     positionJacobian := Dy;
     momentumJacobian := Emom |}.

(** Constraints at the point (1,1,1). *)
Definition constraintWith (cov : Matrix) : Vertex Track :=
  {| position := vec (map q [1;1;1]%Z);
     covariance := cov;
     fitQuality := (q 0, 0%Z);
     tracksAtVertex := [] |}.

Definition covTraceless : Matrix := diag (map q [1;-1;0]%Z).
Definition covZero : Matrix := mzero 3 3.
Definition covUnit : Matrix := diag (map q [1;1;1]%Z).
Definition covNegative : Matrix := diag (map q [-1;-1;-1]%Z).
Definition covTiny : Matrix :=
  diag [Fin (1 # 1000000000000); Fin (1 # 1000000000000); Fin (1 # 1000000000000)].

(** The chi-square of a track in the words of the specification: the
    residual weighted with the inverse of the covariance of that track's
    own linearization at the linearization point [lp] of the round. *)
Definition specTrackChi2 (cfg : Setup Track Track) (lp deltaV : Matrix)
           (b : BilloirTrack (T:=dbl) Track) : dbl :=
  chi2Form (inverse5 cfg (covarianceAtPCA
                            (linearizeTrack cfg (extractParameters cfg (originalTrack b)) lp)))
           deltaV (deltaPOf deltaV b) b.

(** The 5x6 transformation in the words of the specification: the upper
    left 2x2 block of the position Jacobian and three entries 1, one for
    each momentum parameter. *)
Definition specTransMat (b : BilloirTrack (T:=dbl) Track) : Matrix :=
  mk 5 6 (fun i j =>
            if (i <? 2)%nat && (j <? 2)%nat then get (DiMat b) i j
            else if (2 <=? i)%nat && (j =? i + 1)%nat then q 1 else q 0).



End Examples.

(** ** Shapes *)

(** [M] has [r] rows of [c] entries each, as an [ActsMatrixD<r, c>] has. *)
Definition isShape {T : Type} (r c : nat) (M : Matrix (T:=T)) : bool :=
  (length M =? r)%nat && forallb (fun row => (length row =? c)%nat) M.

(** ** Concrete calls, over the real numbers *)

Module RealExamples.
Import RealScalar.

Definition RTrack : Type := LinearizedTrack (T:=R).

Definition rdiag (l : list R) : Matrix :=
  mk (length l) (length l) (fun i j => if (i =? j)%nat then nth i l 0%R else 0%R).

Definition rdiagInverse (m : Matrix (T:=R)) : Matrix :=
  mk (nrows m) (nrows m) (fun i j => if (i =? j)%nat then (1 / get m i i)%R else 0%R).

Definition rlinearFactory (t : RTrack) (linPoint : Matrix) : RTrack :=
  {| parametersAtPCA := msub (parametersAtPCA t) (mmul (positionJacobian t) linPoint);
     covarianceAtPCA := covarianceAtPCA t;
     positionJacobian := positionJacobian t;
     momentumJacobian := momentumJacobian t |}.

Definition rsetup (maxIter : Z) : Setup RTrack RTrack :=
  {| maxIterations := maxIter;
     extractParameters := fun t => t;
     parameters := fun t => parametersAtPCA t;
     linearizeTrack := rlinearFactory;
     inverse5 := rdiagInverse;
     inverse3 := eigenInverse3;
     defaultFitQuality := (0%R, 0%Z) |}.

Definition rEmom : Matrix := map (map IZR) [[0;0;0];[0;0;0];[1;0;0];[0;1;0];[0;0;1]]%Z.
Definition rDx : Matrix := map (map IZR) [[1;0;0];[0;0;1];[0;0;0];[0;0;0];[0;0;0]]%Z.
Definition rDy : Matrix := map (map IZR) [[0;1;0];[0;0;1];[0;0;0];[0;0;0];[0;0;0]]%Z.

Definition rtrackA : RTrack :=
  {| parametersAtPCA := vec (map IZR [2;1;0;1;1]%Z);
     covarianceAtPCA := rdiag (map IZR [1;1;1;1;1]%Z);
     positionJacobian := rDx;
     momentumJacobian := rEmom |}.

Definition rtrackB : RTrack :=
  {| parametersAtPCA := vec (map IZR [3;-1;1;1;1]%Z);
     covarianceAtPCA := rdiag (map IZR [1;2;1;1;1]%Z);
     positionJacobian := rDy;
     momentumJacobian := rEmom |}.

Definition rnoConstraint : Vertex RTrack := Vertex_default (rsetup 0).

End RealExamples.

(** ** Interpretation 3: the doubles of the machine

    IEEE 754 binary64 as the kernel computes it: round to nearest even,
    overflow to infinity, signed zeros, NaN. *)

Module F64.

Definition float : Type := PrimFloat.float.

(** An integer literal; exact below 2^53 in absolute value. *)
Definition fofZ (z : Z) : float :=
  match z with
  | Z0 => PrimFloat.zero
  | Zpos _ => PrimFloat.of_uint63 (Uint63Axioms.of_Z z)
  | Zneg _ => PrimFloat.opp (PrimFloat.of_uint63 (Uint63Axioms.of_Z (- z)))
  end.

(** [m * 2^e] *)
Definition scaled (m e : Z) : float := FloatOps.Z.ldexp (fofZ m) e.

(** The remainder of [r / b] for [0 <= b], [0 <= r], both finite: the
    largest [b * 2^k] not above [r] is taken off until [r < b]; every
    difference is exact. *)
Fixpoint freduce (fuel : nat) (r b : float) : float :=
  match fuel with
  | O => r
  | S fuel' =>
      if PrimFloat.ltb r b then r
      else
        let k := (snd (FloatOps.Z.frexp r) - snd (FloatOps.Z.frexp b))%Z in
        let t := FloatOps.Z.ldexp b k in
        let t := if PrimFloat.ltb r t then FloatOps.Z.ldexp b (k - 1) else t in
        freduce fuel' (PrimFloat.sub r t) b
  end.

(** [std::fmod]: the exact remainder of [x / y] with the sign of [x]. *)
Definition ffmod (x y : float) : float :=
  if PrimFloat.is_nan x || PrimFloat.is_nan y || PrimFloat.is_infinity x || PrimFloat.is_zero y
  then PrimFloat.nan
  else if PrimFloat.is_infinity y then x
  else
    let r := freduce 2200 (PrimFloat.abs x) (PrimFloat.abs y) in
    if PrimFloat.ltb x PrimFloat.zero || PrimFloat.eqb (PrimFloat.div PrimFloat.one x) PrimFloat.neg_infinity
    then PrimFloat.opp r else r.

Definition fneqb (x y : float) : bool := negb (PrimFloat.eqb x y).

(** M_PI = 0x1.921fb54442d18p+1 and DBL_MAX = 0x1.fffffffffffffp+1023. *)
Definition fM_PI : float := scaled 884279719003555 (-48).
Definition fDBL_MAX : float := scaled (2 ^ 53 - 1) 971.

#[export] Instance float_Scalar : Scalar float := {
  ofZ := fofZ;
  add := PrimFloat.add; sub := PrimFloat.sub; mul := PrimFloat.mul; div := PrimFloat.div;
  opp := PrimFloat.opp;
  fabs := PrimFloat.abs; fmod := ffmod; ltb := PrimFloat.ltb; neqb := fneqb;
  M_PI := fM_PI; DBL_MAX := fDBL_MAX
}.

End F64.


(** ** A call on machine doubles *)

Module F64Examples.
Import F64.












End F64Examples.

(** * Acts::HomogeneousSurfaceMaterial

    Source: Core/src/Material/HomogeneousSurfaceMaterial.cpp.

    An object owns its [MaterialProperties] through a raw pointer.  The
    model keeps the free store of [MaterialProperties] objects and the
    [HomogeneousSurfaceMaterial] objects by address; an operation that
    reads or deletes through a pointer to no live object has no result. *)

Module SurfaceMaterial.

(** The texts that [dump] writes. *)
Module Text.
Import String.
Definition header : string := "Acts::HomogeneousSurfaceMaterial : "%string.
Definition fullMaterialLabel : string := "   - fullMaterial         : "%string.
Definition splitFactorLabel : string := "   - split factor         : "%string.
Definition endl : string := String (Ascii.ascii_of_nat 10) EmptyString.
End Text.

Section Model.
(** [Acts::MaterialProperties] and [double]; [MaterialProperties::operator*=]
    and the split factor set by [SurfaceMaterial()] are declared outside
    this file. *)
Variables MP D : Type.
Variable scaleMP : MP -> D -> MP.
Variable defaultSplitFactor : D.
(** [operator<<] for a [MaterialProperties] and for a [double]. *)
Variable showMP : MP -> String.string.
Variable showDouble : D -> String.string.

Definition Addr : Type := nat.

Definition upd {A : Type} (f : Addr -> option A) (k : Addr) (v : option A) : Addr -> option A :=
  fun x => if (x =? k)%nat then v else f x.

(** The object: [m_fullMaterial] (null or an address) and, from the base
    class, [m_splitFactor]. *)
Record Object : Type := {
  m_fullMaterial : option Addr;
  m_splitFactor : D
}.

Record State : Type := {
  cell : Addr -> option MP;      (* the live MaterialProperties objects *)
  brk : Addr;                    (* the next address [new] hands out *)
  objs : Addr -> option Object   (* the live HomogeneousSurfaceMaterial objects *)
}.

(** [new MaterialProperties(v)] *)
Definition new (st : State) (v : MP) : Addr * State :=
  (brk st, {| cell := upd (cell st) (brk st) (Some v); brk := S (brk st); objs := objs st |}).

(** [delete p]: nothing for the null pointer; no result when [p] points to
    no live object. *)
Definition delete (st : State) (p : option Addr) : option State :=
  match p with
  | None => Some st
  | Some a =>
      match cell st a with
      | Some _ => Some {| cell := upd (cell st) a None; brk := brk st; objs := objs st |}
      | None => None
      end
  end.

(** [p ? p->clone() : nullptr], where [clone()] allocates a copy of the
    object with [new]. *)
Definition cloneOrNull (st : State) (p : option Addr) : option (option Addr * State) :=
  match p with
  | None => Some (None, st)
  | Some a =>
      match cell st a with
      | Some v => let '(a', st') := new st v in Some (Some a', st')
      | None => None
      end
  end.

Definition setObject (st : State) (this : Addr) (o : option Object) : State :=
  {| cell := cell st; brk := brk st; objs := upd (objs st) this o |}.

(** [HomogeneousSurfaceMaterial()] (lines 16-19) *)
Definition construct_default (this : Addr) (st : State) : option State :=
  Some (setObject st this
          (Some {| m_fullMaterial := None; m_splitFactor := defaultSplitFactor |})).

(** [HomogeneousSurfaceMaterial(full, splitFactor)] (lines 21-25) *)
Definition construct (this : Addr) (full : MP) (splitFactor : D) (st : State) : option State :=
  let '(a, st') := new st full in
  Some (setObject st' this (Some {| m_fullMaterial := Some a; m_splitFactor := splitFactor |})).

(** The copy constructor (lines 27-30) *)
Definition construct_copy (this lmp : Addr) (st : State) : option State :=
  match objs st lmp with
  | None => None
  | Some l =>
      match cloneOrNull st (m_fullMaterial l) with
      | None => None
      | Some (p, st') =>
          Some (setObject st' this
                  (Some {| m_fullMaterial := p; m_splitFactor := m_splitFactor l |}))
      end
  end.

(** The destructor (lines 32-35) *)
Definition destroy (this : Addr) (st : State) : option State :=
  match objs st this with
  | None => None
  | Some o =>
      match delete st (m_fullMaterial o) with
      | None => None
      | Some st' => Some (setObject st' this None)
      end
  end.

(** [operator=] (lines 38-48) *)
Definition assign (this lmp : Addr) (st : State) : option State :=
  match objs st this, objs st lmp with
  | Some o, Some _ =>
      if negb (this =? lmp)%nat then
        match delete st (m_fullMaterial o) with
        | None => None
        | Some st1 =>
            match objs st1 lmp with
            | None => None
            | Some l =>
                match cloneOrNull st1 (m_fullMaterial l) with
                | None => None
                | Some (p, st2) =>
                    Some (setObject st2 this
                            (Some {| m_fullMaterial := p; m_splitFactor := m_splitFactor l |}))
                end
            end
        end
      else Some st
  | _, _ => None
  end.

(** [operator*=] (lines 50-57) *)
Definition scale (this : Addr) (s : D) (st : State) : option State :=
  match objs st this with
  | None => None
  | Some o =>
      match m_fullMaterial o with
      | None => Some st
      | Some a =>
          match cell st a with
          | None => None
          | Some v =>
              Some {| cell := upd (cell st) a (Some (scaleMP v s));
                      brk := brk st; objs := objs st |}
          end
      end
  end.

(** [dump] (lines 59-67): what is written to the stream, piece by piece. *)
Definition dump (this : Addr) (sl : list String.string) (st : State)
  : option (list String.string) :=
  match objs st this with
  | None => None
  | Some o =>
      let sl := sl ++ [Text.header; Text.endl] in
      let sl :=
        match m_fullMaterial o with
        | None => Some sl
        | Some a =>
            match cell st a with
            | None => None
            | Some v => Some (sl ++ [Text.fullMaterialLabel; showMP v; Text.endl])
            end
        end in
      match sl with
      | None => None
      | Some sl =>
          Some (sl ++ [Text.splitFactorLabel; showDouble (m_splitFactor o); Text.endl])
      end
  end.

(** The operations on objects, to speak about sequences of them. *)
Inductive Op : Type :=
| OpDefault (this : Addr)
| OpConstruct (this : Addr) (full : MP) (splitFactor : D)
| OpCopy (this lmp : Addr)
| OpDestroy (this : Addr)
| OpAssign (this lmp : Addr)
| OpScale (this : Addr) (s : D)
| OpDump (this : Addr).

Definition step (op : Op) (st : State) : option State :=
  match op with
  | OpDefault this => construct_default this st
  | OpConstruct this full sf => construct this full sf st
  | OpCopy this lmp => construct_copy this lmp st
  | OpDestroy this => destroy this st
  | OpAssign this lmp => assign this lmp st
  | OpScale this s => scale this s st
  | OpDump this => match dump this [] st with Some _ => Some st | None => None end
  end.

(** What the language asks of the caller: a constructor runs on storage
    that holds no object, everything else on live objects. *)
Definition enabled (op : Op) (st : State) : Prop :=
  match op with
  | OpDefault this | OpConstruct this _ _ => objs st this = None
  | OpCopy this lmp => objs st this = None /\ objs st lmp <> None
  | OpDestroy this | OpScale this _ | OpDump this => objs st this <> None
  | OpAssign this lmp => objs st this <> None /\ objs st lmp <> None
  end.

Fixpoint run (ops : list Op) (st : State) : option State :=
  match ops with
  | [] => Some st
  | op :: rest => match step op st with Some st' => run rest st' | None => None end
  end.

(** A sequence of operations each of which is [enabled] in the state it
    is run in. *)
Fixpoint admissible (ops : list Op) (st : State) : Prop :=
  match ops with
  | [] => True
  | op :: rest =>
      enabled op st /\
      match step op st with Some st' => admissible rest st' | None => True end
  end.

(** Ownership: the material of a live object is live, no two live objects
    share one, every live material belongs to a live object, and live
    addresses lie below [brk]. *)
Record owned (st : State) : Prop := {
  owned_live : forall o h a,
      objs st o = Some h -> m_fullMaterial h = Some a -> cell st a <> None;
  owned_unique : forall o1 o2 h1 h2 a,
      objs st o1 = Some h1 -> objs st o2 = Some h2 ->
      m_fullMaterial h1 = Some a -> m_fullMaterial h2 = Some a -> o1 = o2;
  owned_no_leak : forall a,
      cell st a <> None ->
      exists o h, objs st o = Some h /\ m_fullMaterial h = Some a;
  owned_below : forall a, cell st a <> None -> (a < brk st)%nat
}.

(** The material an object holds, if it holds one. *)
Definition materialOf (st : State) (o : Addr) : option MP :=
  match objs st o with
  | Some h => match m_fullMaterial h with Some a => cell st a | None => None end
  | None => None
  end.

Definition emptyState : State :=
  {| cell := fun _ => None; brk := 0%nat; objs := fun _ => None |}.

End Model.
End SurfaceMaterial.

(** ** Concrete heaps *)

Module SurfaceMaterialExamples.
Import SurfaceMaterial.

(** Materials and split factors are integers, scaling multiplies. *)
Definition show (_ : Z) : String.string := String.EmptyString.

(** One object at address 0, holding the material 5. *)
Definition one : State Z Z :=
  {| cell := upd (fun _ => None) 0%nat (Some 5%Z);
     brk := 1%nat;
     objs := upd (fun _ => None) 0%nat
                 (Some {| m_fullMaterial := Some 0%nat; m_splitFactor := 1%Z |}) |}.

(** A second object at address 1, holding the material 7. *)
Definition two : State Z Z :=
  {| cell := upd (cell one) 1%nat (Some 7%Z);
     brk := 2%nat;
     objs := upd (objs one) 1%nat
                 (Some {| m_fullMaterial := Some 1%nat; m_splitFactor := 2%Z |}) |}.

Definition program : list (Op Z Z) :=
  [@OpConstruct Z Z 0%nat 5%Z 1%Z; @OpCopy Z Z 1%nat 0%nat; @OpScale Z Z 1%nat 2%Z;
   @OpAssign Z Z 0%nat 1%nat; @OpDump Z Z 0%nat; @OpDefault Z Z 2%nat;
   @OpAssign Z Z 1%nat 2%nat; @OpDestroy Z Z 0%nat; @OpDestroy Z Z 1%nat;
   @OpDestroy Z Z 2%nat].

End SurfaceMaterialExamples.

(** * IntegrationTests/PropagationTestHelper.hpp

    [double] is read as a real number; [std::abs], [std::fmod], [cos],
    [sin] and [tan] are the functions of the reals. *)

Module PropagationTestHelper.
Import RealScalar.
Local Open Scope R_scope.

(** [std::atan2], from its definition in the C standard: the principal
    value of the arc tangent of [y / x], in the quadrant given by the signs
    of both. *)
Definition atan2 (y x : R) : R :=
  if Rlt_dec 0 x then atan (y / x)
  else if Rlt_dec x 0 then
    if Rle_dec 0 y then atan (y / x) + PI else atan (y / x) - PI
  else if Rlt_dec 0 y then PI / 2
  else if Rlt_dec y 0 then - (PI / 2)
  else 0.

(** The sense of rotation: 1 when [q * Bz < 0], -1 otherwise. *)
Definition curl (q B : R) : R := if Rltb (q * B) 0 then 1 else -1.

Section ConstantField.

(** [units::Nat2SI<units::MOMENTUM>] and [units::_m], of Units.hpp. *)
Variable Nat2SI_MOMENTUM : R -> R.
Variable units_m : R.

(** The locals of [constant_field_propagation] that do not depend on the
    propagator. *)
Record Expectation : Type := {
  px : R; py : R; pz : R;
  r : R; turns : R;
  exp_phi : R; exp_z : R;
  xc : R; yc : R; phi0 : R;
  exp_x : R; exp_y : R
}.

(** [constant_field_propagation] (lines 43-122), the start momentum and
    the expected end parameters.  Division is the total division of the
    reals: where the source divides by zero ([q * Bz = 0], [r = 0],
    [tan(theta) = 0], [pT = 0]) and goes on with an infinity or NaN, the
    model does not follow it; each property below excludes by hypothesis
    the divisions by zero that the values it speaks of depend on. *)
Definition constant_field_propagation (pT phi theta charge Bz : R) : Expectation :=
  let max_path_length := 5 * units_m in
  let x := 0 in
  let y := 0 in
  let z := 0 in
  let px := pT * cos phi in
  let py := pT * sin phi in
  let pz := pT / tan theta in
  let q := charge in
  let r := Rabs (Nat2SI_MOMENTUM pT / (q * Bz)) in
  let turns := max_path_length / (2 * PI * r) * sin theta in
  let turns := if Rltb (q * Bz) 0 then turns else - turns in
  let exp_phi := Rfmod (phi + turns * 2 * PI) (2 * PI) in
  let exp_phi := if Rltb exp_phi (- PI) then exp_phi + 2 * PI else exp_phi in
  let exp_phi := if Rltb PI exp_phi then exp_phi - 2 * PI else exp_phi in
  let exp_z := z + pz / pT * 2 * PI * r * Rabs turns in
  let dx := r * cos (PI / 2 - phi) in
  let dy := r * sin (PI / 2 - phi) in
  let '(xc, yc) := if Rltb (q * Bz) 0 then (x - dx, y + dy) else (x + dx, y - dy) in
  let phi0 := atan2 (y - yc) (x - xc) in
  let exp_x := xc + r * cos (phi0 + turns * 2 * PI) in
  let exp_y := yc + r * sin (phi0 + turns * 2 * PI) in
  {| px := px; py := py; pz := pz; r := r; turns := turns;
     exp_phi := exp_phi; exp_z := exp_z; xc := xc; yc := yc; phi0 := phi0;
     exp_x := exp_x; exp_y := exp_y |}.

End ConstantField.
End PropagationTestHelper.
(** * Properties of [fit] *)

(** ** Machine integers *)

Lemma to_uint32_small (z : Z) : (0 <= z < 2 ^ 32)%Z -> to_uint32 z = z.
Proof. intros Hz. unfold to_uint32. now apply Z.mod_small. Qed.

Lemma to_int32_small (z : Z) : (- 2 ^ 31 <= z < 2 ^ 31)%Z -> to_int32 z = z.
Proof.
  intros Hz. unfold to_int32.
  rewrite Z.mod_small; lia.
Qed.

(** ** The loop, for every interpretation of the scalars *)

Section FitterFacts.
Context {T : Type} `{Scalar T}.
Variables InputTrack TrackParams : Type.
Variable cfg : Setup (T:=T) InputTrack TrackParams.
Variable paramVector : list InputTrack.
Variable constraint : Vertex (T:=T) InputTrack.

Local Abbreviation stateAt := (stateAfter cfg paramVector constraint).
Local Abbreviation body := (iterationBody cfg paramVector constraint).
Local Abbreviation roundOf := (runIteration cfg paramVector constraint).

Lemma stateAfter_S (k : nat) : stateAt (S k) = body (stateAt k).
Proof. reflexivity. Qed.

Lemma nIter_stateAfter (k : nat) : nIter (stateAt k) = Z.of_nat k.
Proof.
  induction k as [|k IH].
  - reflexivity.
  - rewrite stateAfter_S. unfold iterationBody, commit. cbn [nIter].
    rewrite IH. lia.
Qed.

(** The loop over the tracks calls the factory once per track, in order,
    each time at the current linearization point. *)
Lemma trackLoop_calls (n : Z) (lp : Matrix) (l : list InputTrack)
      (s : TrackLoop InputTrack TrackParams) :
  tl_calls (fold_left (trackStep cfg n lp) l s)
  = tl_calls s ++ map (fun t => (extractParameters cfg t, lp)) l.
Proof.
  revert s. induction l as [|t l IH]; intros s; cbn [fold_left map].
  - now rewrite app_nil_r.
  - rewrite IH. unfold trackStep. cbn [tl_calls].
    now rewrite <- app_assoc.
Qed.

Lemma linCalls_stateAfter_S (k : nat) :
  linCalls (stateAt (S k))
  = linCalls (stateAt k)
    ++ map (fun t => (extractParameters cfg t, linPoint (stateAt k))) paramVector.
Proof.
  rewrite stateAfter_S. unfold iterationBody, commit. cbn [linCalls].
  unfold runIteration. cbn [it_calls]. unfold trackLoopOf.
  now rewrite trackLoop_calls.
Qed.

Lemma linCalls_length (k : nat) :
  length (linCalls (stateAt k)) = (k * length paramVector)%nat.
Proof.
  induction k as [|k IH].
  - reflexivity.
  - rewrite linCalls_stateAfter_S, length_app, length_map, IH. lia.
Qed.

(** The fitted vertex and the best chi-square after [k] rounds are those of
    the last round whose test at line 324 succeeded. *)
Lemma fittedVertex_stateAfter (k : nat) :
  fittedVertex (stateAt k)
  = match bestRound cfg paramVector constraint k with
    | Some j => vertexOfRound cfg paramVector constraint j
    | None => Vertex_default cfg
    end.
Proof.
  induction k as [|k IH].
  - reflexivity.
  - cbn [bestRound]. rewrite stateAfter_S.
    unfold iterationBody, commit. cbn [fittedVertex].
    unfold improvedAt, newChi2At.
    destruct (ltb _ _); [reflexivity | exact IH].
Qed.


Lemma bestRound_lt (k j : nat) :
  bestRound cfg paramVector constraint k = Some j ->
  (j < k)%nat /\ improvedAt cfg paramVector constraint j = true.
Proof.
  induction k as [|k IH]; cbn [bestRound]; [discriminate|].
  destruct (improvedAt _ _ _ k) eqn:E.
  - intros [= <-]. split; [lia | exact E].
  - intros Hj. destruct (IH Hj). split; [lia | assumption].
Qed.

Lemma nTracks_small :
  (Z.of_nat (length paramVector) < 2 ^ 32)%Z ->
  nTracks paramVector = Z.of_nat (length paramVector).
Proof.
  intros Hn. unfold nTracks, nTracksOf. apply to_uint32_small. lia.
Qed.

Lemma fit_nonzero :
  nTracks paramVector <> 0%Z ->
  fitRun cfg paramVector constraint
  = {| run_vertex := fittedVertex (fitLoop cfg paramVector constraint);
       run_calls := linCalls (fitLoop cfg paramVector constraint);
       run_rounds := nIter (fitLoop cfg paramVector constraint) |}.
Proof.
  intros Hn. unfold fitRun.
  destruct (Z.eqb_spec (nTracks paramVector) 0); [contradiction | reflexivity].
Qed.

(** C5. A call with no track runs no round of the loop, never calls the
    linearization factory, and returns the vertex at (0,0,0) with the zero
    covariance and no refitted track. *)
Theorem C5_fit_without_tracks :
  let r := fitRun cfg [] constraint in
  position (run_vertex r) = vec [ofZ 0; ofZ 0; ofZ 0]
  /\ covariance (run_vertex r) = mzero 3 3
  /\ tracksAtVertex (run_vertex r) = []
  /\ run_calls r = []
  /\ run_rounds r = 0%Z
  /\ fit cfg [] constraint = run_vertex r.
Proof.
  cbv zeta. unfold fit, fitRun, nTracks, nTracksOf, to_uint32.
  cbn [length Z.of_nat]. rewrite Z.mod_0_l by lia. cbn.
  repeat split.
Qed.

(** C6 (amended). With at least one and fewer than 2^31 tracks (the count
    then fits the unsigned int [nTracks] and the int [iTrack], and the
    vectors sized by [nTracks] hold one entry per track) and a maxIterations
    that is not negative, the loop runs exactly maxIterations rounds, each
    of which linearizes every track once at the linearization point of that
    round: nothing ends the loop early. *)
Theorem C6_loop_runs_full_budget :
  (0 < Z.of_nat (length paramVector) < 2 ^ 31)%Z ->
  (0 <= maxIterations cfg)%Z ->
  let r := fitRun cfg paramVector constraint in
  nTracks paramVector = Z.of_nat (length paramVector)
  /\ run_rounds r = maxIterations cfg
  /\ Z.of_nat (length (run_calls r))
     = (maxIterations cfg * Z.of_nat (length paramVector))%Z
  /\ (forall k, (k < Z.to_nat (maxIterations cfg))%nat ->
        firstn (length paramVector)
               (skipn (k * length paramVector) (run_calls r))
        = map (fun t => (extractParameters cfg t,
                         linPoint (stateAfter cfg paramVector constraint k)))
              paramVector).
Proof.
  intros Hsize Hm r.
  assert (Hsz : nTracks paramVector = Z.of_nat (length paramVector))
    by (apply nTracks_small; lia).
  assert (Hn : nTracks paramVector <> 0%Z) by lia.
  split; [exact Hsz|].
  subst r. rewrite (fit_nonzero Hn).
  cbn [run_rounds run_calls]. unfold fitLoop.
  split; [|split].
  - rewrite nIter_stateAfter. lia.
  - rewrite linCalls_length. lia.
  - intros k Hk.
    remember (Z.to_nat (maxIterations cfg)) as m eqn:Em. clear Em Hm.
    induction m as [|m IH]; [lia|].
    rewrite linCalls_stateAfter_S.
    destruct (Nat.eq_dec k m) as [->|Hne].
    + rewrite skipn_app, linCalls_length, Nat.sub_diag.
      rewrite skipn_all2 by (rewrite linCalls_length; lia).
      cbn [skipn app].
      rewrite <- (length_map (fun t => (extractParameters cfg t, linPoint (stateAt m)))
                             paramVector) at 1.
      apply firstn_all.
    + assert (Hlt : (k < m)%nat) by lia.
      rewrite skipn_app, firstn_app.
      assert (Hlen : (length paramVector
                      <= length (skipn (k * length paramVector) (linCalls (stateAt m))))%nat).
      { rewrite length_skipn, linCalls_length. nia. }
      replace (length paramVector
               - length (skipn (k * length paramVector) (linCalls (stateAt m))))%nat
        with 0%nat by lia.
      cbn [firstn]. rewrite app_nil_r. exact (IH Hlt).
Qed.

(** C4 (amended). With n tracks, 1 <= n < 2^30, ndf is 1 for n = 1 and
    2n - 3 otherwise, plus 3 exactly when the trace of the constraint
    covariance is not zero; a vertex written by the loop reports this ndf. *)
Theorem C4_degrees_of_freedom :
  (1 <= Z.of_nat (length paramVector) < 2 ^ 30)%Z ->
  ndf paramVector constraint
  = ((if (Z.of_nat (length paramVector) =? 1)%Z then 1
      else 2 * Z.of_nat (length paramVector) - 3)
     + (if neqb (trace (covariance constraint)) (ofZ 0) then 3 else 0))%Z
  /\ (forall j,
        bestRound cfg paramVector constraint (Z.to_nat (maxIterations cfg)) = Some j ->
        snd (fitQuality (fit cfg paramVector constraint))
        = ndf paramVector constraint).
Proof.
  intros Hn. split.
  - unfold ndf, ndfOf, isConstraintFit, isConstraintFitOf, nTracksOf.
    rewrite (to_uint32_small (z := Z.of_nat (length paramVector))) by lia.
    destruct (Z.eqb_spec (Z.of_nat (length paramVector)) 1) as [E|E].
    + rewrite E. cbn. destruct (neqb _ _); reflexivity.
    + destruct (Z.ltb_spec (Z.of_nat (length paramVector)) 2); [lia|].
      rewrite to_uint32_small by lia.
      rewrite (to_int32_small (z := (2 * Z.of_nat (length paramVector) - 3)%Z)) by lia.
      destruct (neqb _ _); [apply to_int32_small; lia | lia].
  - intros j Hj. unfold fit. rewrite fit_nonzero.
    + cbn [run_vertex]. unfold fitLoop. rewrite fittedVertex_stateAfter, Hj.
      reflexivity.
    + rewrite nTracks_small; lia.
Qed.

End FitterFacts.

(** ** Keep-best *)

Section KeepBest.
Context {T : Type} `{Scalar T}.
Variables InputTrack TrackParams : Type.
Variable cfg : Setup (T:=T) InputTrack TrackParams.
Variable paramVector : list InputTrack.
Variable constraint : Vertex (T:=T) InputTrack.

(** [<] on doubles is transitive and irreflexive, NaN included. *)
Hypothesis ltb_trans : forall a b c : T, ltb a b = true -> ltb b c = true -> ltb a c = true.
Hypothesis ltb_irrefl : forall a : T, ltb a a = false.

Local Abbreviation stateAt := (stateAfter cfg paramVector constraint).
Local Abbreviation chi2At := (newChi2At cfg paramVector constraint).
Local Abbreviation best := (bestRound cfg paramVector constraint).




End KeepBest.

(** ** The two loops over the tracks *)

Lemma length_setNth {A : Type} (i : nat) (x : A) (l : list A) :
  length (setNth i x l) = length l.
Proof.
  revert i. induction l as [|y l IH]; intros [|i]; cbn; auto.
Qed.

Lemma nth_setNth_same {A : Type} (i : nat) (x d : A) (l : list A) :
  (i < length l)%nat -> nth i (setNth i x l) d = x.
Proof.
  revert i. induction l as [|y l IH]; intros [|i] Hi; cbn in *; try lia; auto.
  apply IH. lia.
Qed.

Lemma nth_setNth_other {A : Type} (i j : nat) (x d : A) (l : list A) :
  i <> j -> nth j (setNth i x l) d = nth j l d.
Proof.
  revert i j. induction l as [|y l IH]; intros [|i] [|j] Hij; cbn; try easy.
  apply IH. lia.
Qed.

Section LoopFacts.
Context {T : Type} `{Scalar T}.
Variables InputTrack TrackParams : Type.
Variable cfg : Setup (T:=T) InputTrack TrackParams.

Local Abbreviation BTrack := (BilloirTrack (T:=T) InputTrack).

(** *** The loop that linearizes *)

Lemma trackLoop_originals (n : Z) (lp : Matrix) (l : list InputTrack)
      (s : TrackLoop InputTrack TrackParams) :
  map (fun b : BTrack => originalTrack b) (tl_billoirTracks (fold_left (trackStep cfg n lp) l s))
  = map (fun b : BTrack => originalTrack b) (tl_billoirTracks s) ++ l.
Proof.
  revert s. induction l as [|t l IH]; intros s; cbn [fold_left].
  - now rewrite app_nil_r.
  - rewrite IH. unfold trackStep. cbn [tl_billoirTracks].
    rewrite map_app. cbn [map originalTrack]. now rewrite <- app_assoc.
Qed.

Lemma trackLoop_momenta_length (n : Z) (lp : Matrix) (l : list InputTrack)
      (s : TrackLoop InputTrack TrackParams) :
  length (tl_trackMomenta (fold_left (trackStep cfg n lp) l s))
  = (length (tl_trackMomenta s) + (if (n =? 0)%Z then length l else 0))%nat.
Proof.
  revert s. induction l as [|t l IH]; intros s; cbn [fold_left].
  - destruct (n =? 0)%Z; cbn; lia.
  - rewrite IH. unfold trackStep. cbn [tl_trackMomenta].
    destruct (n =? 0)%Z; [rewrite length_app|]; cbn; lia.
Qed.

(** After the loop the storage of [linTrack] holds the linearization of the
    last track. *)
Lemma trackLoop_frame (n : Z) (lp : Matrix) (l : list InputTrack) (t : InputTrack)
      (s : TrackLoop InputTrack TrackParams) :
  tl_frame (fold_left (trackStep cfg n lp) (l ++ [t]) s)
  = Some (linearizeTrack cfg (extractParameters cfg t) lp).
Proof.
  rewrite fold_left_app. reflexivity.
Qed.

Lemma trackLoop_cached (n : Z) (lp : Matrix) (l : list InputTrack)
      (s : TrackLoop InputTrack TrackParams) :
  Forall (cachedFrom cfg lp) (tl_billoirTracks s) ->
  Forall (cachedFrom cfg lp) (tl_billoirTracks (fold_left (trackStep cfg n lp) l s)).
Proof.
  revert s. induction l as [|t l IH]; intros s Hs; cbn [fold_left]; [exact Hs|].
  apply IH. unfold trackStep. cbn [tl_billoirTracks].
  apply Forall_app. split; [exact Hs|].
  constructor; [|constructor].
  unfold cachedFrom. cbn. repeat split.
Qed.

(** *** The loop that updates the momenta *)

Section Momentum.
Variable frame : Frame (T:=T).
Variables covDeltaVmat deltaV : Matrix (T:=T).

Local Abbreviation step := (momentumStep cfg frame covDeltaVmat deltaV).
Local Abbreviation scored :=
  (fun b : BTrack => setChi2 b (trackChi2 cfg frame deltaV b)).

Lemma momentumLoop_tracks (l : list BTrack) (s : MomentumLoop InputTrack) :
  ml_billoirTracks (fold_left step l s) = ml_billoirTracks s ++ map scored l.
Proof.
  revert s. induction l as [|b l IH]; intros s; cbn [fold_left map].
  - now rewrite app_nil_r.
  - rewrite IH. unfold momentumStep. cbn [ml_billoirTracks].
    now rewrite <- app_assoc.
Qed.

Lemma momentumLoop_chi2 (l : list BTrack) (s : MomentumLoop InputTrack) :
  ml_newChi2 (fold_left step l s)
  = fold_left (fun acc b => add acc (trackChi2 cfg frame deltaV b)) l (ml_newChi2 s).
Proof.
  revert s. induction l as [|b l IH]; intros s; cbn [fold_left]; [reflexivity|].
  rewrite IH. reflexivity.
Qed.

Lemma momentumLoop_index (l : list BTrack) (s : MomentumLoop InputTrack) :
  ml_iTrack (fold_left step l s) = (ml_iTrack s + length l)%nat.
Proof.
  revert s. induction l as [|b l IH]; intros s; cbn [fold_left length]; [lia|].
  rewrite IH. unfold momentumStep. cbn [ml_iTrack]. lia.
Qed.

Lemma momentumLoop_lengths (l : list BTrack) (s : MomentumLoop InputTrack) :
  length (ml_trackMomenta (fold_left step l s)) = length (ml_trackMomenta s)
  /\ length (ml_covDeltaPmat (fold_left step l s)) = length (ml_covDeltaPmat s).
Proof.
  revert s. induction l as [|b l IH]; intros s; cbn [fold_left]; [split; reflexivity|].
  destruct (IH (step s b)) as [H1 H2]. rewrite H1, H2.
  unfold momentumStep. cbn [ml_trackMomenta ml_covDeltaPmat].
  now rewrite !length_setNth.
Qed.

(** Entries below the current index are not written again. *)
Lemma momentumLoop_below (l : list BTrack) (s : MomentumLoop InputTrack) (i : nat) :
  (i < ml_iTrack s)%nat ->
  nth i (ml_trackMomenta (fold_left step l s)) [] = nth i (ml_trackMomenta s) []
  /\ nth i (ml_covDeltaPmat (fold_left step l s)) None = nth i (ml_covDeltaPmat s) None.
Proof.
  revert s. induction l as [|b l IH]; intros s Hi; cbn [fold_left]; [split; reflexivity|].
  destruct (IH (step s b)) as [H1 H2].
  { unfold momentumStep. cbn [ml_iTrack]. lia. }
  rewrite H1, H2. unfold momentumStep. cbn [ml_trackMomenta ml_covDeltaPmat].
  split; apply nth_setNth_other; lia.
Qed.

(** The entry of the [i]-th track holds its updated momentum and its
    refit covariance. *)
Lemma momentumLoop_entry (l : list BTrack) (s : MomentumLoop InputTrack)
      (i : nat) (b : BTrack) :
  nth_error l i = Some b ->
  ((ml_iTrack s + i < length (ml_trackMomenta s))%nat ->
   nth (ml_iTrack s + i) (ml_trackMomenta (fold_left step l s)) []
   = updateMomentum (nth (ml_iTrack s + i) (ml_trackMomenta s) []) (deltaPOf deltaV b))
  /\ ((ml_iTrack s + i < length (ml_covDeltaPmat s))%nat ->
      nth (ml_iTrack s + i) (ml_covDeltaPmat (fold_left step l s)) None
      = Some (covDeltaPOf covDeltaVmat b)).
Proof.
  revert s i. induction l as [|b' l IH]; intros s i Hb; [destruct i; discriminate|].
  cbn [fold_left]. destruct i as [|i].
  - injection Hb as ->. rewrite Nat.add_0_r.
    destruct (momentumLoop_below l (step s b) (i := ml_iTrack s)) as [H1 H2].
    { unfold momentumStep. cbn [ml_iTrack]. lia. }
    rewrite H1, H2. unfold momentumStep. cbn [ml_trackMomenta ml_covDeltaPmat].
    split; intros Hlt; now apply nth_setNth_same.
  - cbn [nth_error] in Hb.
    destruct (IH (step s b') i Hb) as [H1 H2].
    assert (Hidx : (ml_iTrack (step s b') + i = ml_iTrack s + S i)%nat).
    { unfold momentumStep. cbn [ml_iTrack]. lia. }
    rewrite Hidx in H1, H2.
    split; intros Hlt.
    + rewrite H1.
      * unfold momentumStep. cbn [ml_trackMomenta].
        rewrite nth_setNth_other by lia. reflexivity.
      * unfold momentumStep. cbn [ml_trackMomenta]. now rewrite length_setNth.
    + apply H2. unfold momentumStep. cbn [ml_covDeltaPmat]. now rewrite length_setNth.
Qed.

End Momentum.

End LoopFacts.

(** ** One round, and the vertex it writes *)

Section RoundFacts.
Context {T : Type} `{Scalar T}.
Variables InputTrack TrackParams : Type.
Variable cfg : Setup (T:=T) InputTrack TrackParams.
Variable paramVector : list InputTrack.
Variable constraint : Vertex (T:=T) InputTrack.

Local Abbreviation BTrack := (BilloirTrack (T:=T) InputTrack).
Local Abbreviation roundOf := (runIteration cfg paramVector constraint).

Lemma setChi2_cachedFrom (lp : Matrix) (b : BTrack) (c : T) :
  cachedFrom cfg lp b -> cachedFrom cfg lp (setChi2 b c).
Proof. unfold cachedFrom. cbn. tauto. Qed.

Lemma round_tracks (st : FitState InputTrack TrackParams) :
  it_billoirTracks (roundOf st)
  = map (fun b => setChi2 b (trackChi2 cfg (it_frame (roundOf st))
                                       (it_deltaV (roundOf st)) b))
        (linearized cfg paramVector st).
Proof.
  unfold runIteration. cbn [it_billoirTracks it_frame it_deltaV].
  unfold momentumLoopOf. rewrite momentumLoop_tracks. reflexivity.
Qed.

Lemma round_originals (st : FitState InputTrack TrackParams) :
  map (fun b : BTrack => originalTrack b) (it_billoirTracks (roundOf st)) = paramVector.
Proof.
  rewrite round_tracks, map_map. cbn [setChi2 originalTrack].
  unfold linearized, trackLoopOf. now rewrite trackLoop_originals.
Qed.

Lemma round_tracks_length (st : FitState InputTrack TrackParams) :
  length (it_billoirTracks (roundOf st)) = length paramVector.
Proof.
  rewrite <- (round_originals st) at 2. now rewrite length_map.
Qed.

Lemma round_cached (st : FitState InputTrack TrackParams) :
  Forall (cachedFrom cfg (linPoint st)) (it_billoirTracks (roundOf st)).
Proof.
  rewrite round_tracks. apply Forall_map.
  assert (Hl : Forall (cachedFrom cfg (linPoint st)) (linearized cfg paramVector st)).
  { unfold linearized, trackLoopOf. apply trackLoop_cached. constructor. }
  eapply Forall_impl; [|exact Hl].
  intros b Hb. now apply setChi2_cachedFrom.
Qed.

(** Every track of a round has the chi-square of lines 298-303, with the
    weight matrix read through its pointer after the first loop. *)
Lemma round_chi2 (st : FitState InputTrack TrackParams) :
  Forall (fun b : BTrack =>
            bt_chi2 b = trackChi2 cfg (it_frame (roundOf st)) (it_deltaV (roundOf st)) b)
         (it_billoirTracks (roundOf st)).
Proof.
  rewrite round_tracks. apply Forall_map, Forall_forall. intros b _. reflexivity.
Qed.

Lemma round_frame (st : FitState InputTrack TrackParams) (l : list InputTrack)
      (t : InputTrack) :
  paramVector = l ++ [t] ->
  it_frame (roundOf st)
  = Some (linearizeTrack cfg (extractParameters cfg t) (linPoint st)).
Proof.
  intros E. unfold runIteration. cbn [it_frame]. unfold trackLoopOf. rewrite E.
  apply trackLoop_frame.
Qed.

(** The loop of lines 339-353 visits the Billoir tracks in order. *)
Lemma refitLoop_list (vp : Matrix) (it : Iteration InputTrack TrackParams)
      (l : list BTrack) (acc : list (TrackAtVertex (T:=T) InputTrack)) (i0 : nat) :
  fst (fold_left (refitStep vp it) l (acc, i0))
  = acc ++ map (fun p => refitTrack vp it (fst p) (snd p)) (combine (seq i0 (length l)) l).
Proof.
  revert acc i0. induction l as [|b l IH]; intros acc i0; cbn [fold_left].
  - cbn. now rewrite app_nil_r.
  - unfold refitStep at 2. rewrite IH. cbn [length seq combine map fst snd].
    now rewrite <- app_assoc.
Qed.

Lemma nth_error_indexed {A B : Type} (f : nat * A -> B) (l : list A) (i0 i : nat) (a : A) :
  nth_error l i = Some a ->
  nth_error (map f (combine (seq i0 (length l)) l)) i = Some (f ((i0 + i)%nat, a)).
Proof.
  revert i0 i. induction l as [|x l IH]; intros i0 [|i] Hi; cbn in *; try discriminate.
  - injection Hi as ->. now rewrite Nat.add_0_r.
  - rewrite (IH (S i0) i Hi). do 3 f_equal. lia.
Qed.

Lemma materialize_tracks (vp : Matrix) (it : Iteration InputTrack TrackParams) :
  tracksAtVertex (materialize paramVector constraint vp it)
  = map (fun p => refitTrack vp it (fst p) (snd p))
        (combine (seq 0 (length (it_billoirTracks it))) (it_billoirTracks it)).
Proof.
  unfold materialize. cbn [tracksAtVertex]. now rewrite refitLoop_list.
Qed.

Lemma fold_refit_chi2 (vp : Matrix) (it : Iteration InputTrack TrackParams)
      (l : list BTrack) (i0 : nat) (a : T) :
  fold_left (fun acc t => add acc (chi2Track t))
            (map (fun p => refitTrack vp it (fst p) (snd p)) (combine (seq i0 (length l)) l)) a
  = fold_left (fun acc b => add acc (bt_chi2 b)) l a.
Proof.
  revert i0 a. induction l as [|b l IH]; intros i0 a; [reflexivity|].
  cbn [length seq combine map fold_left fst snd]. now rewrite IH.
Qed.

Lemma fold_scored (f : BTrack -> T) (l : list BTrack) (a : T) :
  fold_left (fun acc b => add acc (bt_chi2 b)) (map (fun b => setChi2 b (f b)) l) a
  = fold_left (fun acc b => add acc (f b)) l a.
Proof.
  revert a. induction l as [|b l IH]; intros a; [reflexivity|].
  cbn [map fold_left]. now rewrite IH.
Qed.

(** The total of a round is the sum of the chi-squares stored in its
    tracks, plus the term of the constraint when there is one. *)
Lemma round_total (st : FitState InputTrack TrackParams) :
  it_newChi2 (roundOf st)
  = let sum := fold_left (fun acc b => add acc (bt_chi2 b))
                         (it_billoirTracks (roundOf st)) (ofZ 0) in
    if isConstraintFit constraint
    then add sum (constraintChi2 cfg constraint (linPoint st) (it_deltaV (roundOf st)))
    else sum.
Proof.
  cbv zeta. rewrite round_tracks, fold_scored.
  unfold runIteration. cbn [it_newChi2 it_frame it_deltaV].
  unfold momentumLoopOf. rewrite momentumLoop_chi2. reflexivity.
Qed.

End RoundFacts.

Section VertexFacts.
Context {T : Type} `{Scalar T}.
Variables InputTrack TrackParams : Type.
Variable cfg : Setup (T:=T) InputTrack TrackParams.
Variable paramVector : list InputTrack.
Variable constraint : Vertex (T:=T) InputTrack.

Local Abbreviation BTrack := (BilloirTrack (T:=T) InputTrack).
Local Abbreviation roundOf := (runIteration cfg paramVector constraint).
Local Abbreviation stateAt := (stateAfter cfg paramVector constraint).

Lemma round_track_of_input (st : FitState InputTrack TrackParams) (i : nat) (t : InputTrack) :
  nth_error paramVector i = Some t ->
  exists b : BTrack,
    nth_error (it_billoirTracks (roundOf st)) i = Some b /\ originalTrack b = t.
Proof.
  intros Hi. rewrite <- (round_originals cfg paramVector constraint st) in Hi.
  rewrite nth_error_map in Hi.
  destruct (nth_error (it_billoirTracks (roundOf st)) i) as [b|]; [|discriminate].
  exists b. split; [reflexivity|]. cbn in Hi. congruence.
Qed.

(** C9. A vertex written by a round lists one refitted track per input
    track, in the order of the input: the i-th refers to the i-th input
    track, carries the chi-square computed for that track in that round,
    has both local coordinates equal to zero and lives on the perigee
    surface at the position of the vertex.  The chi-squares of the listed
    tracks add up to the chi-square of the vertex, less the term of an
    active constraint.  A vertex returned from the loop is such a vertex. *)
Theorem C9_refitted_tracks (j : nat) :
  let it := roundOf (stateAt j) in
  let v := vertexOfRound cfg paramVector constraint j in
  length (tracksAtVertex v) = length paramVector
  /\ (forall i t, nth_error paramVector i = Some t ->
        exists tav b,
          nth_error (tracksAtVertex v) i = Some tav
          /\ nth_error (it_billoirTracks it) i = Some b
          /\ originalParams tav = t
          /\ originalTrack b = t
          /\ chi2Track tav = bt_chi2 b
          /\ bt_chi2 b = trackChi2 cfg (it_frame it) (it_deltaV it) b
          /\ vget (bp_parameters (fittedParams tav)) eLOC_D0 = ofZ 0
          /\ vget (bp_parameters (fittedParams tav)) eLOC_Z0 = ofZ 0
          /\ bp_perigee (fittedParams tav) = position v)
  /\ fst (fitQuality v)
     = (let sum := fold_left (fun acc t => add acc (chi2Track t))
                             (tracksAtVertex v) (ofZ 0) in
        if isConstraintFit constraint
        then add sum (constraintChi2 cfg constraint (linPoint (stateAt j)) (it_deltaV it))
        else sum)
  /\ (nTracks paramVector <> 0%Z ->
      bestRound cfg paramVector constraint (Z.to_nat (maxIterations cfg)) = Some j ->
      fit cfg paramVector constraint = v).
Proof.
  intros it v. subst it v. split; [|split; [|split]].
  - unfold vertexOfRound. rewrite materialize_tracks.
    rewrite length_map, length_combine, length_seq, Nat.min_id.
    apply round_tracks_length.
  - intros i t Hi.
    destruct (round_track_of_input (stateAt j) _ Hi) as [b [Hb Hbt]].
    exists (refitTrack (linPoint (stateAt (S j))) (roundOf (stateAt j)) (0 + i) b), b.
    split.
    { unfold vertexOfRound. rewrite materialize_tracks.
      now apply (nth_error_indexed
                   (fun p => refitTrack (linPoint (stateAt (S j))) (roundOf (stateAt j))
                                        (fst p) (snd p))). }
    split; [exact Hb|]. split; [exact Hbt|]. split; [exact Hbt|].
    split; [reflexivity|]. split.
    { pose proof (round_chi2 cfg paramVector constraint (stateAt j)) as Hc.
      rewrite Forall_forall in Hc. apply Hc. eapply nth_error_In; eassumption. }
    repeat split.
  - cbv zeta. unfold vertexOfRound. rewrite materialize_tracks, fold_refit_chi2.
    unfold materialize. cbn [fitQuality fst].
    exact (round_total cfg paramVector constraint (stateAt j)).
  - intros Hn Hbest. unfold fit. rewrite fit_nonzero by exact Hn.
    cbn [run_vertex]. unfold fitLoop. now rewrite fittedVertex_stateAfter, Hbest.
Qed.

End VertexFacts.

(** ** The covariance of a refitted track *)

Section Covariance.
Context {T : Type} `{Scalar T}.
Variables InputTrack TrackParams : Type.
Variable cfg : Setup (T:=T) InputTrack TrackParams.
Variable paramVector : list InputTrack.
Variable constraint : Vertex (T:=T) InputTrack.

Local Abbreviation BTrack := (BilloirTrack (T:=T) InputTrack).
Local Abbreviation roundOf := (runIteration cfg paramVector constraint).
Local Abbreviation stateAt := (stateAfter cfg paramVector constraint).

Lemma transMat_entries (b : BTrack) (i j : nat) :
  (i < 5)%nat -> (j < 6)%nat ->
  get (transMatOf b) i j
  = if (i <? 2)%nat && (j <? 2)%nat then get (DiMat b) i j
    else if fixedOne i j then ofZ 1 else ofZ 0.
Proof.
  intros Hi Hj.
  destruct i as [|[|[|[|[|i]]]]]; try lia.
  all: destruct j as [|[|[|[|[|[|j]]]]]]; try lia.
  all: reflexivity.
Qed.

Lemma covMat_blocks (cov : Matrix) (b : BTrack) (i j : nat) :
  (i < 3)%nat -> (j < 3)%nat ->
  get (covMatOf cov b) i j = get cov i j
  /\ get (covMatOf cov b) i (3 + j) = get (VPmatOf cov b) i j
  /\ get (covMatOf cov b) (3 + i) j = get (transpose (VPmatOf cov b)) i j
  /\ get (covMatOf cov b) (3 + i) (3 + j) = get (PPmatOf cov b) i j.
Proof.
  intros Hi Hj.
  destruct i as [|[|[|i]]]; try lia.
  all: destruct j as [|[|[|j]]]; try lia.
  all: split; [reflexivity|].
  all: split; [reflexivity|].
  all: split; reflexivity.
Qed.

Lemma round_linearized_nth (st : FitState InputTrack TrackParams) (i : nat) (b : BTrack) :
  nth_error (it_billoirTracks (roundOf st)) i = Some b ->
  exists b0 c, nth_error (linearized cfg paramVector st) i = Some b0 /\ b = setChi2 b0 c.
Proof.
  rewrite round_tracks, nth_error_map.
  destruct (nth_error (linearized cfg paramVector st) i) as [b0|]; [|discriminate].
  cbn. intros [= <-]. eauto.
Qed.

Lemma covDeltaPOf_setChi2 (cov : Matrix) (b : BTrack) (c : T) :
  covDeltaPOf cov (setChi2 b c) = covDeltaPOf cov b.
Proof.
  unfold covDeltaPOf, transMatOf, covMatOf, VVmatOf, VPmatOf, PPmatOf.
  cbn [setChi2 DiMat GiMat CiInv BCiMat]. reflexivity.
Qed.

Lemma round_covDeltaP (st : FitState InputTrack TrackParams) (i : nat) (b : BTrack) :
  (Z.of_nat (length paramVector) < 2 ^ 32)%Z ->
  nth_error (it_billoirTracks (roundOf st)) i = Some b ->
  nth i (it_covDeltaPmat (roundOf st)) None
  = Some (covDeltaPOf (it_covDeltaVmat (roundOf st)) b).
Proof.
  intros Hn Hb.
  assert (Hi : (i < length paramVector)%nat).
  { rewrite <- (round_tracks_length cfg paramVector constraint st).
    apply nth_error_Some. congruence. }
  destruct (round_linearized_nth st i Hb) as [b0 [c [Hb0 ->]]].
  rewrite covDeltaPOf_setChi2.
  unfold runIteration. cbn [it_covDeltaPmat it_covDeltaVmat].
  unfold momentumLoopOf.
  unfold linearized in Hb0.
  match goal with
  | |- nth i (ml_covDeltaPmat (fold_left (momentumStep cfg ?fr ?cv ?dv) ?l ?s)) None = _ =>
      destruct (momentumLoop_entry cfg fr cv dv l s i Hb0) as [_ Hc]
  end.
  apply Hc. cbn [ml_iTrack ml_covDeltaPmat Nat.add].
  rewrite repeat_length, nTracks_small, Nat2Z.id by exact Hn.
  exact Hi.
Qed.

(** C8 (amended). The 5x5 covariance of a refitted track is
    [transMat * covMat * transMat^T].  [covMat] is the 6x6 matrix with the
    blocks cov(V,V) = the covariance of the position update, cov(V,P) =
    [-cov * G * C^-1], its transpose, and cov(P,P) = [C^-1 + BC^T * cov *
    BC].  [transMat] is 5x6: its upper left 2x2 block is that of the
    position Jacobian, it has the constant 1 at four places, (1,2), (2,3),
    (3,4) and (4,5), and zero elsewhere.  With fewer than 2^32 tracks the
    i-th refitted track of a vertex written by a round carries this
    covariance, computed from the covariance of that vertex. *)
Theorem C8_refit_covariance :
  (forall (cov : Matrix) (b : BTrack),
      covDeltaPOf cov b
      = mmul (mmul (transMatOf b) (covMatOf cov b)) (transpose (transMatOf b))
      /\ (forall i j, (i < 3)%nat -> (j < 3)%nat ->
            get (covMatOf cov b) i j = get cov i j
            /\ get (covMatOf cov b) i (3 + j) = get (VPmatOf cov b) i j
            /\ get (covMatOf cov b) (3 + i) j = get (transpose (VPmatOf cov b)) i j
            /\ get (covMatOf cov b) (3 + i) (3 + j) = get (PPmatOf cov b) i j)
      /\ VPmatOf cov b = mmul (mmul (mneg cov) (GiMat b)) (CiInv b)
      /\ PPmatOf cov b
         = madd (CiInv b) (mmul (mmul (transpose (BCiMat b)) cov) (BCiMat b))
      /\ (forall i j, (i < 5)%nat -> (j < 6)%nat ->
            get (transMatOf b) i j
            = if (i <? 2)%nat && (j <? 2)%nat then get (DiMat b) i j
              else if fixedOne i j then ofZ 1 else ofZ 0))
  /\ (forall (k i : nat) tav,
        (Z.of_nat (length paramVector) < 2 ^ 32)%Z ->
        nth_error (tracksAtVertex (vertexOfRound cfg paramVector constraint k)) i = Some tav ->
        exists b,
          nth_error (it_billoirTracks (roundOf (stateAt k))) i = Some b
          /\ bp_covariance (fittedParams tav)
             = Some (covDeltaPOf (covariance (vertexOfRound cfg paramVector constraint k)) b)).
Proof.
  split.
  - intros cov b. split; [reflexivity|].
    split; [apply covMat_blocks|]. split; [reflexivity|]. split; [reflexivity|].
    apply transMat_entries.
  - intros k i tav Hn Htav.
    unfold vertexOfRound in Htav. rewrite materialize_tracks in Htav.
    destruct (nth_error (it_billoirTracks (roundOf (stateAt k))) i) as [b|] eqn:Eb.
    + exists b. split; [reflexivity|].
      rewrite (nth_error_indexed _ _ 0 _ Eb) in Htav.
      injection Htav as <-. cbn [fst snd Nat.add refitTrack fittedParams bp_covariance].
      unfold vertexOfRound, materialize. cbn [covariance].
      now apply round_covDeltaP.
    + exfalso. apply nth_error_None in Eb.
      assert (Hsome : nth_error
                (map (fun p => refitTrack (linPoint (stateAt (S k))) (roundOf (stateAt k))
                                          (fst p) (snd p))
                     (combine (seq 0 (length (it_billoirTracks (roundOf (stateAt k)))))
                              (it_billoirTracks (roundOf (stateAt k))))) i <> None)
        by congruence.
      apply nth_error_Some in Hsome.
      rewrite length_map, length_combine, length_seq, Nat.min_id in Hsome. lia.
Qed.

End Covariance.

(** ** The constraint *)

Section Constraint.
Context {T : Type} `{Scalar T}.
Variables InputTrack TrackParams : Type.
Variable cfg : Setup (T:=T) InputTrack TrackParams.
Variable paramVector : list InputTrack.

Local Abbreviation Vtx := (Vertex (T:=T) InputTrack).

Section Unconstrained.
Variables c c' : Vtx.
Hypothesis Hc : isConstraintFit c = false.
Hypothesis Hc' : isConstraintFit c' = false.

Lemma unconstrained_Vwgt (bv : BilloirVertex (T:=T)) :
  VwgtMatOf cfg c bv = VwgtMatOf cfg c' bv.
Proof. unfold VwgtMatOf. now rewrite Hc, Hc'. Qed.

Lemma unconstrained_Vdel (lp : Matrix) (bv : BilloirVertex (T:=T)) :
  VdelOf cfg c lp bv = VdelOf cfg c' lp bv.
Proof. unfold VdelOf. now rewrite Hc, Hc'. Qed.

Lemma unconstrained_covDeltaV (st : FitState InputTrack TrackParams) :
  covDeltaVmatOf cfg paramVector c st = covDeltaVmatOf cfg paramVector c' st.
Proof. unfold covDeltaVmatOf. now rewrite unconstrained_Vwgt. Qed.

Lemma unconstrained_deltaV (st : FitState InputTrack TrackParams) :
  deltaVOf cfg paramVector c st = deltaVOf cfg paramVector c' st.
Proof. unfold deltaVOf. now rewrite unconstrained_covDeltaV, unconstrained_Vdel. Qed.

Lemma unconstrained_momentumLoop (st : FitState InputTrack TrackParams) :
  momentumLoopOf cfg paramVector c st = momentumLoopOf cfg paramVector c' st.
Proof.
  unfold momentumLoopOf. now rewrite unconstrained_covDeltaV, unconstrained_deltaV.
Qed.

Lemma unconstrained_round (st : FitState InputTrack TrackParams) :
  runIteration cfg paramVector c st = runIteration cfg paramVector c' st.
Proof.
  unfold runIteration.
  rewrite unconstrained_momentumLoop, unconstrained_covDeltaV, unconstrained_deltaV.
  now rewrite Hc, Hc'.
Qed.

Lemma unconstrained_materialize (vp : Matrix) (it : Iteration InputTrack TrackParams) :
  materialize paramVector c vp it = materialize paramVector c' vp it.
Proof. unfold materialize, ndf. now rewrite Hc, Hc'. Qed.

Lemma unconstrained_body (st : FitState InputTrack TrackParams) :
  iterationBody cfg paramVector c st = iterationBody cfg paramVector c' st.
Proof.
  unfold iterationBody, commit.
  now rewrite unconstrained_round, unconstrained_materialize.
Qed.

End Unconstrained.

Lemma unconstrained_states (c c' : Vtx) (k : nat) :
  isConstraintFit c = false -> isConstraintFit c' = false ->
  position c = position c' ->
  stateAfter cfg paramVector c k = stateAfter cfg paramVector c' k.
Proof.
  intros Hc Hc' Hp. induction k as [|k IH].
  - change (initState cfg c = initState cfg c'). unfold initState. f_equal. exact Hp.
  - rewrite !stateAfter_S, IH. now apply unconstrained_body.
Qed.

(** C10. The constraint takes part in the fit exactly when the trace of its
    covariance compares different from zero.  If it does not, ndf, the
    normal equations and the chi-square are those without a constraint, the
    linearization point still starts at the position of the constraint, and
    the covariance has no influence on the call at all; if it does, ndf
    grows by three, the inverse covariance is added to [VwgtMat], the
    inverse covariance times the offset of the constraint from the
    linearization point is added to [Vdel], [deltaV] is computed from
    these two, and the chi-square grows by the offset of [deltaV] from the
    constraint weighted with the inverse covariance (lines 190-205 and
    309-320, written out). *)
Theorem C10_constraint_by_trace (constraint : Vtx) :
  isConstraintFit constraint = neqb (trace (covariance constraint)) (ofZ 0)
  /\ linPoint (initState cfg constraint) = position constraint
  /\ (neqb (trace (covariance constraint)) (ofZ 0) = false ->
      ndf paramVector constraint = ndfOf (Z.of_nat (length paramVector)) false
      /\ (forall lp bv, VdelOf cfg constraint lp bv = msub (Tvec bv) (BCUvec bv))
      /\ (forall bv, VwgtMatOf cfg constraint bv = msub (Amat bv) (BCBmat bv))
      /\ (forall st, it_newChi2 (runIteration cfg paramVector constraint st)
                     = ml_newChi2 (momentumLoopOf cfg paramVector constraint st))
      /\ (forall c' : Vtx,
             neqb (trace (covariance c')) (ofZ 0) = false ->
             position c' = position constraint ->
             fitRun cfg paramVector c' = fitRun cfg paramVector constraint))
  /\ (neqb (trace (covariance constraint)) (ofZ 0) = true ->
      ndf paramVector constraint
      = to_int32 (ndfOf (Z.of_nat (length paramVector)) false + 3)
      /\ (forall lp bv,
             VdelOf cfg constraint lp bv
             = madd (msub (Tvec bv) (BCUvec bv))
                    (mmul (inverse3 cfg (covariance constraint))
                          (vec [sub (vget (position constraint) 0) (vget lp 0);
                                sub (vget (position constraint) 1) (vget lp 1);
                                sub (vget (position constraint) 2) (vget lp 2)])))
      /\ (forall bv,
             VwgtMatOf cfg constraint bv
             = madd (msub (Amat bv) (BCBmat bv)) (inverse3 cfg (covariance constraint)))
      /\ (forall st,
             let bv := tl_billoirVertex (trackLoopOf cfg paramVector st) in
             it_deltaV (runIteration cfg paramVector constraint st)
             = mmul (inverse3 cfg (VwgtMatOf cfg constraint bv))
                    (VdelOf cfg constraint (linPoint st) bv))
      /\ (forall st,
             let deltaV := it_deltaV (runIteration cfg paramVector constraint st) in
             let deltaTrk :=
               vec [sub (vget deltaV 0)
                        (sub (vget (position constraint) 0) (vget (linPoint st) 0));
                    sub (vget deltaV 1)
                        (sub (vget (position constraint) 1) (vget (linPoint st) 1));
                    sub (vget deltaV 2)
                        (sub (vget (position constraint) 2) (vget (linPoint st) 2))] in
             it_newChi2 (runIteration cfg paramVector constraint st)
             = add (ml_newChi2 (momentumLoopOf cfg paramVector constraint st))
                   (vget (mmul (mmul (transpose deltaTrk)
                                     (inverse3 cfg (covariance constraint)))
                               deltaTrk) 0))).
Proof.
  split; [reflexivity|]. split; [reflexivity|]. split.
  - intros Hz.
    assert (Hc : isConstraintFit constraint = false) by exact Hz.
    split; [unfold ndf; now rewrite Hc|].
    split; [intros lp bv; unfold VdelOf; now rewrite Hc|].
    split; [intros bv; unfold VwgtMatOf; now rewrite Hc|].
    split; [intros st; unfold runIteration; cbn [it_newChi2]; now rewrite Hc|].
    intros c' Hz' Hp.
    assert (Hc' : isConstraintFit c' = false) by exact Hz'.
    unfold fitRun, fitLoop.
    now rewrite (unconstrained_states c' constraint (Z.to_nat (maxIterations cfg)) Hc' Hc Hp).
  - intros Hnz.
    assert (Hc : isConstraintFit constraint = true) by exact Hnz.
    split; [unfold ndf, ndfOf; rewrite Hc; reflexivity|].
    split; [intros lp bv; unfold VdelOf; rewrite Hc; reflexivity|].
    split; [intros bv; unfold VwgtMatOf; now rewrite Hc|].
    split; [intros st; reflexivity|].
    intros st; unfold runIteration; cbn [it_newChi2 it_deltaV]; rewrite Hc; reflexivity.
Qed.

End Constraint.

(** ** Facts about the interpretation [Dbl] *)

Section DblFacts.
Import Dbl.

Lemma Qltb_lt (a b : Q) : Qltb a b = true <-> (a < b)%Q.
Proof. unfold Qltb, Qlt. apply Z.ltb_lt. Qed.

Lemma dltb_irrefl (a : dbl) : dltb a a = false.
Proof.
  destruct a as [a| | |]; cbn; try reflexivity.
  destruct (Qltb a a) eqn:E; [|reflexivity].
  apply Qltb_lt in E. exfalso. exact (Qlt_irrefl a E).
Qed.

Lemma dltb_trans (a b c : dbl) : dltb a b = true -> dltb b c = true -> dltb a c = true.
Proof.
  destruct a as [a| | |], b as [b| | |], c as [c| | |]; cbn;
    try discriminate; try reflexivity.
  intros Hab Hbc. apply Qltb_lt. apply Qltb_lt in Hab, Hbc.
  eapply Qlt_trans; eassumption.
Qed.

Lemma dltb_NaN (x : dbl) : dltb NaN x = false.
Proof. reflexivity. Qed.

Lemma dmul_PInf_not_finite (x : dbl) : isFinite (dmul x PInf) = false.
Proof.
  destruct x as [a| | |]; cbn; try reflexivity.
  destruct (Qsgn a * 1)%Z; reflexivity.
Qed.

(** Eigen's 3x3 inverse of a matrix with determinant zero has no finite
    entry: every cofactor is multiplied by 1/0. *)
Lemma eigenInverse3_singular (m : Matrix (T:=dbl)) (d : Q) (i j : nat) :
  determinant3 m = Fin d -> Qnum d = 0%Z ->
  (i < 3)%nat -> (j < 3)%nat ->
  isFinite (get (eigenInverse3 m) i j) = false.
Proof.
  intros Hd Hz Hi Hj.
  assert (E : get (eigenInverse3 m) i j = dmul (cofactor_3x3 m j i) PInf).
  { unfold eigenInverse3. rewrite Hd.
    replace (div one (Fin d)) with PInf.
    - destruct i as [|[|[|i]]]; try lia; destruct j as [|[|[|j]]]; try lia; reflexivity.
    - cbn. unfold Qsgn. rewrite Hz. reflexivity. }
  rewrite E. apply dmul_PInf_not_finite.
Qed.









End DblFacts.

(** ** Singular matrices *)

Section Singular.
Import Dbl.
Variables InputTrack TrackParams : Type.
Variable cfg : Setup (T:=dbl) InputTrack TrackParams.
Variable paramVector : list InputTrack.
Variable constraint : Vertex (T:=dbl) InputTrack.

Lemma bestRound_none (k : nat) :
  (forall j, (j < k)%nat -> improvedAt cfg paramVector constraint j = false) ->
  bestRound cfg paramVector constraint k = None.
Proof.
  induction k as [|k IH]; intros Hk; cbn [bestRound]; [reflexivity|].
  rewrite (Hk k) by lia. apply IH. intros j Hj. apply Hk. lia.
Qed.

(** C2 (amended). [fit] has no failure path: a call returns a vertex.  With
    Eigen's 3x3 inverse, a singular [G] of a track, a singular [Vwgt] or a
    singular constraint covariance (determinant zero) yields an inverse
    without any finite entry, which the computation carries on with; when
    the total chi-square of every round comes out as NaN, no round writes
    the fitted vertex and the call returns the default vertex. *)
Theorem C2_singular_inverse_is_not_an_error :
  inverse3 cfg = eigenInverse3 ->
  fitResult cfg paramVector constraint = inr (fit cfg paramVector constraint)
  /\ (forall st b d i j,
         In b (it_billoirTracks (runIteration cfg paramVector constraint st)) ->
         determinant3 (GiMat b) = Fin d -> Qnum d = 0%Z ->
         (i < 3)%nat -> (j < 3)%nat ->
         isFinite (get (CiInv b) i j) = false)
  /\ (forall st d i j,
         determinant3 (VwgtMatOf cfg constraint
                                 (tl_billoirVertex (trackLoopOf cfg paramVector st))) = Fin d ->
         Qnum d = 0%Z ->
         (i < 3)%nat -> (j < 3)%nat ->
         isFinite (get (it_covDeltaVmat (runIteration cfg paramVector constraint st)) i j)
         = false)
  /\ (forall d i j,
         determinant3 (covariance constraint) = Fin d -> Qnum d = 0%Z ->
         (i < 3)%nat -> (j < 3)%nat ->
         isFinite (get (inverse3 cfg (covariance constraint)) i j) = false)
  /\ (nTracks paramVector <> 0%Z ->
      (forall j, (j < Z.to_nat (maxIterations cfg))%nat ->
                 newChi2At cfg paramVector constraint j = NaN) ->
      fit cfg paramVector constraint = Vertex_default cfg).
Proof.
  intros Hinv. split; [reflexivity|]. split; [|split; [|split]].
  - intros st b d i j Hb Hd Hz Hi Hj.
    pose proof (round_cached cfg paramVector constraint st) as Hc.
    rewrite Forall_forall in Hc. specialize (Hc b Hb).
    destruct Hc as (_ & _ & _ & _ & _ & _ & HCi & _).
    rewrite HCi, Hinv. now apply (eigenInverse3_singular _ Hd).
  - intros st d i j Hd Hz Hi Hj.
    unfold runIteration. cbn [it_covDeltaVmat]. unfold covDeltaVmatOf.
    rewrite Hinv. now apply (eigenInverse3_singular _ Hd).
  - intros d i j Hd Hz Hi Hj. rewrite Hinv. now apply (eigenInverse3_singular _ Hd).
  - intros Hn Hnan. unfold fit. rewrite fit_nonzero by exact Hn.
    cbn [run_vertex]. unfold fitLoop.
    rewrite fittedVertex_stateAfter, bestRound_none; [reflexivity|].
    intros j Hj. unfold improvedAt. rewrite (Hnan j Hj). reflexivity.
Qed.

End Singular.

(** ** The weight matrix of the chi-square *)

Section Weights.
Context {T : Type} `{Scalar T}.
Variables InputTrack TrackParams : Type.
Variable cfg : Setup (T:=T) InputTrack TrackParams.
Variable paramVector : list InputTrack.
Variable constraint : Vertex (T:=T) InputTrack.

Local Abbreviation BTrack := (BilloirTrack (T:=T) InputTrack).

(** In the chi-square of every track of a round the residual is weighted
    with the inverse covariance of the track linearized last, which is what
    the storage of [linTrack] holds when the second loop reads it. *)
Lemma chi2_weight_of_last_track (st : FitState InputTrack TrackParams)
      (l : list InputTrack) (t : InputTrack) :
  paramVector = l ++ [t] ->
  let it := runIteration cfg paramVector constraint st in
  let Wlast := inverse5 cfg (covarianceAtPCA
                               (linearizeTrack cfg (extractParameters cfg t) (linPoint st))) in
  Forall (fun b : BTrack =>
            bt_chi2 b = chi2Form Wlast (it_deltaV it) (deltaPOf (it_deltaV it) b) b)
         (it_billoirTracks it).
Proof.
  intros E it Wlast. subst it Wlast.
  pose proof (round_chi2 cfg paramVector constraint st) as Hc.
  pose proof (round_cached cfg paramVector constraint st) as Hk.
  rewrite Forall_forall in *. intros b Hb.
  rewrite (Hc b Hb). unfold trackChi2.
  destruct (Hk b Hb) as (Hptr & _).
  rewrite Hptr. erewrite round_frame by exact E. reflexivity.
Qed.

End Weights.

(** ** The running momenta *)

Section Momenta.
Context {T : Type} `{Scalar T}.
Variables InputTrack TrackParams : Type.
Variable cfg : Setup (T:=T) InputTrack TrackParams.
Variable paramVector : list InputTrack.
Variable constraint : Vertex (T:=T) InputTrack.

Local Abbreviation BTrack := (BilloirTrack (T:=T) InputTrack).
Local Abbreviation stateAt := (stateAfter cfg paramVector constraint).

Lemma linearized_length (st : FitState InputTrack TrackParams) :
  length (linearized cfg paramVector st) = length paramVector.
Proof.
  rewrite <- (round_tracks_length cfg paramVector constraint st).
  now rewrite round_tracks, length_map.
Qed.

Lemma trackMomenta_stateAfter_S (j : nat) :
  trackMomenta (stateAt (S j))
  = it_trackMomenta (runIteration cfg paramVector constraint (stateAt j)).
Proof. reflexivity. Qed.

(** From the first round on there is one running momentum per track. *)
Lemma trackMomenta_length (j : nat) :
  length (tl_trackMomenta (trackLoopOf cfg paramVector (stateAt j))) = length paramVector.
Proof.
  induction j as [|j IH].
  - unfold trackLoopOf. rewrite trackLoop_momenta_length. reflexivity.
  - unfold trackLoopOf. rewrite trackLoop_momenta_length. cbn [tl_trackMomenta].
    rewrite nIter_stateAfter.
    destruct (Z.eqb_spec (Z.of_nat (S j)) 0) as [E|_]; [lia|].
    rewrite Nat.add_0_r, trackMomenta_stateAfter_S.
    unfold runIteration. cbn [it_trackMomenta]. unfold momentumLoopOf.
    match goal with
    | |- length (ml_trackMomenta (fold_left (momentumStep cfg ?fr ?cv ?dv) ?l ?s)) = _ =>
        destruct (momentumLoop_lengths cfg fr cv dv l s) as [-> _]
    end.
    cbn [ml_trackMomenta]. exact IH.
Qed.

Lemma round_momenta_length (j : nat) :
  length (it_trackMomenta (runIteration cfg paramVector constraint (stateAt j)))
  = length paramVector.
Proof.
  unfold runIteration. cbn [it_trackMomenta]. unfold momentumLoopOf.
  match goal with
  | |- length (ml_trackMomenta (fold_left (momentumStep cfg ?fr ?cv ?dv) ?l ?s)) = _ =>
      destruct (momentumLoop_lengths cfg fr cv dv l s) as [-> _]
  end.
  cbn [ml_trackMomenta]. apply trackMomenta_length.
Qed.

Lemma round_momentum_entry (j i : nat) (b : BTrack) :
  nth_error (linearized cfg paramVector (stateAt j)) i = Some b ->
  nth i (it_trackMomenta (runIteration cfg paramVector constraint (stateAt j))) []
  = updateMomentum
      (nth i (tl_trackMomenta (trackLoopOf cfg paramVector (stateAt j))) [])
      (deltaPOf (deltaVOf cfg paramVector constraint (stateAt j)) b).
Proof.
  intros Hb.
  assert (Hi : (i < length paramVector)%nat).
  { rewrite <- (linearized_length (stateAt j)). apply nth_error_Some. congruence. }
  unfold runIteration. cbn [it_trackMomenta]. unfold momentumLoopOf.
  unfold linearized in Hb.
  match goal with
  | |- nth i (ml_trackMomenta (fold_left (momentumStep cfg ?fr ?cv ?dv) ?l ?s)) [] = _ =>
      destruct (momentumLoop_entry cfg fr cv dv l s i Hb) as [Hentry _]
  end.
  apply Hentry. cbn [ml_iTrack ml_trackMomenta Nat.add].
  rewrite trackMomenta_length. exact Hi.
Qed.

(** Every running momentum stored by a round is the result of the update
    of lines 224-254. *)
Lemma stored_momentum_is_updated (j : nat) (m : Matrix) :
  In m (trackMomenta (stateAt (S j))) ->
  exists old deltaP, m = updateMomentum old deltaP.
Proof.
  intros Hm. rewrite trackMomenta_stateAfter_S in Hm.
  destruct (In_nth _ _ [] Hm) as [i [Hi <-]].
  rewrite round_momenta_length in Hi.
  destruct (nth_error (linearized cfg paramVector (stateAt j)) i) as [b|] eqn:Eb.
  - do 2 eexists. exact (round_momentum_entry j i Eb).
  - exfalso. apply nth_error_None in Eb. rewrite linearized_length in Eb. lia.
Qed.

End Momenta.

(** ** The angle normalisation, over the real numbers *)

Section RealAngles.
Import RealScalar.
Local Open Scope R_scope.

Lemma Rtrunc_bounds (z : R) :
  (0 <= z -> IZR (Rtrunc z) <= z < IZR (Rtrunc z) + 1)
  /\ (z < 0 -> IZR (Rtrunc z) - 1 < z <= IZR (Rtrunc z)).
Proof.
  unfold Rtrunc. destruct (Rle_dec 0 z) as [Hz|Hz].
  - split; [|lra]. intros _. destruct (base_Int_part z). lra.
  - split; [lra|]. intros _. destruct (base_Int_part (- z)).
    rewrite opp_IZR. lra.
Qed.

Lemma Rtrunc_0 : Rtrunc 0 = 0%Z.
Proof.
  unfold Rtrunc. destruct (Rle_dec 0 0); [|lra].
  symmetry. apply Int_part_spec. lra.
Qed.

(** [fmod x y] for [y > 0]: [x] less a whole multiple of [y], of the sign
    of [x] and smaller than [y] in absolute value. *)
Lemma Rfmod_spec (x y : R) :
  0 < y ->
  Rfmod x y = x - IZR (Rtrunc (x / y)) * y
  /\ (0 <= x -> 0 <= Rfmod x y < y)
  /\ (x <= 0 -> - y < Rfmod x y <= 0).
Proof.
  intros Hy. split; [reflexivity|]. unfold Rfmod.
  set (u := x / y). assert (Hx : x = u * y) by (unfold u; field; lra).
  destruct (Rtrunc_bounds u) as [Hpos Hneg].
  split; intros H0.
  - assert (Hu : 0 <= u).
    { unfold u. apply Rmult_le_pos; [lra|]. left. now apply Rinv_0_lt_compat. }
    specialize (Hpos Hu). clearbody u. subst x. nra.
  - destruct (Req_dec x 0) as [E|E].
    + assert (Hu : u = 0) by (unfold u; rewrite E; field; lra).
      rewrite Hu, Rtrunc_0, E. lra.
    + assert (Hu : u < 0).
      { assert (0 < - u); [|lra].
        replace (- u) with ((- x) * / y) by (unfold u; field; lra).
        apply Rmult_lt_0_compat; [lra|]. now apply Rinv_0_lt_compat. }
      specialize (Hneg Hu). clearbody u. subst x. nra.
Qed.

Lemma sin_period_Z (k : Z) (x : R) : sin (x + IZR k * (2 * PI)) = sin x.
Proof.
  destruct (Z_le_gt_dec 0 k) as [Hk|Hk].
  - rewrite <- (Z2Nat.id k) by lia. rewrite <- INR_IZR_INZ.
    replace (x + INR (Z.to_nat k) * (2 * PI)) with (x + 2 * INR (Z.to_nat k) * PI) by ring.
    apply sin_period.
  - replace k with (- Z.of_nat (Z.to_nat (- k)))%Z by lia.
    rewrite opp_IZR, <- INR_IZR_INZ.
    set (n := Z.to_nat (- k)).
    rewrite <- (sin_period (x + - INR n * (2 * PI)) n). f_equal. ring.
Qed.

Lemma cos_period_Z (k : Z) (x : R) : cos (x + IZR k * (2 * PI)) = cos x.
Proof.
  destruct (Z_le_gt_dec 0 k) as [Hk|Hk].
  - rewrite <- (Z2Nat.id k) by lia. rewrite <- INR_IZR_INZ.
    replace (x + INR (Z.to_nat k) * (2 * PI)) with (x + 2 * INR (Z.to_nat k) * PI) by ring.
    apply cos_period.
  - replace k with (- Z.of_nat (Z.to_nat (- k)))%Z by lia.
    rewrite opp_IZR, <- INR_IZR_INZ.
    set (n := Z.to_nat (- k)).
    rewrite <- (cos_period (x + - INR n * (2 * PI)) n). f_equal. ring.
Qed.

Lemma direction_period (k1 k2 : Z) (a b : R) :
  direction (a + IZR k1 * (2 * PI)) (b + IZR k2 * (2 * PI)) = direction a b.
Proof.
  unfold direction. now rewrite !sin_period_Z, !cos_period_Z.
Qed.

Lemma triple_eq (a b c a' b' c' : R) :
  a = a' -> b = b' -> c = c' -> (a, b, c) = (a', b', c').
Proof. now intros -> -> ->. Qed.

(** Decide the comparisons of [normalizeAngles] from the inside out. *)
Ltac decide_innermost :=
  match goal with
  | |- context [Rlt_dec ?x ?y] =>
      lazymatch x with
      | context [Rlt_dec _ _] => fail
      | _ => lazymatch y with
             | context [Rlt_dec _ _] => fail
             | _ => destruct (Rlt_dec x y); cbv beta iota; cbn [andb]
             end
      end
  end.

(** Expand sines and cosines of sums with pi and 2 pi. *)
Ltac trig :=
  unfold direction;
  repeat match goal with
         | |- context [?x * -1] => replace (x * -1) with (- x) by ring
         end;
  repeat (rewrite sin_plus || rewrite sin_minus || rewrite cos_plus || rewrite cos_minus
          || rewrite sin_neg || rewrite cos_neg || rewrite sin_2PI || rewrite cos_2PI
          || rewrite sin_PI || rewrite cos_PI);
  apply triple_eq; ring.

Lemma normalizeAngles_real (phi theta : R) :
  let p := fst (normalizeAngles (T:=R) phi theta) in
  let t := snd (normalizeAngles (T:=R) phi theta) in
  - PI <= p <= PI /\ 0 <= t <= PI /\ direction p t = direction phi theta.
Proof.
  pose proof PI_RGT_0 as Hpi.
  assert (H2pi : 0 < 2 * PI) by lra.
  destruct (@Rfmod_spec phi (2 * PI) H2pi) as (Ea & Ha1 & Ha2).
  destruct (@Rfmod_spec theta (2 * PI) H2pi) as (Eb & Hb1 & Hb2).
  assert (Hdir : direction phi theta
                 = direction (Rfmod phi (2 * PI)) (Rfmod theta (2 * PI))).
  { rewrite <- (direction_period (Rtrunc (phi / (2 * PI))) (Rtrunc (theta / (2 * PI)))
                                 (Rfmod phi (2 * PI)) (Rfmod theta (2 * PI))).
    f_equal; [rewrite Ea | rewrite Eb]; ring. }
  cbv zeta. rewrite Hdir.
  cbv [normalizeAngles twoPi gtb ltb add sub mul opp fabs fmod ofZ M_PI R_Scalar Rltb].
  assert (Ha : - (2 * PI) < Rfmod phi (2 * PI) < 2 * PI)
    by (destruct (Rle_dec 0 phi);
        [specialize (Ha1 ltac:(lra)) | specialize (Ha2 ltac:(lra))]; lra).
  assert (Hb : - (2 * PI) < Rfmod theta (2 * PI) < 2 * PI)
    by (destruct (Rle_dec 0 theta);
        [specialize (Hb1 ltac:(lra)) | specialize (Hb2 ltac:(lra))]; lra).
  clear Ea Eb Ha1 Ha2 Hb1 Hb2 Hdir.
  generalize dependent (Rfmod phi (2 * PI)). intros a Ha.
  generalize dependent (Rfmod theta (2 * PI)). intros b Hb.
  repeat decide_innermost.
  all: cbn [fst snd].
  all: try (rewrite (Rabs_right (b + 2 * PI)) in * by lra).
  all: try (exfalso; lra).
  all: (split; [lra|]).
  all: (split; [lra|]).
  all: trig.
Qed.

Lemma vget_vec3 (a b c : R) :
  vget (vec [a; b; c]) 0 = a /\ vget (vec [a; b; c]) 1 = b /\ vget (vec [a; b; c]) 2 = c.
Proof. repeat split. Qed.

Lemma updateMomentum_real (momentum deltaP : Matrix (T:=R)) :
  let phi := vget momentum 0 + vget deltaP 0 in
  let theta := vget momentum 1 + vget deltaP 1 in
  let qop := vget momentum 2 + vget deltaP 2 in
  let m := updateMomentum momentum deltaP in
  - PI <= vget m 0 <= PI
  /\ 0 <= vget m 1 <= PI
  /\ vget m 2 = qop
  /\ momentumVector (vget m 0) (vget m 1) (vget m 2) = momentumVector phi theta qop.
Proof.
  intros phi theta qop m.
  pose proof (normalizeAngles_real phi theta) as Hn. cbv zeta in Hn.
  assert (Em : m = vec [fst (normalizeAngles phi theta);
                        snd (normalizeAngles phi theta); qop]).
  { subst m. unfold updateMomentum.
    change (add (vget momentum 0) (vget deltaP 0)) with phi.
    change (add (vget momentum 1) (vget deltaP 1)) with theta.
    change (add (vget momentum 2) (vget deltaP 2)) with qop.
    destruct (normalizeAngles phi theta); reflexivity. }
  rewrite Em.
  destruct (vget_vec3 (fst (normalizeAngles phi theta))
                      (snd (normalizeAngles phi theta)) qop) as (-> & -> & ->).
  destruct Hn as (Hp & Ht & Hd).
  split; [exact Hp|]. split; [exact Ht|]. split; [reflexivity|].
  unfold momentumVector. unfold direction in Hd.
  injection Hd as H1 H2 H3. now rewrite H1, H2, H3.
Qed.

(** Every running momentum stored after a round of the loop is in these
    ranges. *)
Lemma stored_angles_in_range (InputTrack TrackParams : Type)
      (cfg : Setup (T:=R) InputTrack TrackParams)
      (paramVector : list InputTrack) (constraint : Vertex (T:=R) InputTrack)
      (j : nat) (m : Matrix (T:=R)) :
  In m (trackMomenta (stateAfter cfg paramVector constraint (S j))) ->
  - PI <= vget m 0 <= PI /\ 0 <= vget m 1 <= PI.
Proof.
  intros Hm.
  destruct (stored_momentum_is_updated cfg paramVector constraint j m Hm)
    as (old & deltaP & ->).
  destruct (updateMomentum_real old deltaP) as (Hp & Ht & _).
  split; assumption.
Qed.

(** *** With any positive value for the constant [M_PI] *)








End RealAngles.

Section AnglesAfterUpdate.
Import Dbl RealScalar.
Local Open Scope R_scope.


End AnglesAfterUpdate.

(** ** The statements at concrete calls *)

Section Checks.
Import Dbl RealScalar Examples F64 F64Examples.

Lemma length_repeat_pow (t : Track) (a b : nat) :
  Z.of_nat (length (repeat t (2 ^ a + b))) = (2 ^ Z.of_nat a + Z.of_nat b)%Z.
Proof.
  rewrite repeat_length, Nat2Z.inj_add, Nat2Z.inj_pow. reflexivity.
Qed.



(** C2, the claim as stated fails: two copies of a track whose [G] is
    singular.  The call does not fail; it returns the default vertex. *)
Lemma C2_counterexample :
  let cfg := setup 2 in
  let tracks := [trackS; trackS] in
  map (fun b => determinant3 (GiMat b))
      (it_billoirTracks (runIteration cfg tracks noConstraint (initState cfg noConstraint)))
  = [Fin 0; Fin 0]
  /\ fitResult cfg tracks noConstraint = inr (Vertex_default cfg)
  /\ fitResult cfg tracks noConstraint <> inl SingularMatrix.
Proof. vm_compute. repeat split. discriminate. Qed.

(** C2 at that call: every total is NaN and the default vertex comes back. *)
Lemma C2_witness :
  inverse3 (setup 2) = eigenInverse3
  /\ fit (setup 2) [trackS; trackS] noConstraint = Vertex_default (setup 2).
Proof.
  split; [reflexivity|].
  apply (@C2_singular_inverse_is_not_an_error Track Track (setup 2) [trackS; trackS] noConstraint
                                              eq_refl).
  - vm_compute. discriminate.
  - intros [|[|j]] Hj; [vm_compute; reflexivity | vm_compute; reflexivity |].
    exfalso. vm_compute in Hj. lia.
Defined.



(** C4, the claim as stated fails: with 2^30 + 2 tracks 2n - 3 does not fit
    an int. *)
Lemma C4_counterexample :
  (2 <= Z.of_nat (length (repeat trackA (2 ^ 30 + 2))))%Z
  /\ ndf (repeat trackA (2 ^ 30 + 2)) noConstraint = (-2147483647)%Z
  /\ ndf (repeat trackA (2 ^ 30 + 2)) noConstraint
     <> (2 * Z.of_nat (length (repeat trackA (2 ^ 30 + 2))) - 3)%Z.
Proof.
  unfold ndf. rewrite !length_repeat_pow.
  split; [vm_compute; discriminate|].
  split; [vm_compute; reflexivity | vm_compute; discriminate].
Qed.

(** C4 at two tracks with a unit constraint covariance: ndf = 2*2 - 3 + 3. *)
Lemma C4_witness :
  (1 <= Z.of_nat (length [trackA; trackB]) < 2 ^ 30)%Z
  /\ ndf [trackA; trackB] (constraintWith covUnit) = 4%Z
  /\ snd (fitQuality (fit (setup 2) [trackA; trackB] (constraintWith covUnit))) = 4%Z.
Proof.
  assert (Hn : (1 <= Z.of_nat (length [trackA; trackB]) < 2 ^ 30)%Z)
    by (vm_compute; split; [discriminate | reflexivity]).
  split; [exact Hn|].
  destruct (@C4_degrees_of_freedom dbl dbl_Scalar Track Track (setup 2) [trackA; trackB]
                                  (constraintWith covUnit) Hn) as [H1 H2].
  split; [rewrite H1; vm_compute; reflexivity|].
  rewrite (H2 0%nat); [rewrite H1; vm_compute; reflexivity | vm_compute; reflexivity].
Defined.

(** C6, the claim as stated fails: a vector of 2^32 tracks is not empty,
    yet its size is 0 as an unsigned int and no round is run. *)
Lemma C6_counterexample :
  repeat trackA (2 ^ 32) <> []
  /\ maxIterations (setup 1) = 1%Z
  /\ run_rounds (fitRun (setup 1) (repeat trackA (2 ^ 32)) noConstraint) = 0%Z
  /\ run_calls (fitRun (setup 1) (repeat trackA (2 ^ 32)) noConstraint) = [].
Proof.
  assert (Hn : nTracks (repeat trackA (2 ^ 32)) = 0%Z).
  { unfold nTracks, nTracksOf, to_uint32.
    rewrite <- (Nat.add_0_r (2 ^ 32)), length_repeat_pow. reflexivity. }
  split.
  - intros E. apply (f_equal (@length Track)) in E.
    rewrite repeat_length in E. cbn [length] in E.
    exact (Nat.pow_nonzero 2 32 ltac:(discriminate) E).
  - split; [reflexivity|]. unfold fitRun. rewrite Hn. split; reflexivity.
Qed.

(** C6 at two tracks and three rounds: six calls of the factory. *)
Lemma C6_witness :
  (0 < Z.of_nat (length [trackA; trackB]) < 2 ^ 31)%Z
  /\ (0 <= maxIterations (setup 3))%Z
  /\ nTracks [trackA; trackB] = 2%Z
  /\ run_rounds (fitRun (setup 3) [trackA; trackB] noConstraint) = 3%Z
  /\ Z.of_nat (length (run_calls (fitRun (setup 3) [trackA; trackB] noConstraint))) = 6%Z.
Proof.
  assert (Hn : (0 < Z.of_nat (length [trackA; trackB]) < 2 ^ 31)%Z) by (cbn; lia).
  assert (Hm : (0 <= maxIterations (setup 3))%Z) by (vm_compute; discriminate).
  split; [exact Hn|]. split; [exact Hm|].
  destruct (@C6_loop_runs_full_budget dbl dbl_Scalar Track Track (setup 3) [trackA; trackB] noConstraint Hn Hm)
    as (H0 & H1 & H2 & _).
  split; [exact H0|]. split; [exact H1 | exact H2].
Defined.

(** C7 at two tracks whose covariances differ in the variance of z0 (1 for
    the first track, 1/3 for the second).  The claim weights the residual
    of the first track with its own inverse covariance, which gives 9/4;
    the code reads the weight through the pointer to the variable of the
    first loop, which holds the linearization of the second track, and
    stores 27/4.  The total is 15/2 where the claim gives 3. *)
Lemma C7_chi2_at_failing_input :
  let cfg := setup 1 in
  let tracks := [trackA; trackB] in
  let st := initState cfg noConstraint in
  let it := runIteration cfg tracks noConstraint st in
  map (fun b => bt_chi2 b) (it_billoirTracks it) = [Fin (27 # 4); Fin (3 # 4)]
  /\ map (specTrackChi2 cfg (linPoint st) (it_deltaV it)) (it_billoirTracks it)
     = [Fin (9 # 4); Fin (3 # 4)]
  /\ it_newChi2 it = Fin (15 # 2)
  /\ map (fun t => chi2Track t) (tracksAtVertex (fit cfg tracks noConstraint))
     = [Fin (27 # 4); Fin (3 # 4)].
Proof. vm_compute. repeat split. Qed.

(** C8, the claim as stated fails: the entry (1,2) of the transformation is
    the constant 1.  It lies outside the first two columns and is none of
    the three entries of the momentum parameters, so the matrix of the
    claim has 0 there. *)
Lemma C8_counterexample :
  let cfg := setup 1 in
  let it := runIteration cfg [trackA; trackB] noConstraint (initState cfg noConstraint) in
  map (fun b => get (transMatOf b) 1 2) (it_billoirTracks it) = [Fin 1; Fin 1]
  /\ map (fun b => get (specTransMat b) 1 2) (it_billoirTracks it) = [Fin 0; Fin 0]
  /\ map (fun b => transMatOf b) (it_billoirTracks it)
     <> map specTransMat (it_billoirTracks it).
Proof. vm_compute. repeat split. discriminate. Qed.

(** C8 at the second refitted track of the first round of a call with two
    tracks. *)
Lemma C8_witness :
  (Z.of_nat (length [trackA; trackB]) < 2 ^ 32)%Z
  /\ exists tav b,
      nth_error (tracksAtVertex (vertexOfRound (setup 1) [trackA; trackB] noConstraint 0)) 1
      = Some tav
      /\ nth_error (it_billoirTracks
                      (runIteration (setup 1) [trackA; trackB] noConstraint
                                    (stateAfter (setup 1) [trackA; trackB] noConstraint 0))) 1
         = Some b
      /\ bp_covariance (fittedParams tav)
         = Some (covDeltaPOf
                   (covariance (vertexOfRound (setup 1) [trackA; trackB] noConstraint 0)) b).
Proof.
  assert (Hn : (Z.of_nat (length [trackA; trackB]) < 2 ^ 32)%Z) by (vm_compute; reflexivity).
  split; [exact Hn|].
  destruct (nth_error (tracksAtVertex
                         (vertexOfRound (setup 1) [trackA; trackB] noConstraint 0)) 1)
    as [tav|] eqn:E; [|vm_compute in E; discriminate].
  destruct (proj2 (@C8_refit_covariance dbl dbl_Scalar Track Track (setup 1)
                                        [trackA; trackB] noConstraint) 0%nat 1%nat tav Hn E)
    as [b [Hb Hcov]].
  exists tav, b. repeat split; assumption.
Defined.

(** C9 at the call of four rounds whose third round is the best. *)
Lemma C9_witness :
  nth_error [trackE; trackF] 1 = Some trackF
  /\ nTracks [trackE; trackF] <> 0%Z
  /\ bestRound (setupKink 4) [trackE; trackF] noConstraint
               (Z.to_nat (maxIterations (setupKink 4))) = Some 2%nat
  /\ length (tracksAtVertex (fit (setupKink 4) [trackE; trackF] noConstraint)) = 2%nat
  /\ exists tav,
      nth_error (tracksAtVertex (fit (setupKink 4) [trackE; trackF] noConstraint)) 1 = Some tav
      /\ originalParams tav = trackF
      /\ vget (bp_parameters (fittedParams tav)) eLOC_D0 = ofZ 0
      /\ vget (bp_parameters (fittedParams tav)) eLOC_Z0 = ofZ 0
      /\ bp_perigee (fittedParams tav)
         = position (fit (setupKink 4) [trackE; trackF] noConstraint).
Proof.
  assert (Hi : nth_error [trackE; trackF] 1 = Some trackF) by reflexivity.
  assert (Hn : nTracks [trackE; trackF] <> 0%Z) by (vm_compute; discriminate).
  assert (Hb : bestRound (setupKink 4) [trackE; trackF] noConstraint
                         (Z.to_nat (maxIterations (setupKink 4))) = Some 2%nat)
    by (vm_compute; reflexivity).
  split; [exact Hi|]. split; [exact Hn|]. split; [exact Hb|].
  destruct (@C9_refitted_tracks dbl dbl_Scalar Track Track (setupKink 4)
                                [trackE; trackF] noConstraint 2%nat)
    as (Hlen & Htrk & _ & Hfit).
  rewrite (Hfit Hn Hb).
  split; [exact Hlen|].
  destruct (Htrk 1%nat trackF Hi) as (tav & b & H1 & _ & H3 & _ & _ & _ & H7 & H8 & H9).
  exists tav. repeat split; assumption.
Defined.

(** C10 at covariances diag(1,-1,0), with trace zero, the zero matrix,
    diag(1e-12,1e-12,1e-12) and diag(-1,-1,-1); and the terms of a
    constraint with unit covariance at (1,1,1) on the tracks A and B.
    Without constraint [VwgtMat] is diag(1,1,4) and [Vdel] is (1,2,-6);
    with it [VwgtMat] is diag(2,2,5), so [deltaV] is (1/2, 1, -6/5), and
    the chi-square is 457/100 + 292/100 from the tracks plus
    1/4 + 1 + 36/25 from the constraint.  In the second round the offset of
    the constraint from the linearization point, (-1/2, -1, 6/5), cancels
    the sum (1/2, 1, -6/5) of the tracks in [Vdel]. *)
Lemma C10_witness :
  neqb (trace (covariance (constraintWith covTraceless))) (ofZ 0) = false
  /\ fitRun (setup 2) [trackA; trackB] (constraintWith covZero)
     = fitRun (setup 2) [trackA; trackB] (constraintWith covTraceless)
  /\ linPoint (initState (setup 2) (constraintWith covTraceless)) = vec [q 1; q 1; q 1]
  /\ isConstraintFit (constraintWith covTiny) = true
  /\ isConstraintFit (constraintWith covNegative) = true
  /\ ndf [trackA; trackB] (constraintWith covNegative) = 4%Z
  /\ neqb (trace (covariance (constraintWith covUnit))) (ofZ 0) = true
  /\ it_deltaV (runIteration (setup 2) [trackA; trackB] (constraintWith covUnit)
                  (stateAfter (setup 2) [trackA; trackB] (constraintWith covUnit) 0))
     = vec [Fin (1 # 2); Fin 1; Fin (-6 # 5)]
  /\ VdelOf (setup 2) (constraintWith covUnit)
            (linPoint (stateAfter (setup 2) [trackA; trackB] (constraintWith covUnit) 1))
            (tl_billoirVertex
               (trackLoopOf (setup 2) [trackA; trackB]
                  (stateAfter (setup 2) [trackA; trackB] (constraintWith covUnit) 1)))
     = vec [Fin 0; Fin 0; Fin 0]
  /\ newChi2At (setup 2) [trackA; trackB] (constraintWith covUnit) 0 = Fin (509 # 50)
  /\ newChi2At (setup 2) [trackA; trackB] (constraintWith covUnit) 1 = Fin (509 # 50)
  /\ newChi2At (setup 2) [trackA; trackB] noConstraint 0 = Fin (15 # 2).
Proof.
  assert (Hz : neqb (trace (covariance (constraintWith covTraceless))) (ofZ 0) = false)
    by (vm_compute; reflexivity).
  split; [exact Hz|].
  destruct (@C10_constraint_by_trace dbl dbl_Scalar Track Track (setup 2) [trackA; trackB]
                                     (constraintWith covTraceless))
    as (_ & Hlin & Hoff & _).
  destruct (Hoff Hz) as (_ & _ & _ & _ & Hsame).
  split; [apply Hsame; vm_compute; reflexivity|].
  split; [rewrite Hlin; reflexivity|].
  destruct (@C10_constraint_by_trace dbl dbl_Scalar Track Track (setup 2) [trackA; trackB]
                                     (constraintWith covTiny)) as (Htiny & _).
  destruct (@C10_constraint_by_trace dbl dbl_Scalar Track Track (setup 2) [trackA; trackB]
                                     (constraintWith covNegative)) as (Hneg & _ & _ & Hon).
  split; [rewrite Htiny; vm_compute; reflexivity|].
  split; [rewrite Hneg; vm_compute; reflexivity|].
  destruct (Hon ltac:(vm_compute; reflexivity)) as (Hndf & _).
  split; [rewrite Hndf; vm_compute; reflexivity|].
  assert (Hu : neqb (trace (covariance (constraintWith covUnit))) (ofZ 0) = true)
    by (vm_compute; reflexivity).
  split; [exact Hu|].
  destruct (@C10_constraint_by_trace dbl dbl_Scalar Track Track (setup 2) [trackA; trackB]
                                     (constraintWith covUnit)) as (_ & _ & _ & HonU).
  destruct (HonU Hu) as (_ & HVdel & _ & HdV & Hchi).
  cbv zeta in HdV, Hchi.
  split; [rewrite HdV; vm_compute; reflexivity|].
  split; [rewrite HVdel; vm_compute; reflexivity|].
  split; [unfold newChi2At; rewrite Hchi; vm_compute; reflexivity|].
  split; [unfold newChi2At; rewrite Hchi; vm_compute; reflexivity|].
  destruct (@C10_constraint_by_trace dbl dbl_Scalar Track Track (setup 2) [trackA; trackB]
                                     noConstraint) as (_ & _ & HoffN & _).
  destruct (HoffN ltac:(vm_compute; reflexivity)) as (_ & _ & _ & HchiN & _).
  unfold newChi2At. rewrite HchiN. vm_compute. reflexivity.
Defined.

End Checks.

(** * Further properties of [fit] *)

Section Budget.
Context {T : Type} `{Scalar T}.
Variables InputTrack TrackParams : Type.
Variable cfg : Setup (T:=T) InputTrack TrackParams.
Variable paramVector : list InputTrack.
Variable constraint : Vertex (T:=T) InputTrack.

Local Abbreviation stateAt := (stateAfter cfg paramVector constraint).

(** X1. With tracks but without a positive iteration budget the loop body
    never runs: the factory is not called and the vertex returned is the
    default-constructed one, whatever the constraint. *)
Theorem X1_no_budget_no_fit :
  nTracks paramVector <> 0%Z ->
  (maxIterations cfg <= 0)%Z ->
  run_vertex (fitRun cfg paramVector constraint) = Vertex_default cfg
  /\ run_calls (fitRun cfg paramVector constraint) = []
  /\ run_rounds (fitRun cfg paramVector constraint) = 0%Z
  /\ fit cfg paramVector constraint = Vertex_default cfg.
Proof.
  intros Hn Hm. unfold fit. rewrite fit_nonzero by exact Hn.
  cbn [run_vertex run_calls run_rounds]. unfold fitLoop.
  replace (Z.to_nat (maxIterations cfg)) with 0%nat by lia. repeat split.
Qed.

(** The running momenta are set from the parameters of the input tracks in
    the first round. *)
Lemma trackLoop_momenta_first (lp : Matrix) (l : list InputTrack)
      (s : TrackLoop InputTrack TrackParams) :
  tl_trackMomenta (fold_left (trackStep cfg 0 lp) l s)
  = tl_trackMomenta s
    ++ map (fun t => vec [vget (parameters cfg (extractParameters cfg t)) ePHI;
                          vget (parameters cfg (extractParameters cfg t)) eTHETA;
                          vget (parameters cfg (extractParameters cfg t)) eQOP]) l.
Proof.
  revert s. induction l as [|t l IH]; intros s; cbn [fold_left map].
  - now rewrite app_nil_r.
  - rewrite IH. unfold trackStep. cbn [tl_trackMomenta Z.eqb].
    now rewrite <- app_assoc.
Qed.

Lemma trackLoop_momenta_later (n : Z) (lp : Matrix) (l : list InputTrack)
      (s : TrackLoop InputTrack TrackParams) :
  n <> 0%Z ->
  tl_trackMomenta (fold_left (trackStep cfg n lp) l s) = tl_trackMomenta s.
Proof.
  intros Hn. revert s. induction l as [|t l IH]; intros s; cbn [fold_left]; [reflexivity|].
  rewrite IH. unfold trackStep. cbn [tl_trackMomenta].
  destruct (Z.eqb_spec n 0); [contradiction | reflexivity].
Qed.

(** X2. The running momenta are initialised once: in the first round from
    azimuth, polar angle and q/p of each input track, in input order; every
    later round starts from the momenta the round before it has stored. *)
Theorem X2_momenta_initialised_once :
  tl_trackMomenta (trackLoopOf cfg paramVector (stateAt 0))
  = map (fun t => vec [vget (parameters cfg (extractParameters cfg t)) ePHI;
                       vget (parameters cfg (extractParameters cfg t)) eTHETA;
                       vget (parameters cfg (extractParameters cfg t)) eQOP]) paramVector
  /\ forall j,
      tl_trackMomenta (trackLoopOf cfg paramVector (stateAt (S j)))
      = it_trackMomenta (runIteration cfg paramVector constraint (stateAt j)).
Proof.
  split.
  - unfold trackLoopOf. cbn [nIter stateAfter Nat.iter initState].
    rewrite trackLoop_momenta_first. reflexivity.
  - intros j. unfold trackLoopOf.
    rewrite trackLoop_momenta_later.
    + reflexivity.
    + rewrite nIter_stateAfter. lia.
Qed.

End Budget.

Section BestChi2.
Context {T : Type} `{Scalar T}.
Variables InputTrack TrackParams : Type.
Variable cfg : Setup (T:=T) InputTrack TrackParams.
Variable paramVector : list InputTrack.
Variable constraint : Vertex (T:=T) InputTrack.

Hypothesis ltb_trans : forall a b c : T, ltb a b = true -> ltb b c = true -> ltb a c = true.

Local Abbreviation stateAt := (stateAfter cfg paramVector constraint).

Lemma best_below_max (k : nat) :
  chi2 (stateAt k) = DBL_MAX \/ ltb (chi2 (stateAt k)) DBL_MAX = true.
Proof.
  induction k as [|k IH]; [now left|].
  rewrite stateAfter_S. unfold iterationBody, commit. cbn [chi2].
  destruct (ltb (it_newChi2 _) (chi2 (stateAt k))) eqn:E; [|exact IH].
  right. destruct IH as [IH|IH].
  - now rewrite IH in E.
  - eapply ltb_trans; eassumption.
Qed.

(** X3. The chi-square reported by a vertex that the loop has written is
    strictly below the largest finite double: with doubles it is neither
    NaN nor +infinity. *)
Theorem X3_fitted_chi2_below_max (j : nat) :
  nTracks paramVector <> 0%Z ->
  bestRound cfg paramVector constraint (Z.to_nat (maxIterations cfg)) = Some j ->
  ltb (fst (fitQuality (fit cfg paramVector constraint))) DBL_MAX = true.
Proof.
  intros Hn Hb. unfold fit. rewrite fit_nonzero by exact Hn.
  cbn [run_vertex]. unfold fitLoop. rewrite fittedVertex_stateAfter, Hb.
  destruct (bestRound_lt _ _ _ _ Hb) as [_ Himp]. unfold improvedAt in Himp.
  change (fst (fitQuality (vertexOfRound cfg paramVector constraint j)))
    with (newChi2At cfg paramVector constraint j).
  destruct (best_below_max j) as [E|E].
  - now rewrite E in Himp.
  - eapply ltb_trans; eassumption.
Qed.

Hypothesis ltb_irrefl : forall a : T, ltb a a = false.

(** X4. More rounds never worsen the best chi-square: the best kept after
    [k'] rounds is not above the best kept after [k <= k'] rounds. *)
Theorem X4_best_chi2_never_rises (k k' : nat) :
  (k <= k')%nat ->
  ltb (chi2 (stateAfter cfg paramVector constraint k))
      (chi2 (stateAfter cfg paramVector constraint k')) = false.
Proof.
  induction 1 as [|k' Hle IH]; [apply ltb_irrefl|].
  rewrite stateAfter_S. unfold iterationBody, commit. cbn [chi2].
  destruct (ltb (it_newChi2 _) (chi2 (stateAt k'))) eqn:E; [|exact IH].
  destruct (ltb (chi2 (stateAt k)) (it_newChi2 _)) eqn:E'; [|reflexivity].
  rewrite <- IH. symmetry. eapply ltb_trans; eassumption.
Qed.

End BestChi2.

(** ** The normal equations, over the real numbers *)

Section NormalEquations.
Import RealScalar.
Local Open Scope R_scope.

Lemma shape33 {T : Type} (M : Matrix (T:=T)) :
  isShape 3 3 M = true ->
  exists a b c d e f g h i, M = [[a; b; c]; [d; e; f]; [g; h; i]].
Proof.
  unfold isShape. intros Hs. apply andb_prop in Hs. destruct Hs as [Hl Hr].
  destruct M as [|[|a [|b [|c [|]]]] [|[|d [|e [|f [|]]]] [|[|g [|h [|i [|]]]] [|]]]];
    cbn in Hl, Hr; try discriminate.
  now exists a, b, c, d, e, f, g, h, i.
Qed.

Lemma shape31 {T : Type} (M : Matrix (T:=T)) :
  isShape 3 1 M = true -> exists x y z, M = [[x]; [y]; [z]].
Proof.
  unfold isShape. intros Hs. apply andb_prop in Hs. destruct Hs as [Hl Hr].
  destruct M as [|[|x [|]] [|[|y [|]] [|[|z [|]] [|]]]]; cbn in Hl, Hr; try discriminate.
  now exists x, y, z.
Qed.

(** Eigen's 3x3 inverse solves linear systems with a regular matrix. *)
Lemma eigenInverse3_solves (M v : Matrix (T:=R)) :
  isShape 3 3 M = true -> isShape 3 1 v = true ->
  determinant3 M <> 0 ->
  mmul M (mmul (eigenInverse3 M) v) = v.
Proof.
  intros HM Hv Hd.
  destruct (shape33 M HM) as (a & b & c & d & e & f & g & h & i & ->).
  destruct (shape31 v Hv) as (x & y & z & ->).
  cbv [determinant3 cofactor_3x3 get nth Nat.modulo Nat.add Nat.divmod fst snd Nat.sub
       mul sub add ofZ R_Scalar] in Hd.
  cbv [mmul eigenInverse3 determinant3 cofactor_3x3 mk get col dot ncols nrows hd length
       map seq combine fold_left nth fst snd zero one Nat.modulo Nat.add Nat.divmod Nat.sub
       mul sub add div ofZ R_Scalar].
  repeat f_equal; field; exact Hd.
Qed.

Variables InputTrack TrackParams : Type.
Variable cfg : Setup (T:=R) InputTrack TrackParams.
Variable paramVector : list InputTrack.
Variable constraint : Vertex (T:=R) InputTrack.

(** X5. In exact arithmetic the position update of a round solves the
    reduced normal equations, [VwgtMat * deltaV = Vdel], whenever [VwgtMat]
    is a regular 3x3 matrix (and [Vdel] a 3-vector). *)
Theorem X5_deltaV_solves_normal_equations (st : FitState InputTrack TrackParams) :
  inverse3 cfg = eigenInverse3 ->
  isShape 3 3 (VwgtMatOf cfg constraint (tl_billoirVertex (trackLoopOf cfg paramVector st)))
  = true ->
  isShape 3 1 (VdelOf cfg constraint (linPoint st)
                      (tl_billoirVertex (trackLoopOf cfg paramVector st))) = true ->
  determinant3 (VwgtMatOf cfg constraint (tl_billoirVertex (trackLoopOf cfg paramVector st)))
  <> 0 ->
  mmul (VwgtMatOf cfg constraint (tl_billoirVertex (trackLoopOf cfg paramVector st)))
       (it_deltaV (runIteration cfg paramVector constraint st))
  = VdelOf cfg constraint (linPoint st) (tl_billoirVertex (trackLoopOf cfg paramVector st)).
Proof.
  intros Hinv HM Hv Hd.
  unfold runIteration. cbn [it_deltaV]. unfold deltaVOf, covDeltaVmatOf.
  rewrite Hinv. now apply eigenInverse3_solves.
Qed.

(** X6. In exact arithmetic the momentum update of a track solves its
    block of the normal equations, [G * deltaP = U - B^T * deltaV],
    whenever [G] of the track is a regular 3x3 matrix. *)
Theorem X6_deltaP_solves_track_equations (st : FitState InputTrack TrackParams)
        (b : BilloirTrack (T:=R) InputTrack) :
  inverse3 cfg = eigenInverse3 ->
  In b (it_billoirTracks (runIteration cfg paramVector constraint st)) ->
  isShape 3 3 (GiMat b) = true ->
  isShape 3 1 (msub (UiVec b)
                    (mmul (transpose (BiMat b))
                          (it_deltaV (runIteration cfg paramVector constraint st)))) = true ->
  determinant3 (GiMat b) <> 0 ->
  mmul (GiMat b) (deltaPOf (it_deltaV (runIteration cfg paramVector constraint st)) b)
  = msub (UiVec b)
         (mmul (transpose (BiMat b)) (it_deltaV (runIteration cfg paramVector constraint st))).
Proof.
  intros Hinv Hb HM Hv Hd.
  pose proof (round_cached cfg paramVector constraint st) as Hc.
  rewrite Forall_forall in Hc. destruct (Hc b Hb) as (_ & _ & _ & _ & _ & _ & HCi & _).
  unfold deltaPOf. rewrite HCi, Hinv. now apply eigenInverse3_solves.
Qed.

End NormalEquations.

(** ** More on the angles *)

Section CanonicalAngles.
Import RealScalar.
Local Open Scope R_scope.

Lemma Rtrunc_small (u : R) : -1 < u < 1 -> Rtrunc u = 0%Z.
Proof.
  intros Hu. unfold Rtrunc. destruct (Rle_dec 0 u) as [Hle|Hlt].
  - symmetry. apply Int_part_spec. lra.
  - replace (Int_part (- u)) with 0%Z; [reflexivity|].
    apply Int_part_spec. lra.
Qed.

Lemma Rfmod_small (x y : R) : 0 < y -> - y < x < y -> Rfmod x y = x.
Proof.
  intros Hy Hx. unfold Rfmod. rewrite Rtrunc_small; [lra|].
  assert (Hi : 0 < / y) by now apply Rinv_0_lt_compat.
  assert (Hone : y * / y = 1) by (field; lra).
  unfold Rdiv. split.
  - replace (-1) with ((- y) * / y) by lra. apply Rmult_lt_compat_r; lra.
  - rewrite <- Hone. apply Rmult_lt_compat_r; lra.
Qed.

Ltac decide_comparison :=
  match goal with
  | |- context [Rlt_dec ?x ?y] =>
      lazymatch x with
      | context [Rlt_dec _ _] => fail
      | _ => lazymatch y with
             | context [Rlt_dec _ _] => fail
             | _ => destruct (Rlt_dec x y); cbv beta iota; cbn [andb]
             end
      end
  end.

Lemma normalizeAngles_canonical (p t : R) :
  - PI <= p <= PI -> 0 <= t <= PI -> normalizeAngles (T:=R) p t = (p, t).
Proof.
  intros Hp Ht. pose proof PI_RGT_0 as Hpi.
  cbv [normalizeAngles twoPi gtb ltb add sub mul opp fabs fmod ofZ M_PI R_Scalar Rltb].
  rewrite !Rfmod_small by lra.
  repeat decide_comparison; try (exfalso; lra); reflexivity.
Qed.

(** X7. The angle normalisation is idempotent: angles it has returned are
    returned unchanged. *)
Theorem X7_normalizeAngles_idempotent (phi theta : R) :
  normalizeAngles (T:=R) (fst (normalizeAngles (T:=R) phi theta))
                  (snd (normalizeAngles (T:=R) phi theta))
  = normalizeAngles (T:=R) phi theta.
Proof.
  destruct (normalizeAngles_real phi theta) as (Hp & Ht & _).
  rewrite normalizeAngles_canonical by assumption.
  now destruct (normalizeAngles phi theta).
Qed.

Variables InputTrack TrackParams : Type.
Variable cfg : Setup (T:=R) InputTrack TrackParams.
Variable paramVector : list InputTrack.
Variable constraint : Vertex (T:=R) InputTrack.

(** X8. Every refitted track of a vertex written by a round has its azimuth
    in [-pi, pi] and its polar angle in [0, pi]. *)
Theorem X8_refitted_angles_in_range (j : nat) :
  Forall (fun tav =>
            - PI <= vget (bp_parameters (fittedParams tav)) ePHI <= PI
            /\ 0 <= vget (bp_parameters (fittedParams tav)) eTHETA <= PI)
         (tracksAtVertex (vertexOfRound cfg paramVector constraint j)).
Proof.
  unfold vertexOfRound. rewrite materialize_tracks.
  apply Forall_forall. intros tav Htav.
  apply in_map_iff in Htav. destruct Htav as ([i b] & <- & Hin).
  apply in_combine_l in Hin. apply in_seq in Hin.
  rewrite round_tracks_length in Hin.
  cbn [fst snd].
  assert (Hm : In (nth i (it_trackMomenta
                            (runIteration cfg paramVector constraint
                                          (stateAfter cfg paramVector constraint j))) [])
                  (trackMomenta (stateAfter cfg paramVector constraint (S j)))).
  { rewrite trackMomenta_stateAfter_S. apply nth_In.
    rewrite round_momenta_length. lia. }
  destruct (stored_angles_in_range cfg paramVector constraint j _ Hm) as [Hp Ht].
  split; [exact Hp | exact Ht].
Qed.

End CanonicalAngles.

(** * Properties of [HomogeneousSurfaceMaterial] *)

Section SurfaceMaterialFacts.
Import SurfaceMaterial.
Variables MP D : Type.
Variable scaleMP : MP -> D -> MP.
Variable defaultSplitFactor : D.
Variable showMP : MP -> String.string.
Variable showDouble : D -> String.string.

Local Abbreviation St := (State MP D).
Local Abbreviation stepOf := (step scaleMP defaultSplitFactor showMP showDouble).

Lemma upd_same {A : Type} (f : Addr -> option A) (k : Addr) (v : option A) :
  upd f k v k = v.
Proof. unfold upd. now rewrite Nat.eqb_refl. Qed.

Lemma upd_other {A : Type} (f : Addr -> option A) (k x : Addr) (v : option A) :
  x <> k -> upd f k v x = f x.
Proof. intros Hx. unfold upd. destruct (Nat.eqb_spec x k); [contradiction | reflexivity]. Qed.

Lemma upd_cases {A : Type} (f : Addr -> option A) (k x : Addr) (v : option A) :
  (x = k /\ upd f k v x = v) \/ (x <> k /\ upd f k v x = f x).
Proof.
  destruct (Nat.eq_dec x k) as [->|Hne]; [left | right]; split; auto using upd_same, upd_other.
Qed.

(** Giving a fresh material to an address that holds no object. *)
Lemma owned_attach (st : St) (this : Addr) (v : MP) (sf : D) :
  owned st -> objs st this = None ->
  owned (setObject (snd (new st v)) this
                   (Some {| m_fullMaterial := Some (fst (new st v)); m_splitFactor := sf |})).
Proof.
  intros [Hlive Huniq Hleak Hbelow] Hthis. unfold new, setObject. cbn [fst snd cell brk objs].
  constructor; cbn [cell brk objs].
  - intros o h a Ho Hm.
    destruct (upd_cases (objs st) this o (Some {| m_fullMaterial := Some (brk st); m_splitFactor := sf |}))
      as [[-> E]|[Hne E]]; rewrite E in Ho.
    + injection Ho as <-. cbn in Hm. injection Hm as <-. rewrite upd_same. discriminate.
    + destruct (upd_cases (cell st) (brk st) a (Some v)) as [[_ E']|[_ E']]; rewrite E'.
      * discriminate.
      * eapply Hlive; eassumption.
  - intros o1 o2 h1 h2 a Ho1 Ho2 Hm1 Hm2.
    destruct (upd_cases (objs st) this o1 (Some {| m_fullMaterial := Some (brk st); m_splitFactor := sf |}))
      as [[-> E1]|[Hne1 E1]]; rewrite E1 in Ho1;
    destruct (upd_cases (objs st) this o2 (Some {| m_fullMaterial := Some (brk st); m_splitFactor := sf |}))
      as [[-> E2]|[Hne2 E2]]; rewrite E2 in Ho2; try reflexivity.
    + exfalso. injection Ho1 as <-. cbn in Hm1. injection Hm1 as <-.
      pose proof (Hbelow _ (Hlive _ _ _ Ho2 Hm2)). lia.
    + exfalso. injection Ho2 as <-. cbn in Hm2. injection Hm2 as <-.
      pose proof (Hbelow _ (Hlive _ _ _ Ho1 Hm1)). lia.
    + eapply Huniq; eassumption.
  - intros a Ha.
    destruct (upd_cases (cell st) (brk st) a (Some v)) as [[-> E]|[Hne E]]; rewrite E in Ha.
    + exists this, {| m_fullMaterial := Some (brk st); m_splitFactor := sf |}.
      split; [apply upd_same | reflexivity].
    + destruct (Hleak a Ha) as (o & h & Ho & Hm). exists o, h. split; [|exact Hm].
      rewrite upd_other; [exact Ho|]. intros ->. congruence.
  - intros a Ha.
    destruct (upd_cases (cell st) (brk st) a (Some v)) as [[-> E]|[Hne E]]; rewrite E in Ha.
    + lia.
    + pose proof (Hbelow a Ha). lia.
Qed.

(** Putting an object without material at an address that holds no object. *)
Lemma owned_attach_null (st : St) (this : Addr) (sf : D) :
  owned st -> objs st this = None ->
  owned (setObject st this (Some {| m_fullMaterial := None; m_splitFactor := sf |})).
Proof.
  intros [Hlive Huniq Hleak Hbelow] Hthis. unfold setObject.
  constructor; cbn [cell brk objs].
  - intros o h a Ho Hm.
    destruct (upd_cases (objs st) this o (Some {| m_fullMaterial := None; m_splitFactor := sf |}))
      as [[-> E]|[Hne E]]; rewrite E in Ho.
    + injection Ho as <-. discriminate.
    + eapply Hlive; eassumption.
  - intros o1 o2 h1 h2 a Ho1 Ho2 Hm1 Hm2.
    destruct (upd_cases (objs st) this o1 (Some {| m_fullMaterial := None; m_splitFactor := sf |}))
      as [[-> E1]|[Hne1 E1]]; rewrite E1 in Ho1;
    destruct (upd_cases (objs st) this o2 (Some {| m_fullMaterial := None; m_splitFactor := sf |}))
      as [[-> E2]|[Hne2 E2]]; rewrite E2 in Ho2; try reflexivity.
    + injection Ho1 as <-. discriminate.
    + injection Ho2 as <-. discriminate.
    + eapply Huniq; eassumption.
  - intros a Ha. destruct (Hleak a Ha) as (o & h & Ho & Hm). exists o, h. split; [|exact Hm].
    rewrite upd_other; [exact Ho|]. intros ->. congruence.
  - exact Hbelow.
Qed.

(** Taking an object away, its material deleted. *)
Lemma owned_detach (st st' : St) (this : Addr) (o : Object D) :
  owned st -> objs st this = Some o ->
  delete st (m_fullMaterial o) = Some st' ->
  owned (setObject st' this None).
Proof.
  intros [Hlive Huniq Hleak Hbelow] Hthis Hdel. unfold delete in Hdel.
  destruct (m_fullMaterial o) as [a|] eqn:Ema.
  - destruct (cell st a) as [v|] eqn:Ea; [|discriminate]. injection Hdel as <-.
    unfold setObject. constructor; cbn [cell brk objs].
    + intros o' h a' Ho Hm.
      destruct (upd_cases (objs st) this o' None) as [[-> E]|[Hne E]]; rewrite E in Ho;
        [discriminate|].
      rewrite upd_other; [eapply Hlive; eassumption|].
      intros ->. apply Hne. eapply Huniq; eassumption.
    + intros o1 o2 h1 h2 a' Ho1 Ho2 Hm1 Hm2.
      destruct (upd_cases (objs st) this o1 None) as [[-> E1]|[Hne1 E1]]; rewrite E1 in Ho1;
        [discriminate|].
      destruct (upd_cases (objs st) this o2 None) as [[-> E2]|[Hne2 E2]]; rewrite E2 in Ho2;
        [discriminate|].
      eapply Huniq; eassumption.
    + intros a' Ha'.
      destruct (upd_cases (cell st) a a' None) as [[-> E]|[Hne E]]; rewrite E in Ha';
        [congruence|].
      destruct (Hleak a' Ha') as (o' & h & Ho & Hm). exists o', h. split; [|exact Hm].
      rewrite upd_other; [exact Ho|]. intros ->. rewrite Hthis in Ho. injection Ho as <-.
      congruence.
    + intros a' Ha'.
      destruct (upd_cases (cell st) a a' None) as [[-> E]|[Hne E]]; rewrite E in Ha';
        [congruence|]. now apply Hbelow.
  - injection Hdel as <-.
    unfold setObject. constructor; cbn [cell brk objs].
    + intros o' h a' Ho Hm.
      destruct (upd_cases (objs st) this o' None) as [[-> E]|[Hne E]]; rewrite E in Ho;
        [discriminate|]. eapply Hlive; eassumption.
    + intros o1 o2 h1 h2 a' Ho1 Ho2 Hm1 Hm2.
      destruct (upd_cases (objs st) this o1 None) as [[-> E1]|[Hne1 E1]]; rewrite E1 in Ho1;
        [discriminate|].
      destruct (upd_cases (objs st) this o2 None) as [[-> E2]|[Hne2 E2]]; rewrite E2 in Ho2;
        [discriminate|].
      eapply Huniq; eassumption.
    + intros a' Ha'.
      destruct (Hleak a' Ha') as (o' & h & Ho & Hm). exists o', h. split; [|exact Hm].
      rewrite upd_other; [exact Ho|]. intros ->. rewrite Hthis in Ho. injection Ho as <-.
      congruence.
    + exact Hbelow.
Qed.

Lemma delete_owned (st : St) (this : Addr) (o : Object D) :
  owned st -> objs st this = Some o ->
  exists st', delete st (m_fullMaterial o) = Some st'.
Proof.
  intros [Hlive _ _ _] Hthis. unfold delete.
  destruct (m_fullMaterial o) as [a|] eqn:Ema; [|eauto].
  pose proof (Hlive _ _ _ Hthis Ema) as Hl.
  destruct (cell st a); [eauto | congruence].
Qed.

(** [owned] looks at a state point by point. *)
Lemma owned_ext (st st' : St) :
  (forall a, cell st a = cell st' a) -> brk st = brk st' ->
  (forall o, objs st o = objs st' o) ->
  owned st -> owned st'.
Proof.
  intros Hc Hb Ho [Hlive Huniq Hleak Hbelow]. constructor.
  - intros o h a. rewrite <- Ho, <- Hc. apply Hlive.
  - intros o1 o2 h1 h2 a. rewrite <- !Ho. apply Huniq.
  - intros a. rewrite <- Hc. intros Ha. destruct (Hleak a Ha) as (o & h & H1 & H2).
    exists o, h. now rewrite <- Ho.
  - intros a. rewrite <- Hc, <- Hb. apply Hbelow.
Qed.

(** A copy of the material of [l], or none, given to an address that holds
    no object. *)
Lemma owned_attach_clone (st : St) (this : Addr) (p : option Addr) (sf : D) :
  owned st -> objs st this = None ->
  (forall a, p = Some a -> cell st a <> None) ->
  exists q st', cloneOrNull st p = Some (q, st')
    /\ owned (setObject st' this (Some {| m_fullMaterial := q; m_splitFactor := sf |}))
    /\ (forall a, (a < brk st)%nat -> cell st' a = cell st a)
    /\ objs st' = objs st
    /\ match p, q with
       | Some a, Some a' => a' = brk st /\ cell st' a' = cell st a
       | None, None => st' = st
       | _, _ => False
       end.
Proof.
  intros Hw Hthis Hp. unfold cloneOrNull. destruct p as [a|].
  - destruct (cell st a) as [v|] eqn:Ea; [|now destruct (Hp a eq_refl)].
    exists (Some (brk st)), (snd (new st v)). cbn [new snd].
    split; [reflexivity|]. split; [exact (@owned_attach st this v sf Hw Hthis)|].
    split; [|split; [reflexivity|]].
    + intros a' Ha'. cbn [cell]. apply upd_other. lia.
    + split; [reflexivity|]. cbn [cell]. apply upd_same.
  - exists None, st. split; [reflexivity|].
    split; [now apply owned_attach_null|]. repeat split.
Qed.

Lemma step_owned (op : Op MP D) (st : St) :
  owned st -> enabled op st ->
  exists st', stepOf op st = Some st' /\ owned st'.
Proof.
  intros Hw Hen. destruct op as [this|this full sf|this lmp|this|this lmp|this s|this];
    cbn [step enabled] in *.
  - eexists. split; [reflexivity|]. now apply owned_attach_null.
  - unfold construct. eexists. split; [reflexivity|].
    exact (@owned_attach st this full sf Hw Hen).
  - destruct Hen as [Hthis Hlmp]. unfold construct_copy.
    destruct (objs st lmp) as [l|] eqn:El; [|congruence].
    destruct (@owned_attach_clone st this (m_fullMaterial l) (m_splitFactor l) Hw Hthis)
      as (q & st' & -> & Hw' & _).
    { intros a Ha. destruct Hw as [Hlive _ _ _]. eapply Hlive; eassumption. }
    eauto.
  - unfold destroy. destruct (objs st this) as [o|] eqn:Eo; [|congruence].
    destruct (@delete_owned st this o Hw Eo) as [st' Hd]. rewrite Hd.
    eexists. split; [reflexivity|]. eapply owned_detach; eassumption.
  - destruct Hen as [Hthis Hlmp]. unfold assign.
    destruct (objs st this) as [o|] eqn:Eo; [|congruence].
    destruct (objs st lmp) as [l|] eqn:El; [|congruence].
    destruct (Nat.eqb_spec this lmp) as [->|Hne]; cbn [negb]; [eauto|].
    destruct (@delete_owned st this o Hw Eo) as [st1 Hd]. rewrite Hd.
    pose proof (@owned_detach st st1 this o Hw Eo Hd) as Hw1.
    assert (Hobjs : objs st1 = objs st).
    { unfold delete in Hd. destruct (m_fullMaterial o); [destruct (cell st a)|];
        try discriminate; now injection Hd as <-. }
    rewrite Hobjs, El.
    destruct (@owned_attach_clone (setObject st1 this None) this (m_fullMaterial l)
                                  (m_splitFactor l) Hw1)
      as (q & st2 & Hcl & Hw2 & _).
    { cbn. apply upd_same. }
    { intros a Ha. destruct Hw1 as [Hlive _ _ _]. apply (Hlive lmp l a); [|exact Ha].
      cbn. rewrite upd_other by congruence. now rewrite Hobjs. }
    unfold cloneOrNull in Hcl |- *. cbn [cell setObject] in Hcl.
    destruct (m_fullMaterial l) as [a|].
    + destruct (cell st1 a) as [v|]; [|discriminate].
      injection Hcl as <- <-. eexists. split; [reflexivity|].
      eapply owned_ext; [| | |exact Hw2]; cbn; try reflexivity.
      intros x. unfold upd. destruct (x =? this)%nat; reflexivity.
    + injection Hcl as <- <-. eexists. split; [reflexivity|].
      eapply owned_ext; [| | |exact Hw2]; cbn; try reflexivity.
      intros x. unfold upd. destruct (x =? this)%nat; reflexivity.
  - unfold scale. destruct (objs st this) as [o|] eqn:Eo; [|congruence].
    destruct (m_fullMaterial o) as [a|] eqn:Ema; [|eauto].
    destruct Hw as [Hlive Huniq Hleak Hbelow].
    pose proof (Hlive _ _ _ Eo Ema) as Hl.
    destruct (cell st a) as [v|] eqn:Ea; [|congruence].
    eexists. split; [reflexivity|].
    assert (Hsame : forall x, upd (cell st) a (Some (scaleMP v s)) x <> None <-> cell st x <> None).
    { intros x. destruct (upd_cases (cell st) a x (Some (scaleMP v s))) as [[-> E]|[_ E]];
        rewrite E; [|tauto]. split; congruence. }
    constructor; cbn [cell brk objs].
    + intros o' h a' Ho Hm. apply Hsame. eapply Hlive; eassumption.
    + exact Huniq.
    + intros a' Ha'. apply Hleak. now apply Hsame.
    + intros a' Ha'. apply Hbelow. now apply Hsame.
  - unfold dump. destruct (objs st this) as [o|] eqn:Eo; [|congruence].
    destruct (m_fullMaterial o) as [a|] eqn:Ema; [|eauto].
    destruct Hw as [Hlive Huniq Hleak Hbelow].
    pose proof (Hlive _ _ _ Eo Ema) as Hl.
    destruct (cell st a) as [v|] eqn:Ea; [|congruence].
    eexists. split; [reflexivity|]. now constructor.
Qed.

Lemma materialOf_below (st st' : St) (o : Addr) :
  owned st ->
  (forall a, (a < brk st)%nat -> cell st' a = cell st a) ->
  objs st' o = objs st o ->
  materialOf st' o = materialOf st o.
Proof.
  intros [Hlive _ _ Hbelow] Hc Ho. unfold materialOf. rewrite Ho.
  destruct (objs st o) as [h|] eqn:Eh; [|reflexivity].
  destruct (m_fullMaterial h) as [a|] eqn:Ea; [|reflexivity].
  apply Hc, Hbelow. eapply Hlive; eassumption.
Qed.

(** X11. The copy constructor makes a deep copy: it cannot fail on a live
    source, the new object holds an equal material at an address that was
    not live before and the same split factor, every other object is
    untouched, and scaling the copy afterwards leaves the material of the
    source as it was. *)
Theorem X11_copy_is_deep (st : St) (this lmp : Addr) (l : Object D) :
  owned st -> objs st this = None -> objs st lmp = Some l ->
  exists st',
    construct_copy this lmp st = Some st'
    /\ materialOf st' this = materialOf st lmp
    /\ option_map (@m_splitFactor D) (objs st' this) = Some (m_splitFactor l)
    /\ (forall o, o <> this -> objs st' o = objs st o /\ materialOf st' o = materialOf st o)
    /\ (forall h a, objs st' this = Some h -> m_fullMaterial h = Some a -> cell st a = None)
    /\ (forall s, exists st'',
           scale scaleMP this s st' = Some st''
           /\ materialOf st'' lmp = materialOf st lmp
           /\ materialOf st'' this = option_map (fun v => scaleMP v s) (materialOf st lmp)).
Proof.
  intros Hw Hthis Hlmp.
  assert (Hne : lmp <> this) by congruence.
  unfold construct_copy. rewrite Hlmp.
  destruct (@owned_attach_clone st this (m_fullMaterial l) (m_splitFactor l) Hw Hthis)
    as (q & st' & -> & Hw' & Hcells & Hobjs & Hrel).
  { intros a Ha. destruct Hw as [Hlive _ _ _]. eapply Hlive; eassumption. }
  eexists. split; [reflexivity|].
  assert (Hother : forall o, o <> this ->
             objs (setObject st' this (Some {| m_fullMaterial := q;
                                                m_splitFactor := m_splitFactor l |})) o
             = objs st o).
  { intros o Ho. cbn. rewrite upd_other by exact Ho. now rewrite Hobjs. }
  assert (Hmat : materialOf (setObject st' this (Some {| m_fullMaterial := q;
                                                          m_splitFactor := m_splitFactor l |}))
                            this = materialOf st lmp).
  { unfold materialOf at 1. cbn [objs setObject cell]. rewrite upd_same. cbn [m_fullMaterial].
    unfold materialOf. rewrite Hlmp.
    destruct (m_fullMaterial l) as [a|], q as [a'|]; try contradiction; [|reflexivity].
    now destruct Hrel. }
  split; [exact Hmat|].
  split; [cbn; now rewrite upd_same|].
  split.
  { intros o Ho. split; [now apply Hother|].
    apply materialOf_below; [exact Hw | exact Hcells | now apply Hother]. }
  split.
  { intros h a Hh Ha. cbn in Hh. rewrite upd_same in Hh. injection Hh as <-. cbn in Ha.
    subst q. destruct (m_fullMaterial l) as [a0|]; [|contradiction].
    destruct Hrel as [-> _]. destruct Hw as [_ _ _ Hbelow].
    destruct (cell st (brk st)) eqn:E; [|reflexivity].
    assert (Hlt : (brk st < brk st)%nat) by (apply Hbelow; congruence). lia. }
  intros s. unfold scale. cbn [objs setObject]. rewrite upd_same. cbn [m_fullMaterial cell].
  destruct q as [a'|].
  - destruct (m_fullMaterial l) as [a|] eqn:Ea; [|contradiction].
    destruct Hrel as [-> Hval].
    assert (Hlive : cell st a <> None).
    { destruct Hw as [Hlive _ _ _]. eapply Hlive; eassumption. }
    destruct (cell st a) as [v|] eqn:Ev; [|congruence].
    cbn [cell setObject]. rewrite Hval. eexists. split; [reflexivity|]. split.
    + unfold materialOf. cbn [objs cell]. rewrite upd_other by exact Hne.
      rewrite Hobjs, Hlmp, Ea.
      assert (Hlt : (a < brk st)%nat).
      { destruct Hw as [_ _ _ Hbelow]. apply Hbelow. congruence. }
      rewrite upd_other by lia. rewrite Hcells by exact Hlt. reflexivity.
    + unfold materialOf. cbn [objs cell]. rewrite upd_same. cbn [m_fullMaterial].
      rewrite upd_same. now rewrite Hlmp, Ea, Ev.
  - destruct (m_fullMaterial l) as [a|] eqn:Ea; [contradiction|]. subst st'.
    eexists. split; [reflexivity|]. split.
    + unfold materialOf. cbn [objs cell setObject]. rewrite upd_other by exact Hne.
      reflexivity.
    + unfold materialOf. cbn [objs cell setObject]. rewrite upd_same. cbn [m_fullMaterial].
      now rewrite Hlmp, Ea.
Qed.

(** X12. Assignment between live objects cannot fail. Afterwards the
    target holds a material equal to the source's (or none, if the source
    has none) and the source's split factor, every other object and its
    material are untouched, the material the target held before is freed
    when the two objects differ, and self-assignment changes nothing. *)
Theorem X12_assign_copies (st : St) (this lmp : Addr) (o l : Object D) :
  owned st -> objs st this = Some o -> objs st lmp = Some l ->
  exists st',
    assign this lmp st = Some st'
    /\ materialOf st' this = materialOf st lmp
    /\ option_map (@m_splitFactor D) (objs st' this) = Some (m_splitFactor l)
    /\ (forall x, x <> this -> objs st' x = objs st x /\ materialOf st' x = materialOf st x)
    /\ (this = lmp -> st' = st)
    /\ (this <> lmp -> forall a, m_fullMaterial o = Some a -> cell st' a = None).
Proof.
  intros Hw Hthis Hlmp. unfold assign. rewrite Hthis, Hlmp.
  destruct (Nat.eqb_spec this lmp) as [E|Hne]; cbn [negb].
  - subst lmp. exists st. split; [reflexivity|].
    rewrite Hthis in Hlmp. injection Hlmp as <-.
    split; [reflexivity|]. split; [now rewrite Hthis|].
    split; [now split|]. split; [reflexivity | congruence].
  - destruct Hw as [Hlive Huniq Hleak Hbelow].
    assert (Hfresh : cell st (brk st) = None).
    { destruct (cell st (brk st)) eqn:E; [|reflexivity].
      assert (Hlt : (brk st < brk st)%nat) by (apply Hbelow; congruence). lia. }
    (* the state after [delete m_fullMaterial] *)
    assert (Hdel : exists st1, delete st (m_fullMaterial o) = Some st1
                     /\ objs st1 = objs st /\ brk st1 = brk st
                     /\ (forall a, m_fullMaterial o = Some a -> cell st1 a = None)
                     /\ (forall a, m_fullMaterial o <> Some a -> cell st1 a = cell st a)).
    { unfold delete. destruct (m_fullMaterial o) as [a|] eqn:Ea.
      - pose proof (Hlive _ _ _ Hthis Ea) as Hl.
        destruct (cell st a) as [v|]; [|congruence].
        eexists. split; [reflexivity|]. cbn. repeat split.
        + intros a' [= <-]. apply upd_same.
        + intros a' Ha'. apply upd_other. congruence.
      - exists st. repeat split; congruence. }
    destruct Hdel as (st1 & -> & Hobjs1 & Hbrk1 & Hfreed & Hkept).
    rewrite Hobjs1, Hlmp.
    assert (Hlmat : forall a, m_fullMaterial l = Some a ->
                              cell st1 a = cell st a /\ cell st a <> None /\ (a < brk st)%nat).
    { intros a Ha. pose proof (Hlive _ _ _ Hlmp Ha) as Hl. split; [|split; [exact Hl | auto]].
      apply Hkept. intros Ho. apply Hne. eapply Huniq; eassumption. }
    unfold cloneOrNull.
    destruct (m_fullMaterial l) as [a|] eqn:Ea.
    + destruct (Hlmat a eq_refl) as (Hc & Hl & Hlt). rewrite Hc.
      destruct (cell st a) as [v|] eqn:Ev; [|congruence].
      cbn [new]. eexists. split; [reflexivity|]. cbn [setObject].
      split.
      { unfold materialOf. cbn [objs cell setObject]. rewrite upd_same. cbn [m_fullMaterial].
        rewrite Hbrk1, upd_same, Hlmp, Ea. now rewrite Ev. }
      split; [cbn [objs setObject]; now rewrite upd_same|].
      split.
      { intros x Hx. cbn [objs setObject]. rewrite upd_other by exact Hx. rewrite ?Hobjs1.
        split; [reflexivity|].
        unfold materialOf. cbn [objs cell setObject]. rewrite upd_other by exact Hx. rewrite ?Hobjs1.
        destruct (objs st x) as [h|] eqn:Eh; [|reflexivity].
        destruct (m_fullMaterial h) as [ax|] eqn:Eax; [|reflexivity].
        pose proof (Hbelow _ (Hlive _ _ _ Eh Eax)) as Hltx.
        rewrite upd_other by lia. apply Hkept.
        intros Ho. apply Hx. eapply Huniq; eassumption. }
      split; [congruence|].
      intros _ a' Ha'. cbn [cell setObject].
      pose proof (Hbelow _ (Hlive _ _ _ Hthis Ha')) as Hlt'.
      rewrite upd_other by lia. now apply Hfreed.
    + eexists. split; [reflexivity|]. cbn [setObject].
      split.
      { unfold materialOf. cbn [objs cell setObject]. rewrite upd_same. cbn [m_fullMaterial].
        now rewrite Hlmp, Ea. }
      split; [cbn [objs setObject]; now rewrite upd_same|].
      split.
      { intros x Hx. cbn [objs setObject]. rewrite upd_other by exact Hx. rewrite ?Hobjs1.
        split; [reflexivity|].
        unfold materialOf. cbn [objs cell setObject]. rewrite upd_other by exact Hx. rewrite ?Hobjs1.
        destruct (objs st x) as [h|] eqn:Eh; [|reflexivity].
        destruct (m_fullMaterial h) as [ax|] eqn:Eax; [|reflexivity].
        apply Hkept. intros Ho. apply Hx. eapply Huniq; eassumption. }
      split; [congruence|].
      intros _ a' Ha'. cbn [cell setObject]. now apply Hfreed.
Qed.

(** X13. Scaling a live object cannot fail; it scales the material of
    that object only, changes no object's fields and no other object's
    material, and does nothing at all when the object has no material. *)
Theorem X13_scale_only_this (st : St) (this : Addr) (o : Object D) (s : D) :
  owned st -> objs st this = Some o ->
  exists st',
    scale scaleMP this s st = Some st'
    /\ objs st' = objs st
    /\ materialOf st' this = option_map (fun v => scaleMP v s) (materialOf st this)
    /\ (forall x, x <> this -> materialOf st' x = materialOf st x)
    /\ (m_fullMaterial o = None -> st' = st).
Proof.
  intros [Hlive Huniq Hleak Hbelow] Hthis. unfold scale. rewrite Hthis.
  destruct (m_fullMaterial o) as [a|] eqn:Ea.
  - pose proof (Hlive _ _ _ Hthis Ea) as Hl.
    destruct (cell st a) as [v|] eqn:Ev; [|congruence].
    eexists. split; [reflexivity|]. split; [reflexivity|].
    split.
    { unfold materialOf. cbn [objs cell]. rewrite Hthis, Ea, upd_same, Ev. reflexivity. }
    split; [|discriminate].
    intros x Hx. unfold materialOf. cbn [objs cell].
    destruct (objs st x) as [h|] eqn:Eh; [|reflexivity].
    destruct (m_fullMaterial h) as [ax|] eqn:Eax; [|reflexivity].
    apply upd_other. intros ->. apply Hx. eapply Huniq; eassumption.
  - exists st. split; [reflexivity|]. split; [reflexivity|].
    split; [unfold materialOf; now rewrite Hthis, Ea|].
    split; reflexivity.
Qed.

(** X14. Constructing an object from a material and destroying it again
    gives back the heap and the objects as they were: the clone made by
    the constructor is freed by the destructor. *)
Theorem X14_construct_destroy (st : St) (this : Addr) (full : MP) (sf : D) :
  owned st -> objs st this = None ->
  exists st1 st2,
    construct this full sf st = Some st1
    /\ materialOf st1 this = Some full
    /\ destroy this st1 = Some st2
    /\ (forall a, cell st2 a = cell st a)
    /\ (forall x, objs st2 x = objs st x).
Proof.
  intros [Hlive Huniq Hleak Hbelow] Hthis.
  assert (Hfresh : cell st (brk st) = None).
  { destruct (cell st (brk st)) eqn:E; [|reflexivity].
    assert (Hlt : (brk st < brk st)%nat) by (apply Hbelow; congruence). lia. }
  unfold construct. cbn [new]. eexists. eexists. split; [reflexivity|].
  split.
  { unfold materialOf. cbn [objs cell setObject]. rewrite upd_same. cbn [m_fullMaterial].
    apply upd_same. }
  unfold destroy. cbn [objs setObject]. rewrite upd_same.
  cbn [m_fullMaterial delete cell setObject].
  rewrite upd_same. split; [reflexivity|]. cbn [cell objs setObject brk].
  split.
  - intros a. destruct (upd_cases (upd (cell st) (brk st) (Some full)) (brk st) a None)
      as [[-> E]|[Hne E]]; rewrite E; [now rewrite Hfresh|]. now apply upd_other.
  - intros x. destruct (upd_cases (upd (objs st) this (Some {| m_fullMaterial := Some (brk st);
                                                              m_splitFactor := sf |})) this x None)
      as [[-> E]|[Hne E]]; rewrite E; [now rewrite Hthis|]. now apply upd_other.
Qed.

Lemma emptyState_owned : owned (@emptyState MP D).
Proof.
  split; cbn; intros; congruence.
Qed.

(** X10. Ownership is an invariant of the class: from a state in which
    every live object owns its material alone and no material is live
    without an owner, every sequence of constructor, copy, destructor,
    assignment, scaling and dump calls, each made on storage in the state
    the language asks for, runs to the end (no freed material is read or
    freed again) and ends in such a state (nothing is leaked). *)
Theorem X10_ownership_invariant (ops : list (Op MP D)) (st : St) :
  owned st ->
  admissible scaleMP defaultSplitFactor showMP showDouble ops st ->
  exists st', run scaleMP defaultSplitFactor showMP showDouble ops st = Some st'
              /\ owned st'.
Proof.
  revert st. induction ops as [|op rest IH]; intros st Hw Had.
  - exists st. now split.
  - destruct Had as [Hen Hrest].
    destruct (@step_owned op st Hw Hen) as (st1 & E & Hw1).
    cbn [run]. rewrite E in *. exact (IH st1 Hw1 Hrest).
Qed.

(** X19. [dump] on a live object of a state with ownership reads no
    null and no freed pointer: it succeeds, and what it writes to a stream
    is appended to what the stream held, the same pieces as on an empty
    stream. *)
Theorem X19_dump_appends (st : St) (this : Addr) (o : Object D) (sl : list String.string) :
  owned st -> objs st this = Some o ->
  exists out,
    dump showMP showDouble this [] st = Some out
    /\ dump showMP showDouble this sl st = Some (sl ++ out)
    /\ length out = match m_fullMaterial o with Some _ => 8%nat | None => 5%nat end.
Proof.
  intros [Hlive _ _ _] Hthis. unfold dump. rewrite Hthis.
  destruct (m_fullMaterial o) as [a|] eqn:Ea.
  - pose proof (Hlive _ _ _ Hthis Ea) as Hl.
    destruct (cell st a) as [v|]; [|congruence].
    eexists. split; [reflexivity|]. split; [|reflexivity].
    cbn [app]. now rewrite <- !app_assoc.
  - eexists. split; [reflexivity|]. split; [|reflexivity].
    cbn [app]. now rewrite <- !app_assoc.
Qed.

End SurfaceMaterialFacts.

(** * Properties of [constant_field_propagation] *)

Section PropagationFacts.
Import RealScalar PropagationTestHelper.
Local Open Scope R_scope.

Lemma sqrt_1_sqr_pos (t : R) : 0 < sqrt (1 + t²).
Proof.
  apply sqrt_lt_R0. pose proof (Rle_0_sqr t). lra.
Qed.

Lemma hyp_pos (x y : R) : 0 < x -> sqrt (x * x + y * y) = x * sqrt (1 + (y / x)²).
Proof.
  intros Hx. rewrite <- (sqrt_square x) at 3 by lra.
  rewrite <- sqrt_mult.
  - f_equal. unfold Rsqr. field. lra.
  - nra.
  - pose proof (Rle_0_sqr (y / x)). lra.
Qed.

Lemma hyp_neg (x y : R) : x < 0 -> sqrt (x * x + y * y) = - x * sqrt (1 + (y / x)²).
Proof.
  intros Hx. rewrite <- (sqrt_square (- x)) at 1 by lra.
  rewrite <- sqrt_mult.
  - f_equal. unfold Rsqr. field. lra.
  - nra.
  - pose proof (Rle_0_sqr (y / x)). lra.
Qed.

(** [atan2 y x] is the polar angle of the point [(x, y)]. *)
Lemma atan2_polar (y x : R) :
  sqrt (x * x + y * y) * cos (atan2 y x) = x
  /\ sqrt (x * x + y * y) * sin (atan2 y x) = y.
Proof.
  unfold atan2.
  destruct (Rlt_dec 0 x) as [Hx|Hx].
  - rewrite (@hyp_pos x y Hx), cos_atan, sin_atan.
    pose proof (sqrt_1_sqr_pos (y / x)). split; field; lra.
  - destruct (Rlt_dec x 0) as [Hx'|Hx'].
    + rewrite (@hyp_neg x y Hx'). pose proof (sqrt_1_sqr_pos (y / x)).
      destruct (Rle_dec 0 y).
      * rewrite neg_cos, neg_sin, cos_atan, sin_atan. split; field; lra.
      * replace (atan (y / x) - PI) with (- (- atan (y / x) + PI)) by ring.
        rewrite cos_neg, sin_neg, neg_cos, neg_sin, cos_neg, sin_neg, cos_atan, sin_atan.
        split; field; lra.
    + assert (E : x = 0) by lra. subst x.
      replace (0 * 0 + y * y) with (y * y) by ring.
      destruct (Rlt_dec 0 y) as [Hy|Hy].
      * rewrite sqrt_square, cos_PI2, sin_PI2 by lra. lra.
      * destruct (Rlt_dec y 0) as [Hy'|Hy'].
        -- replace (y * y) with ((- y) * (- y)) by ring.
           rewrite sqrt_square, cos_neg, sin_neg, cos_PI2, sin_PI2 by lra. lra.
        -- assert (E : y = 0) by lra. subst y.
           rewrite Rmult_0_l, sqrt_0, cos_0, sin_0. lra.
Qed.

Variable Nat2SI_MOMENTUM : R -> R.
Variable units_m : R.
Variables pT phi theta charge Bz : R.

Local Abbreviation E :=
  (constant_field_propagation Nat2SI_MOMENTUM units_m pT phi theta charge Bz).

Lemma radius_eq : r E = Rabs (Nat2SI_MOMENTUM pT / (charge * Bz)).
Proof.
  unfold constant_field_propagation. cbv zeta.
  destruct (Rltb (charge * Bz) 0); reflexivity.
Qed.

Lemma radius_nonneg : 0 <= r E.
Proof.
  rewrite radius_eq. apply Rabs_pos.
Qed.

Lemma start_on_circle :
  0 - xc E = curl charge Bz * r E * sin phi
  /\ 0 - yc E = - (curl charge Bz * r E * cos phi).
Proof.
  unfold constant_field_propagation, curl. cbv zeta.
  destruct (Rltb (charge * Bz) 0); cbn [xc yc r];
    rewrite cos_shift, sin_shift; split; ring.
Qed.

Lemma radius_is_distance :
  r E = sqrt ((0 - xc E) * (0 - xc E) + (0 - yc E) * (0 - yc E)).
Proof.
  destruct start_on_circle as [-> ->].
  assert (Hc : curl charge Bz * curl charge Bz = 1).
  { unfold curl. destruct (Rltb (charge * Bz) 0); ring. }
  replace (curl charge Bz * r E * sin phi * (curl charge Bz * r E * sin phi)
           + - (curl charge Bz * r E * cos phi) * - (curl charge Bz * r E * cos phi))
    with ((curl charge Bz * curl charge Bz) * (r E * r E) * ((sin phi)² + (cos phi)²))
    by (unfold Rsqr; ring).
  rewrite Hc, sin2_cos2, Rmult_1_l, Rmult_1_r, sqrt_square; [reflexivity|].
  apply radius_nonneg.
Qed.

Lemma end_is_rotated_start :
  exp_x E - xc E
    = (0 - xc E) * cos (turns E * 2 * PI) - (0 - yc E) * sin (turns E * 2 * PI)
  /\ exp_y E - yc E
    = (0 - xc E) * sin (turns E * 2 * PI) + (0 - yc E) * cos (turns E * 2 * PI).
Proof.
  assert (Hx : exp_x E = xc E + r E * cos (atan2 (0 - yc E) (0 - xc E) + turns E * 2 * PI)).
  { unfold constant_field_propagation. cbv zeta.
    destruct (Rltb (charge * Bz) 0); reflexivity. }
  assert (Hy : exp_y E = yc E + r E * sin (atan2 (0 - yc E) (0 - xc E) + turns E * 2 * PI)).
  { unfold constant_field_propagation. cbv zeta.
    destruct (Rltb (charge * Bz) 0); reflexivity. }
  rewrite Hx, Hy, cos_plus, sin_plus.
  destruct (atan2_polar (0 - yc E) (0 - xc E)) as [Hc Hs].
  rewrite <- radius_is_distance in Hc, Hs.
  set (a := atan2 (0 - yc E) (0 - xc E)) in *.
  set (b := turns E * 2 * PI).
  clearbody a. rewrite <- Hc, <- Hs. split; ring.
Qed.

Lemma exp_phi_spec :
  - PI <= exp_phi E <= PI
  /\ exists k : Z, exp_phi E = phi + turns E * 2 * PI + IZR k * (2 * PI).
Proof.
  assert (Hphi : exp_phi E =
                 let f := Rfmod (phi + turns E * 2 * PI) (2 * PI) in
                 let f := if Rltb f (- PI) then f + 2 * PI else f in
                 if Rltb PI f then f - 2 * PI else f).
  { unfold constant_field_propagation. cbv zeta.
    destruct (Rltb (charge * Bz) 0); reflexivity. }
  rewrite Hphi. clear Hphi. set (t := phi + turns E * 2 * PI). cbv zeta.
  pose proof PI_RGT_0 as Hpi.
  destruct (@Rfmod_spec t (2 * PI)) as (Ef & Hpos & Hneg); [lra|].
  assert (Hb : - (2 * PI) < Rfmod t (2 * PI) < 2 * PI).
  { destruct (Rle_dec 0 t) as [H|H]; [specialize (Hpos H) | specialize (Hneg ltac:(lra))]; lra. }
  set (k := Rtrunc (t / (2 * PI))) in *. clearbody k.
  set (f := Rfmod t (2 * PI)) in *. clearbody f.
  unfold Rltb.
  destruct (Rlt_dec f (- PI)) as [H1|H1].
  - destruct (Rlt_dec PI (f + 2 * PI)) as [H2|H2]; [lra|].
    split; [lra|]. exists (1 - k)%Z. rewrite minus_IZR. lra.
  - destruct (Rlt_dec PI f) as [H2|H2].
    + split; [lra|]. exists (- 1 - k)%Z. rewrite minus_IZR. lra.
    + split; [lra|]. exists (- k)%Z. rewrite opp_IZR. lra.
Qed.

(** X15. For a track with a finite nonzero bending radius (the quotient
    [Nat2SI(pT) / (q * Bz)] is not zero, so neither [q * Bz] nor [r]
    is, and nothing is divided by zero on the way to [exp_phi]), the
    expected final azimuth lies in the closed interval from -pi to pi and
    is the start azimuth turned by [turns] revolutions: it has the sine
    and cosine of [phi + turns * 2 * pi]. *)
Theorem X15_expected_phi_in_range :
  let ex := constant_field_propagation Nat2SI_MOMENTUM units_m pT phi theta charge Bz in
  Nat2SI_MOMENTUM pT / (charge * Bz) <> 0 ->
  - PI <= exp_phi ex <= PI
  /\ cos (exp_phi ex) = cos (phi + turns ex * 2 * PI)
  /\ sin (exp_phi ex) = sin (phi + turns ex * 2 * PI).
Proof.
  cbv zeta. intros _.
  destruct exp_phi_spec as (Hr & k & Hk). split; [exact Hr|].
  now rewrite Hk, cos_period_Z, sin_period_Z.
Qed.

(** X16. For a track with a finite nonzero bending radius, the expected
    transverse end position is the start position rotated about the centre
    of the bending circle by [turns] revolutions (so [phi0] is the polar
    angle of the start seen from the centre); the start lies at distance
    [r] from the centre, and the start momentum is perpendicular to the
    radius there. *)
Theorem X16_expected_position_is_rotated_start :
  let ex := constant_field_propagation Nat2SI_MOMENTUM units_m pT phi theta charge Bz in
  Nat2SI_MOMENTUM pT / (charge * Bz) <> 0 ->
  exp_x ex - xc ex
    = (0 - xc ex) * cos (turns ex * 2 * PI) - (0 - yc ex) * sin (turns ex * 2 * PI)
  /\ exp_y ex - yc ex
    = (0 - xc ex) * sin (turns ex * 2 * PI) + (0 - yc ex) * cos (turns ex * 2 * PI)
  /\ (0 - xc ex) * (0 - xc ex) + (0 - yc ex) * (0 - yc ex) = r ex * r ex
  /\ px ex * (0 - xc ex) + py ex * (0 - yc ex) = 0.
Proof.
  cbv zeta. intros _.
  destruct end_is_rotated_start as [Hx Hy]. split; [exact Hx|]. split; [exact Hy|].
  destruct start_on_circle as [Sx Sy]. rewrite Sx, Sy.
  assert (Hc : curl charge Bz * curl charge Bz = 1).
  { unfold curl. destruct (Rltb (charge * Bz) 0); ring. }
  split.
  - transitivity ((curl charge Bz * curl charge Bz) * (r E * r E) * ((sin phi)² + (cos phi)²));
      [unfold Rsqr; ring|]. rewrite Hc, sin2_cos2. ring.
  - assert (Hp : px E = pT * cos phi /\ py E = pT * sin phi).
    { unfold constant_field_propagation. cbv zeta.
      destruct (Rltb (charge * Bz) 0); split; reflexivity. }
    destruct Hp as [-> ->]. ring.
Qed.

(** X17. For a track with a finite nonzero bending radius, the expected
    azimuth and the expected position agree: at the expected end position
    the direction [exp_phi] is tangent to the bending circle, with the
    sense of rotation given by the sign of [q * Bz]. *)
Theorem X17_expected_direction_is_tangent :
  let ex := constant_field_propagation Nat2SI_MOMENTUM units_m pT phi theta charge Bz in
  Nat2SI_MOMENTUM pT / (charge * Bz) <> 0 ->
  exp_x ex - xc ex = curl charge Bz * r ex * sin (exp_phi ex)
  /\ exp_y ex - yc ex = - (curl charge Bz * r ex * cos (exp_phi ex)).
Proof.
  cbv zeta. intros _.
  destruct end_is_rotated_start as [-> ->].
  destruct start_on_circle as [-> ->].
  destruct exp_phi_spec as (_ & k & ->).
  rewrite cos_period_Z, sin_period_Z, cos_plus, sin_plus. split; ring.
Qed.

(** X18. For a track with nonzero bending radius and transverse momentum
    that is neither along nor perpendicular to the field, the expected
    helix has the length of the propagation: the square of the transverse
    arc [2 * pi * r * |turns|] plus the square of the expected
    displacement in z is the square of [max_path_length]. *)
Theorem X18_helix_path_length :
  let ex := constant_field_propagation Nat2SI_MOMENTUM units_m pT phi theta charge Bz in
  Nat2SI_MOMENTUM pT / (charge * Bz) <> 0 -> pT <> 0 -> sin theta <> 0 -> cos theta <> 0 ->
  (2 * PI * r ex * Rabs (turns ex)) * (2 * PI * r ex * Rabs (turns ex)) + exp_z ex * exp_z ex
  = (5 * units_m) * (5 * units_m).
Proof.
  cbv zeta.
  intros Hr HpT Hs Hc.
  assert (Hrpos : 0 < r E).
  { rewrite radius_eq. now apply Rabs_pos_lt. }
  pose proof PI_RGT_0 as Hpi.
  assert (Ht : Rabs (turns E) = Rabs (5 * units_m / (2 * PI * r E) * sin theta)).
  { unfold constant_field_propagation. cbv zeta.
    destruct (Rltb (charge * Bz) 0); cbn [turns r]; [reflexivity | apply Rabs_Ropp]. }
  assert (Harc : 2 * PI * r E * Rabs (turns E) = Rabs (5 * units_m * sin theta)).
  { rewrite Ht. rewrite <- (Rabs_right (2 * PI * r E)) at 1 by nra.
    rewrite <- Rabs_mult. f_equal. field. nra. }
  assert (Hz : exp_z E = cos theta / sin theta * (2 * PI * r E * Rabs (turns E))).
  { unfold constant_field_propagation. cbv zeta.
    destruct (Rltb (charge * Bz) 0); cbn [exp_z turns r]; unfold tan; field; auto. }
  rewrite Hz, Harc.
  set (A := Rabs (5 * units_m * sin theta)).
  assert (HA : A * A = (5 * units_m * sin theta) * (5 * units_m * sin theta)).
  { unfold A. rewrite <- Rabs_mult. apply Rabs_right. nra. }
  transitivity (A * A * (((sin theta)² + (cos theta)²) / (sin theta * sin theta))).
  { unfold Rsqr. field. exact Hs. }
  rewrite HA, sin2_cos2. field. exact Hs.
Qed.

End PropagationFacts.

(** * Further properties at concrete inputs *)

Section MoreChecks.
Import Dbl RealScalar Examples RealExamples.

Lemma X1_witness :
  run_vertex (fitRun (setup 0) [trackA; trackB] noConstraint) = Vertex_default (setup 0)
  /\ run_calls (fitRun (setup 0) [trackA; trackB] noConstraint) = []
  /\ run_rounds (fitRun (setup 0) [trackA; trackB] noConstraint) = 0%Z
  /\ fit (setup 0) [trackA; trackB] noConstraint = Vertex_default (setup 0).
Proof.
  apply (@X1_no_budget_no_fit dbl dbl_Scalar Track Track (setup 0) [trackA; trackB] noConstraint).
  - vm_compute. discriminate.
  - vm_compute. discriminate.
Defined.

Lemma X3_witness :
  ltb (fst (fitQuality (fit (setupKink 4) [trackE; trackF] noConstraint))) DBL_MAX = true.
Proof.
  apply (@X3_fitted_chi2_below_max dbl dbl_Scalar Track Track (setupKink 4) [trackE; trackF]
           noConstraint dltb_trans 2%nat).
  - vm_compute. discriminate.
  - vm_compute. reflexivity.
Defined.

Lemma X4_witness :
  ltb (chi2 (stateAfter (setupKink 4) [trackE; trackF] noConstraint 1))
      (chi2 (stateAfter (setupKink 4) [trackE; trackF] noConstraint 3)) = false.
Proof.
  apply (@X4_best_chi2_never_rises dbl dbl_Scalar Track Track (setupKink 4) [trackE; trackF]
           noConstraint dltb_trans dltb_irrefl 1%nat 3%nat).
  lia.
Defined.

Lemma r_unconstrained : isConstraintFit rnoConstraint = false.
Proof.
  unfold isConstraintFit, isConstraintFitOf.
  cbv [neqb R_Scalar Rneqb].
  destruct (Req_dec_T _ _) as [_|Hne]; [reflexivity|].
  exfalso. apply Hne. cbv [trace covariance rnoConstraint Vertex_default mzero mk nrows length
    map seq fold_left get nth add ofZ zero R_Scalar]. lra.
Qed.

Lemma X5_witness :
  let cfg := rsetup 1 in
  let st := initState cfg rnoConstraint in
  let bv := tl_billoirVertex (trackLoopOf cfg [rtrackA; rtrackB] st) in
  mmul (VwgtMatOf cfg rnoConstraint bv)
       (it_deltaV (runIteration cfg [rtrackA; rtrackB] rnoConstraint st))
  = VdelOf cfg rnoConstraint (linPoint st) bv.
Proof.
  cbv zeta.
  apply (@X5_deltaV_solves_normal_equations RTrack RTrack (rsetup 1) [rtrackA; rtrackB]
           rnoConstraint (initState (rsetup 1) rnoConstraint)).
  - reflexivity.
  - unfold VwgtMatOf. rewrite r_unconstrained. vm_compute. reflexivity.
  - unfold VdelOf. rewrite r_unconstrained. vm_compute. reflexivity.
  - unfold VwgtMatOf. rewrite r_unconstrained. vm_compute.
    change R0 with 0%R. change R1 with 1%R. lra.
Defined.

Lemma X6_witness :
  let cfg := rsetup 1 in
  let st := initState cfg rnoConstraint in
  let it := runIteration cfg [rtrackA; rtrackB] rnoConstraint st in
  Forall (fun b =>
            mmul (GiMat b) (deltaPOf (it_deltaV it) b)
            = msub (UiVec b) (mmul (transpose (BiMat b)) (it_deltaV it)))
         (it_billoirTracks it).
Proof.
  cbv zeta. apply Forall_forall. intros b Hb.
  pose proof Hb as Hb0.
  rewrite (@round_tracks R _ RTrack RTrack (rsetup 1) [rtrackA; rtrackB] rnoConstraint
             (initState (rsetup 1) rnoConstraint)) in Hb0.
  apply (@X6_deltaP_solves_track_equations RTrack RTrack (rsetup 1) [rtrackA; rtrackB]
           rnoConstraint (initState (rsetup 1) rnoConstraint) b).
  - reflexivity.
  - exact Hb.
  - apply in_map_iff in Hb0. destruct Hb0 as (b0 & <- & Hin). cbn [setChi2 GiMat].
    vm_compute in Hin. destruct Hin as [<-|[<-|[]]]; lazy; reflexivity.
  - apply in_map_iff in Hb0. destruct Hb0 as (b0 & <- & Hin). cbn [setChi2 UiVec BiMat].
    cbn [runIteration it_deltaV]. unfold deltaVOf, covDeltaVmatOf, VwgtMatOf, VdelOf.
    rewrite r_unconstrained.
    vm_compute in Hin. destruct Hin as [<-|[<-|[]]]; lazy; reflexivity.
  - apply in_map_iff in Hb0. destruct Hb0 as (b0 & <- & Hin). cbn [setChi2 GiMat].
    vm_compute in Hin. destruct Hin as [<-|[<-|[]]]; vm_compute;
      change R0 with 0%R; change R1 with 1%R; lra.
Defined.

End MoreChecks.

Section SurfaceMaterialChecks.
Import SurfaceMaterial SurfaceMaterialExamples.

Lemma one_owned : owned one.
Proof.
  destruct (@step_owned Z Z Z.mul 1%Z show show (@OpConstruct Z Z 0%nat 5%Z 1%Z) (emptyState Z Z)
              (emptyState_owned Z Z) eq_refl) as (st' & E & Hw).
  cbn in E. injection E as <-. exact Hw.
Qed.

Lemma two_owned : owned two.
Proof.
  destruct (@step_owned Z Z Z.mul 1%Z show show (@OpConstruct Z Z 1%nat 7%Z 2%Z) one
              one_owned eq_refl) as (st' & E & Hw).
  cbn in E. injection E as <-. exact Hw.
Qed.

Lemma X10_witness :
  exists st', run Z.mul 1%Z show show program (emptyState Z Z) = Some st' /\ owned st'.
Proof.
  apply (@X10_ownership_invariant Z Z Z.mul 1%Z show show program (emptyState Z Z)).
  - apply emptyState_owned.
  - vm_compute. repeat split; discriminate.
Defined.

Lemma X11_witness :
  exists st',
    construct_copy 1%nat 0%nat one = Some st'
    /\ materialOf st' 1%nat = materialOf one 0%nat
    /\ option_map (@m_splitFactor Z) (objs st' 1%nat) = Some 1%Z
    /\ (forall o, o <> 1%nat -> objs st' o = objs one o /\ materialOf st' o = materialOf one o)
    /\ (forall h a, objs st' 1%nat = Some h -> m_fullMaterial h = Some a -> cell one a = None)
    /\ (forall s, exists st'',
           scale Z.mul 1%nat s st' = Some st''
           /\ materialOf st'' 0%nat = materialOf one 0%nat
           /\ materialOf st'' 1%nat = option_map (fun v => Z.mul v s) (materialOf one 0%nat)).
Proof.
  apply (@X11_copy_is_deep Z Z Z.mul one 1%nat 0%nat
           {| m_fullMaterial := Some 0%nat; m_splitFactor := 1%Z |}).
  - exact one_owned.
  - reflexivity.
  - reflexivity.
Defined.

Lemma X12_witness :
  exists st',
    assign 0%nat 1%nat two = Some st'
    /\ materialOf st' 0%nat = materialOf two 1%nat
    /\ option_map (@m_splitFactor Z) (objs st' 0%nat) = Some 2%Z
    /\ (forall x, x <> 0%nat -> objs st' x = objs two x /\ materialOf st' x = materialOf two x)
    /\ (0%nat = 1%nat -> st' = two)
    /\ (0%nat <> 1%nat -> forall a, Some 0%nat = Some a -> cell st' a = None).
Proof.
  apply (@X12_assign_copies Z Z two 0%nat 1%nat
           {| m_fullMaterial := Some 0%nat; m_splitFactor := 1%Z |}
           {| m_fullMaterial := Some 1%nat; m_splitFactor := 2%Z |}).
  - exact two_owned.
  - reflexivity.
  - reflexivity.
Defined.

Lemma X13_witness :
  exists st',
    scale Z.mul 0%nat 3%Z two = Some st'
    /\ objs st' = objs two
    /\ materialOf st' 0%nat = option_map (fun v => Z.mul v 3%Z) (materialOf two 0%nat)
    /\ (forall x, x <> 0%nat -> materialOf st' x = materialOf two x)
    /\ (Some 0%nat = None -> st' = two).
Proof.
  apply (@X13_scale_only_this Z Z Z.mul two 0%nat
           {| m_fullMaterial := Some 0%nat; m_splitFactor := 1%Z |} 3%Z).
  - exact two_owned.
  - reflexivity.
Defined.

Lemma X14_witness :
  exists st1 st2,
    construct 1%nat 7%Z 2%Z one = Some st1
    /\ materialOf st1 1%nat = Some 7%Z
    /\ destroy 1%nat st1 = Some st2
    /\ (forall a, cell st2 a = cell one a)
    /\ (forall x, objs st2 x = objs one x).
Proof.
  apply (@X14_construct_destroy Z Z one 1%nat 7%Z 2%Z).
  - exact one_owned.
  - reflexivity.
Defined.

Lemma X19_witness :
  exists out,
    dump show show 0%nat [] one = Some out
    /\ dump show show 0%nat [Text.endl] one = Some ([Text.endl] ++ out)
    /\ length out = 8%nat.
Proof.
  apply (@X19_dump_appends Z Z show show one 0%nat
           {| m_fullMaterial := Some 0%nat; m_splitFactor := 1%Z |} [Text.endl]).
  - exact one_owned.
  - reflexivity.
Defined.

End SurfaceMaterialChecks.

Section PropagationChecks.
Import RealScalar PropagationTestHelper.
Local Open Scope R_scope.

Lemma radius_at_example : (fun p : R => p) 1 / (1 * 1) <> 0.
Proof.
  cbv beta. unfold Rdiv. rewrite Rmult_1_l, Rmult_1_l, Rinv_1. lra.
Qed.

Lemma X15_witness :
  let ex := constant_field_propagation (fun p => p) 1 1 0 (PI / 4) 1 1 in
  - PI <= exp_phi ex <= PI
  /\ cos (exp_phi ex) = cos (0 + turns ex * 2 * PI)
  /\ sin (exp_phi ex) = sin (0 + turns ex * 2 * PI).
Proof.
  cbv zeta.
  apply (@X15_expected_phi_in_range (fun p => p) 1 1 0 (PI / 4) 1 1).
  exact radius_at_example.
Defined.

Lemma X16_witness :
  let ex := constant_field_propagation (fun p => p) 1 1 0 (PI / 4) 1 1 in
  exp_x ex - xc ex
    = (0 - xc ex) * cos (turns ex * 2 * PI) - (0 - yc ex) * sin (turns ex * 2 * PI)
  /\ exp_y ex - yc ex
    = (0 - xc ex) * sin (turns ex * 2 * PI) + (0 - yc ex) * cos (turns ex * 2 * PI)
  /\ (0 - xc ex) * (0 - xc ex) + (0 - yc ex) * (0 - yc ex) = r ex * r ex
  /\ px ex * (0 - xc ex) + py ex * (0 - yc ex) = 0.
Proof.
  cbv zeta.
  apply (@X16_expected_position_is_rotated_start (fun p => p) 1 1 0 (PI / 4) 1 1).
  exact radius_at_example.
Defined.

Lemma X17_witness :
  let ex := constant_field_propagation (fun p => p) 1 1 0 (PI / 4) 1 1 in
  exp_x ex - xc ex = curl 1 1 * r ex * sin (exp_phi ex)
  /\ exp_y ex - yc ex = - (curl 1 1 * r ex * cos (exp_phi ex)).
Proof.
  cbv zeta.
  apply (@X17_expected_direction_is_tangent (fun p => p) 1 1 0 (PI / 4) 1 1).
  exact radius_at_example.
Defined.

Lemma X18_witness :
  let E := constant_field_propagation (fun p => p) 1 1 0 (PI / 4) 1 1 in
  (2 * PI * r E * Rabs (turns E)) * (2 * PI * r E * Rabs (turns E)) + exp_z E * exp_z E
  = (5 * 1) * (5 * 1).
Proof.
  cbv zeta.
  pose proof PI_RGT_0 as Hpi.
  apply (@X18_helix_path_length (fun p => p) 1 1 0 (PI / 4) 1 1).
  - unfold Rdiv. rewrite Rmult_1_l, Rmult_1_l, Rinv_1. lra.
  - lra.
  - apply Rgt_not_eq, sin_gt_0; lra.
  - apply Rgt_not_eq, cos_gt_0; lra.
Defined.

End PropagationChecks.
